(** * Loopmaster-AI: loop-point detection and WAV/smpl writer

    A shallow embedding of [services/audioDsp.ts] and
    [services/wavWriter.ts], and the properties of them that the
    specification states.

    Numbers.  A JavaScript [number] is an IEEE binary64 value.  The two
    services use a small set of operations on them; these are collected in
    the interface [JsNumber], with two instances:

    - [Float64]: Rocq's primitive binary64 floats, i.e. the arithmetic the
      program really runs on (a [Float32Array] holds binary64 values that
      happen to fit binary32);
    - [Exact]: rationals extended with NaN, i.e. the same operations without
      rounding (and without infinities).

    The functions of the two services are written once, over the interface.
    Quantities that the program only ever uses as integers (sample offsets,
    lengths, sizes, the sample rate, identifiers, rounded scores) are [Z].

    Not modelled: the failure of an allocation ([new ArrayBuffer],
    [new Int16Array]) for sizes beyond what the engine allows, and hosts
    that are not little-endian. *)

From Stdlib Require Import ZArith Zpower List Bool Lia String Ascii.
From Stdlib Require Import QArith Qround Qabs Qpower Lqa.
From Stdlib Require Import Floats DecimalString Sorted Permutation.
Import ListNotations.

Local Open Scope Z_scope.

(* ================================================================== *)
(** ** Numbers *)

Declare Scope js_scope.
Delimit Scope js_scope with js.

(** The operations on [number] used by the two services. *)
Class JsNumber (N : Type) : Type := {
  num : Z -> N;                 (* an integer literal, or an integer used as a number *)
  NaN : N;                      (* what [undefined] becomes in arithmetic *)
  num_add : N -> N -> N;
  num_sub : N -> N -> N;
  num_mul : N -> N -> N;
  num_div : N -> N -> N;
  num_lt : N -> N -> bool;      (* x < y *)
  num_le : N -> N -> bool;      (* x <= y *)
  Math_abs : N -> N;
  Math_max : N -> N -> N;
  Math_min : N -> N -> N;
  (* Math.round: the nearest integer, ties towards +infinity.  It is only
     applied to a score above 60, which is a finite number; for NaN and
     the infinities, where the result would not be an integer, the
     instances answer 0. *)
  Math_round : N -> Z;
  (* The integer part taken when a number is stored in an integer typed
     array: truncation towards zero, with NaN and the infinities giving 0. *)
  ToInteger : N -> Z
}.

Infix "+" := num_add : js_scope.
Infix "-" := num_sub : js_scope.
Infix "*" := num_mul : js_scope.
Infix "/" := num_div : js_scope.
Notation "x <? y" := (num_lt x y) : js_scope.
Notation "x <=? y" := (num_le x y) : js_scope.
Notation "x >? y" := (num_lt y x) : js_scope.
Notation "x >=? y" := (num_le y x) : js_scope.

(** *** binary64 *)

Module F64.

Definition of_Z (z : Z) : float :=
  if z <? 0 then PrimFloat.opp (PrimFloat.of_uint63 (Uint63.of_Z (- z)))
  else PrimFloat.of_uint63 (Uint63.of_Z z).

Definition is_nan (x : float) : bool := negb (PrimFloat.eqb x x).

(* Math.max: NaN if either argument is NaN; +0 is larger than -0. *)
Definition max (a b : float) : float :=
  if is_nan a then a else if is_nan b then b
  else if PrimFloat.ltb a b then b
  else if PrimFloat.ltb b a then a
  else match PrimFloat.classify a with NZero => b | _ => a end.

(* Math.min: NaN if either argument is NaN; -0 is smaller than +0. *)
Definition min (a b : float) : float :=
  if is_nan a then a else if is_nan b then b
  else if PrimFloat.ltb a b then a
  else if PrimFloat.ltb b a then b
  else match PrimFloat.classify a with PZero => b | _ => a end.

(* The signed mantissa of a finite value [m * 2^e]. *)
Definition signed (s : bool) (m : positive) : Z :=
  if s then Z.neg m else Z.pos m.

(* floor (x + 1/2), computed exactly. *)
Definition round (x : float) : Z :=
  match Prim2SF x with
  | S754_finite s m e =>
      if 0 <=? e then signed s m * 2 ^ e
      else (2 * signed s m + 2 ^ (- e)) / 2 ^ (1 - e)
  | _ => 0
  end.

(* Truncation towards zero. *)
Definition trunc (x : float) : Z :=
  match Prim2SF x with
  | S754_finite s m e =>
      if 0 <=? e then signed s m * 2 ^ e
      else Z.quot (signed s m) (2 ^ (- e))
  | _ => 0
  end.

End F64.

#[export] Instance Float64 : JsNumber float := {|
  num := F64.of_Z;
  NaN := PrimFloat.nan;
  num_add := PrimFloat.add;
  num_sub := PrimFloat.sub;
  num_mul := PrimFloat.mul;
  num_div := PrimFloat.div;
  num_lt := PrimFloat.ltb;
  num_le := PrimFloat.leb;
  Math_abs := PrimFloat.abs;
  Math_max := F64.max;
  Math_min := F64.min;
  Math_round := F64.round;
  ToInteger := F64.trunc
|}.

(** *** Exact arithmetic: rationals with NaN *)

Module Ex.

(* [None] is NaN.  Every operation with a NaN operand gives NaN, every
   comparison with a NaN operand is false. *)
Definition t : Type := option Q.

Definition lift2 (f : Q -> Q -> Q) (a b : t) : t :=
  match a, b with
  | Some x, Some y => Some (f x y)
  | _, _ => None
  end.

(* There are no infinities here: a division by zero gives NaN. *)
Definition div (a b : t) : t :=
  match a, b with
  | Some x, Some y => if Qeq_bool y 0 then None else Some (x / y)%Q
  | _, _ => None
  end.

Definition lt (a b : t) : bool :=
  match a, b with
  | Some x, Some y => negb (Qle_bool y x)
  | _, _ => false
  end.

Definition le (a b : t) : bool :=
  match a, b with
  | Some x, Some y => Qle_bool x y
  | _, _ => false
  end.

Definition max (a b : t) : t :=
  lift2 (fun x y => if Qle_bool x y then y else x) a b.

Definition min (a b : t) : t :=
  lift2 (fun x y => if Qle_bool x y then x else y) a b.

Definition round (a : t) : Z :=
  match a with
  | Some x => Qfloor (x + (1 # 2))
  | None => 0
  end.

Definition trunc (a : t) : Z :=
  match a with
  | Some x => if Qle_bool 0 x then Qfloor x else Qceiling x
  | None => 0
  end.

End Ex.

#[export] Instance Exact : JsNumber Ex.t := {|
  num := fun z => Some (inject_Z z);
  NaN := None;
  num_add := Ex.lift2 Qplus;
  num_sub := Ex.lift2 Qminus;
  num_mul := Ex.lift2 Qmult;
  num_div := Ex.div;
  num_lt := Ex.lt;
  num_le := Ex.le;
  Math_abs := option_map Qabs;
  Math_max := Ex.max;
  Math_min := Ex.min;
  Math_round := Ex.round;
  ToInteger := Ex.trunc
|}.

(* ================================================================== *)
(** ** Loops and arrays *)

(** [for (let i = lo; i < hi; i += step) s = body(i, s)], for [step > 0].
    The number of iterations is computed from the bounds; the lemma
    [for_loop_unfold] below shows that this is the loop of the source. *)
Fixpoint for_iter {S : Type} (n : nat) (i step : Z)
    (body : Z -> S -> S) (s : S) : S :=
  match n with
  | O => s
  | Datatypes.S n' => for_iter n' (i + step) step body (body i s)
  end.

Definition trip_count (lo hi step : Z) : nat :=
  Z.to_nat ((hi - lo + step - 1) / step).

Definition for_loop {S : Type} (lo hi step : Z)
    (body : Z -> S -> S) (s : S) : S :=
  for_iter (trip_count lo hi step) lo step body s.

(** A [Float32Array] (in general, a typed array) is the list of its
    elements. *)
Definition TypedArray (N : Type) : Type := list N.

Definition len {A : Type} (a : list A) : Z := Z.of_nat (List.length a).

(** [data[i]] read as a number: an index outside the array gives
    [undefined], which every use below turns into NaN. *)
Definition item {N : Type} `{JsNumber N} (data : TypedArray N) (i : Z) : N :=
  if i <? 0 then NaN else nth (Z.to_nat i) data NaN.

Notation "data .[ i ]" := (item data i)
  (at level 1, left associativity, format "data .[ i ]").

(* ================================================================== *)
(** ** services/audioDsp.ts *)

Record LoopPoint : Type := {
  id : Z;
  start : Z;        (* in samples *)
  end_ : Z;         (* in samples *)
  score : Z;        (* Math.round of the correlation score *)
  name : string
}.

(** An [AudioBuffer] always has at least one channel (it cannot be created
    with none), so [getChannelData(0)] and [getChannelData(channel)] with
    [channel < numberOfChannels] never fail.  [sampleRate] is the rate in
    Hz of the decoded buffer, an integer. *)
Record AudioBuffer (N : Type) : Type := {
  sampleRate : Z;
  firstChannel : TypedArray N;
  otherChannels : list (TypedArray N)
}.

Arguments sampleRate {N} _.
Arguments firstChannel {N} _.
Arguments otherChannels {N} _.

Section Services.

Context {N : Type} `{JsNumber N}.

Definition channelList (buffer : AudioBuffer N) : list (TypedArray N) :=
  firstChannel buffer :: otherChannels buffer.

Definition numberOfChannels (buffer : AudioBuffer N) : Z :=
  len (channelList buffer).

(* buffer.length: the number of sample frames. *)
Definition frameCount (buffer : AudioBuffer N) : Z :=
  len (firstChannel buffer).

Definition getChannelData (buffer : AudioBuffer N) (channel : Z)
    : TypedArray N :=
  nth (Z.to_nat channel) (channelList buffer) [].

(** The test of line 13: a crossing from negative to positive or vice
    versa between [data[i]] and [data[i + 1]]. *)
Definition crossing (data : TypedArray N) (i : Z) : bool :=
  ((data.[i] <=? num 0)%js && (data.[i + 1] >? num 0)%js)
  || ((data.[i] >=? num 0)%js && (data.[i + 1] <? num 0)%js).

(** Helper to find zero crossing closest to a target sample.  The loop
    state is [(bestIndex, minVal)]. *)
Definition findZeroCrossing (data : TypedArray N) (target windowSize : Z)
    : Z :=
  let bestIndex := target in
  let minVal := num 1 in
  let start := Z.max 0 (target - windowSize) in
  let end_ := Z.min (len data - 1) (target + windowSize) in
  fst (for_loop start end_ 1
         (fun i '(bestIndex, minVal) =>
            if crossing data i then
              let dist := Math_abs data.[i] in
              if (dist <? minVal)%js then (i, dist)
              else (bestIndex, minVal)
            else (bestIndex, minVal))
         (bestIndex, minVal)).

(** Calculate correlation between two segments. *)
Definition calculateCorrelation (data : TypedArray N)
    (idxA idxB window : Z) : N :=
  if (idxA <? 0) || (idxB <? 0)
     || (idxA + window >=? len data) || (idxB + window >=? len data)
  then num 0
  else
    let sum :=
      for_loop 0 window 1
        (fun i sum => (sum + Math_abs (data.[idxA + i] - data.[idxB + i]))%js)
        (num 0) in
    let avgDiff := (sum / num window)%js in
    let score := Math_max (num 0) (num 100 - avgDiff * num 200)%js in
    score.

(** Lines 66-89: the scan of candidate start points for one end point.
    The loop state is [(bestStart, bestScore)]; [continue] leaves it
    unchanged.  [Math.floor(validEnd / 100)] is the integer quotient. *)
Definition scanStartPoints (data : TypedArray N) (validEnd : Z) : Z * N :=
  let searchStep := Z.max 10 (validEnd / 100) in
  let bestStart := 0 in
  let bestScore := num (-1) in
  let maxStartIndex := validEnd - 1000 in
  for_loop 0 maxStartIndex searchStep
    (fun i '(bestStart, bestScore) =>
       let candidateStart := findZeroCrossing data i 100 in
       if candidateStart >=? maxStartIndex then (bestStart, bestScore)
       else
         let score := calculateCorrelation data candidateStart validEnd 500 in
         if (score >? bestScore)%js then (candidateStart, score)
         else (bestStart, bestScore))
    (bestStart, bestScore).

(* `Auto Loop ${idCounter}` *)
Definition autoLoopName (idCounter : Z) : string :=
  ("Auto Loop " ++ NilZero.string_of_int (Z.to_int idCounter))%string.

(** Lines 59-100: the callback of [candidateEndRegions.forEach].  The
    state is [(points, idCounter)]; [points.push] appends.  The name is
    built after [idCounter++], so it carries the incremented counter. *)
Definition visitRegion (data : TypedArray N)
    (st : list LoopPoint * Z) (regionEndTarget : Z) : list LoopPoint * Z :=
  let '(points, idCounter) := st in
  let windowSearch := 2000 in
  let validEnd := findZeroCrossing data regionEndTarget windowSearch in
  if validEnd <? 44100 / 2 then (points, idCounter)
  else
    let '(bestStart, bestScore) := scanStartPoints data validEnd in
    if (bestScore >? num 60)%js then
      (points ++ [ {| id := idCounter;
                      start := bestStart;
                      end_ := validEnd;
                      score := Math_round bestScore;
                      name := autoLoopName (idCounter + 1) |} ],
       idCounter + 1)
    else (points, idCounter).

(** [points.sort((a, b) => b.score - a.score)]: a stable sort that puts
    [a] before [b] unless [b.score - a.score > 0]. *)
Fixpoint insertByScore (a : LoopPoint) (l : list LoopPoint)
    : list LoopPoint :=
  match l with
  | [] => [a]
  | b :: l' =>
      if score b - score a >? 0 then b :: insertByScore a l'
      else a :: b :: l'
  end.

Definition sortByScore (points : list LoopPoint) : list LoopPoint :=
  fold_right insertByScore [] points.

(** The probes of line 51-55.  [len] is an array length, so the products
    [len * 0.75] and [len * 0.5] are exact in binary64 and their floors
    are the integer quotients. *)
Definition candidateEndRegions (len : Z) : list Z :=
  filter (fun idx => idx >? 1000) [len - 100; 3 * len / 4; len / 2].

Definition detectLoopPoints (buffer : AudioBuffer N) : list LoopPoint :=
  let data := getChannelData buffer 0 in
  let len := len data in
  let '(points, _) :=
    fold_left (visitRegion data) (candidateEndRegions len) ([], 1) in
  let results := firstn 3 (sortByScore points) in
  results.

End Services.

(* ================================================================== *)
(** ** services/wavWriter.ts *)

(** *** Byte buffers and the DataView *)

(** A byte is an integer in [0, 256); an [ArrayBuffer] is the list of its
    bytes. *)
Definition byte : Type := Z.

Fixpoint store_nat {A : Type} (k : nat) (v : A) (l : list A) : list A :=
  match l, k with
  | [], _ => []
  | _ :: l', O => v :: l'
  | x :: l', Datatypes.S k' => x :: store_nat k' v l'
  end.

(** [a[k] = v] on a typed array: a store outside the array is ignored. *)
Definition store {A : Type} (a : list A) (k : Z) (v : A) : list A :=
  if k <? 0 then a else store_nat (Z.to_nat k) v a.

(** Code that writes through a [DataView] (or a [Uint8Array]) over one
    [ArrayBuffer]: the state is the content of the buffer, and [None] is
    the [RangeError] that a write outside the buffer throws. *)
Definition Writer (A : Type) : Type := list byte -> option (A * list byte).

Definition ret {A : Type} (a : A) : Writer A := fun buf => Some (a, buf).

Definition bind {A B : Type} (m : Writer A) (k : A -> Writer B) : Writer B :=
  fun buf =>
    match m buf with
    | Some (a, buf') => k a buf'
    | None => None
    end.

Notation "m ;; k" := (bind m (fun _ => k))
  (at level 61, right associativity).

(** [new Uint8Array(buffer).set(bytes, pos)], which is also what the
    [DataView] setters do with the bytes of their value. *)
Definition setBytes (pos : Z) (bytes : list byte) : Writer unit :=
  fun buf =>
    if (0 <=? pos) && (pos + len bytes <=? len buf) then
      Some (tt, firstn (Z.to_nat pos) buf ++ bytes
                ++ skipn (Z.to_nat (pos + len bytes)) buf)
    else None.

(** The [k] low bytes of [v], least significant first. *)
Fixpoint le_bytes (k : nat) (v : Z) : list byte :=
  match k with
  | O => []
  | Datatypes.S k' => v mod 256 :: le_bytes k' (v / 256)
  end.

Definition setUint8 (pos v : Z) : Writer unit := setBytes pos (le_bytes 1 v).

(* view.setUint16(pos, v, true) *)
Definition setUint16 (pos v : Z) : Writer unit := setBytes pos (le_bytes 2 v).

(* view.setUint32(pos, v, true) *)
Definition setUint32 (pos v : Z) : Writer unit := setBytes pos (le_bytes 4 v).

Definition charCode (c : ascii) : Z := Z.of_N (N_of_ascii c).

Fixpoint writeString (offset : Z) (string : string) : Writer unit :=
  match string with
  | EmptyString => ret tt
  | String c rest => setUint8 offset (charCode c) ;; writeString (offset + 1) rest
  end.

(** The bytes of an [Int16Array], as [new Uint8Array(data.buffer)] shows
    them on a little-endian host. *)
Definition int16Bytes (data : list Z) : list byte :=
  flat_map (le_bytes 2) data.

(** The value an [Int16Array] keeps when [z] is stored in it. *)
Definition wrapInt16 (z : Z) : Z :=
  let m := z mod 65536 in
  if m >=? 32768 then m - 65536 else m.

Section Writer.

Context {N : Type} `{JsNumber N}.

(** Lines 21-24: clamp and scale to 16-bit, then the conversion of the
    store into the [Int16Array]. *)
Definition pcm16 (sample : N) : Z :=
  let s := Math_max (num (-1)) (Math_min (num 1) sample) in
  wrapInt16 (ToInteger (if (s <? num 0)%js then (s * num 0x8000)%js
                        else (s * num 0x7FFF)%js)).

(** Lines 17-26: the interleaved samples. *)
Definition interleave (buffer : AudioBuffer N) : list Z :=
  let numChannels := numberOfChannels buffer in
  let data := repeat 0 (Z.to_nat (frameCount buffer * numChannels)) in
  for_loop 0 (frameCount buffer) 1
    (fun i data =>
       for_loop 0 numChannels 1
         (fun channel data =>
            let sample := (getChannelData buffer channel).[i] in
            store data (i * numChannels + channel) (pcm16 sample))
         data)
    data.

(** Lines 69-90.  [1000000000 / sampleRate] is truncated by the
    conversion to an unsigned 32-bit integer. *)
Definition writeSmpl (pos smplChunkSize sampleRate : Z)
    (loopPoint : LoopPoint) : Writer unit :=
  writeString pos "smpl" ;; let pos := pos + 4 in
  setUint32 pos smplChunkSize ;; let pos := pos + 4 in

  setUint32 pos 0 ;; let pos := pos + 4 in (* Manufacturer *)
  setUint32 pos 0 ;; let pos := pos + 4 in (* Product *)
  setUint32 pos (Z.quot 1000000000 sampleRate) ;; let pos := pos + 4 in
  setUint32 pos 60 ;; let pos := pos + 4 in (* MIDI Unity Note (C5) *)
  setUint32 pos 0 ;; let pos := pos + 4 in (* MIDI Pitch Fraction *)
  setUint32 pos 0 ;; let pos := pos + 4 in (* SMPTE Format *)
  setUint32 pos 0 ;; let pos := pos + 4 in (* SMPTE Offset *)
  setUint32 pos 1 ;; let pos := pos + 4 in (* Num Sample Loops *)
  setUint32 pos 0 ;; let pos := pos + 4 in (* Sampler Data *)

  (* Loop 1 *)
  setUint32 pos 0 ;; let pos := pos + 4 in (* Cue Point ID *)
  setUint32 pos 0 ;; let pos := pos + 4 in (* Type (0=Forward) *)
  setUint32 pos (start loopPoint) ;; let pos := pos + 4 in (* Start *)
  setUint32 pos (end_ loopPoint) ;; let pos := pos + 4 in (* End *)
  setUint32 pos 0 ;; let pos := pos + 4 in (* Fraction *)
  setUint32 pos 0 (* Play Count (0 = infinite) *).

(** The result is the content of the [Blob]; [None] is a [RangeError]
    thrown by one of the writes. *)
Definition exportWavWithSmpl (buffer : AudioBuffer N)
    (loopPoint : option LoopPoint) : option (list byte) :=
  let numChannels := numberOfChannels buffer in
  let sampleRate := sampleRate buffer in
  let format := 1 in (* PCM *)
  let bitDepth := 16 in

  (* Interleave data *)
  let length := frameCount buffer * numChannels * 2 in
  let data := interleave buffer in

  (* Calculate chunks sizes *)
  let dataChunkSize := length in
  let fmtChunkSize := 16 in
  let smplChunkSize :=
    match loopPoint with Some _ => 36 + 24 | None => 0 end in
  let fileSize := 4 + (8 + fmtChunkSize) + (8 + dataChunkSize)
                  + match loopPoint with Some _ => 8 + smplChunkSize | None => 0 end in

  let arrayBuffer := repeat 0 (Z.to_nat (fileSize + 8)) in
  let pos := 0 in
  let writes : Writer unit :=
    (* RIFF header *)
    writeString pos "RIFF" ;; let pos := pos + 4 in
    setUint32 pos fileSize ;; let pos := pos + 4 in
    writeString pos "WAVE" ;; let pos := pos + 4 in

    (* fmt chunk *)
    writeString pos "fmt " ;; let pos := pos + 4 in
    setUint32 pos fmtChunkSize ;; let pos := pos + 4 in
    setUint16 pos format ;; let pos := pos + 2 in
    setUint16 pos numChannels ;; let pos := pos + 2 in
    setUint32 pos sampleRate ;; let pos := pos + 4 in
    setUint32 pos (sampleRate * numChannels * 2) ;; let pos := pos + 4 in
    setUint16 pos (numChannels * 2) ;; let pos := pos + 2 in
    setUint16 pos bitDepth ;; let pos := pos + 2 in

    (* data chunk *)
    writeString pos "data" ;; let pos := pos + 4 in
    setUint32 pos dataChunkSize ;; let pos := pos + 4 in

    (* Write PCM data *)
    setBytes pos (int16Bytes data) ;; let pos := pos + dataChunkSize in

    (* smpl chunk *)
    match loopPoint with
    | Some loopPoint => writeSmpl pos smplChunkSize sampleRate loopPoint
    | None => ret tt
    end in
  match writes arrayBuffer with
  | Some (_, bytes) => Some bytes
  | None => None
  end.

End Writer.

(* ================================================================== *)
(** ** Reading a container back *)

(** The repository only writes containers.  To state what a written file
    holds, the bytes are read back field by field, at the offsets of the
    layout of the writer: little-endian unsigned integers, four-character
    tags, and 16-bit signed samples. *)

Fixpoint le_value (bytes : list byte) : Z :=
  match bytes with
  | [] => 0
  | b :: rest => b + 256 * le_value rest
  end.

Definition slice (bytes : list byte) (pos : Z) (n : nat) : list byte :=
  firstn n (skipn (Z.to_nat pos) bytes).

Definition getUint16 (bytes : list byte) (pos : Z) : Z :=
  le_value (slice bytes pos 2).

Definition getUint32 (bytes : list byte) (pos : Z) : Z :=
  le_value (slice bytes pos 4).

Definition tagBytes (tag : string) : list byte :=
  map charCode (list_ascii_of_string tag).

Fixpoint eqBytes (a b : list byte) : bool :=
  match a, b with
  | [], [] => true
  | x :: a', y :: b' => (x =? y) && eqBytes a' b'
  | _, _ => false
  end.

Definition hasTag (bytes : list byte) (pos : Z) (tag : string) : bool :=
  eqBytes (slice bytes pos 4) (tagBytes tag).

Fixpoint decodeInt16 (bytes : list byte) : list Z :=
  match bytes with
  | lo :: hi :: rest => wrapInt16 (lo + 256 * hi) :: decodeInt16 rest
  | _ => []
  end.

Record Parsed : Type := {
  parsedChannels : Z;
  parsedSampleRate : Z;
  parsedSamples : list Z       (* interleaved 16-bit codes *)
}.

(** Header, fmt block and data block: outer magic and format tag, a
    16-byte PCM fmt block with 16 bits per sample, then the data block. *)
Definition parseContainer (bytes : list byte) : option Parsed :=
  if hasTag bytes 0 "RIFF" && hasTag bytes 8 "WAVE"
     && hasTag bytes 12 "fmt " && (getUint32 bytes 16 =? 16)
     && (getUint16 bytes 20 =? 1) && (getUint16 bytes 34 =? 16)
     && hasTag bytes 36 "data"
  then
    let dataSize := getUint32 bytes 40 in
    if 44 + dataSize <=? len bytes then
      Some {| parsedChannels := getUint16 bytes 22;
              parsedSampleRate := getUint32 bytes 24;
              parsedSamples :=
                decodeInt16 (slice bytes 44 (Z.to_nat dataSize)) |}
    else None
  else None.

(** Where the loop-metadata block of a file written for [buffer] starts,
    and the two fields of its loop record. *)
Definition smplOffset {N : Type} `{JsNumber N} (buffer : AudioBuffer N) : Z :=
  44 + frameCount buffer * numberOfChannels buffer * 2.

Definition smplLoopStart {N : Type} `{JsNumber N}
    (buffer : AudioBuffer N) (bytes : list byte) : Z :=
  getUint32 bytes (smplOffset buffer + 8 + 36 + 8).

Definition smplLoopEnd {N : Type} `{JsNumber N}
    (buffer : AudioBuffer N) (bytes : list byte) : Z :=
  getUint32 bytes (smplOffset buffer + 8 + 36 + 12).

(** The declared outer size of section 4.2 of the specification. *)
Definition outerSize {N : Type} `{JsNumber N}
    (buffer : AudioBuffer N) (loop : bool) : Z :=
  4 + (8 + 16) + (8 + frameCount buffer * numberOfChannels buffer * 2)
  + (if loop then 8 + 60 else 0).

(* ================================================================== *)
(** ** Buffers used in the scenarios *)

(** [n] samples that are all 0. *)
Definition zeros {N : Type} `{JsNumber N} (n : Z) : TypedArray N :=
  repeat (num 0) (Z.to_nat n).

Arguments zeros : simpl never.

(** A mono buffer of [n] frames at 44100 Hz whose samples are all 0. *)
Definition silence {N : Type} `{JsNumber N} (n : Z) : AudioBuffer N :=
  {| sampleRate := 44100; firstChannel := zeros n; otherChannels := [] |}.

(** The two candidates that the detector returns for two seconds of
    silence (88200 frames). *)
Definition silenceLoop75 : LoopPoint :=
  {| id := 1; start := 0; end_ := 66150; score := 100; name := "Auto Loop 2" |}.

Definition silenceLoop50 : LoopPoint :=
  {| id := 2; start := 0; end_ := 44100; score := 100; name := "Auto Loop 3" |}.

(** A loop that lies outside every one-frame buffer. *)
Definition strayLoop : LoopPoint :=
  {| id := 1; start := 5; end_ := 10; score := 100; name := "Auto Loop 2" |}.

(** A loop inside a one-frame buffer. *)
Definition unitLoop : LoopPoint :=
  {| id := 1; start := 0; end_ := 0; score := 100; name := "Short Loop" |}.

(** One frame, one channel. *)
Definition oneSample {N : Type} (x : N) : AudioBuffer N :=
  {| sampleRate := 44100; firstChannel := [x]; otherChannels := [] |}.

(* ================================================================== *)
(** ** Facts about the arithmetic *)

(** Two closed comparisons that the acceptance test [bestScore > 60] relies
    on: neither the initial [bestScore = -1] nor the score [0] of a window
    that leaves the buffer passes it. *)
Class ScoreOrder (N : Type) `{JsNumber N} : Prop := {
  initial_not_accepted : (num (-1) >? num 60)%js = false;
  zero_not_accepted : (num 0 >? num 60)%js = false
}.

(** The score of two windows that are equal sample by sample, as
    [calculateCorrelation] computes it from a sum that stayed 0. *)
Definition flatScore {N : Type} `{JsNumber N} : N :=
  Math_max (num 0) (num 100 - (num 0 / num 500) * num 200)%js.

(** The score that every start probe of [n] samples of silence gets
    against the end [validEnd]. *)
Definition silenceScore {N : Type} `{JsNumber N} (n validEnd : Z) : N :=
  if validEnd + 500 <? n then flatScore else num 0.

(** The closed computations on the sample value 0 that decide what the
    detector does on silence. *)
Class SilenceFacts (N : Type) `{JsNumber N} : Prop := {
  zero_lt_zero : (num 0 <? num 0)%js = false;
  zero_lt_nan : (num 0 <? NaN)%js = false;
  nan_lt_zero : (NaN <? num 0)%js = false;
  sum_stays_zero : (num 0 + Math_abs (num 0 - num 0))%js = num 0;
  flat_beats_initial : (flatScore >? num (-1))%js = true;
  flat_not_above_flat : (flatScore >? flatScore)%js = false;
  flat_accepted : (flatScore >? num 60)%js = true;
  flat_rounds_to_100 : Math_round flatScore = 100;
  zero_beats_initial : (num 0 >? num (-1))%js = true
}.

(** [a] before [b] in a result means [score a >= score b]. *)
Definition byDescendingScore (a b : LoopPoint) : Prop := score b <= score a.


(** ** Vocabulary of the statements *)

(** [0; 1; ...; n - 1], the indices of a counting loop. *)
Definition zrange (n : Z) : list Z := map Z.of_nat (seq 0 (Z.to_nat n)).

(** The 16-bit codes of a buffer in file order: frame by frame, and
    within a frame channel by channel. *)
Definition pcmSamples {N : Type} `{JsNumber N} (buffer : AudioBuffer N)
    : list Z :=
  flat_map
    (fun i =>
       flat_map (fun channel => [pcm16 (getChannelData buffer channel).[i]])
         (zrange (numberOfChannels buffer)))
    (zrange (frameCount buffer)).

(** The samples of a buffer in the same order. *)
Definition originalSamples {N : Type} `{JsNumber N} (buffer : AudioBuffer N)
    : list N :=
  flat_map
    (fun i =>
       flat_map (fun channel => [(getChannelData buffer channel).[i]])
         (zrange (numberOfChannels buffer)))
    (zrange (frameCount buffer)).

(** The factor by which the writer scales a sample: negative values by
    32768, the others by 32767. *)
Definition pcmScale (q : Q) : Q := if Qle_bool 0 q then 32767 else 32768.

(** A 16-bit code that is less than one quantisation step away from the
    scaled sample. *)
Definition withinQuantisation (x : Ex.t) (code : Z) : Prop :=
  match x with
  | Some q => (Qabs (inject_Z code - q * pcmScale q) < 1)%Q
  | None => False
  end.

(** A sample of a waveform buffer: a number in [-1, 1]. *)
Definition validSample (x : Ex.t) : Prop :=
  exists q, x = Some q /\ (-1 <= q <= 1)%Q.

(** The exact value of a binary64 number; the infinities have none. *)
Definition exactValue (x : float) : Ex.t :=
  match Prim2SF x with
  | S754_zero _ => Some 0%Q
  | S754_finite s m e => Some (inject_Z (F64.signed s m) * 2 ^ e)%Q
  | _ => None
  end.

(** What an element of a [Float32Array] can be, as a binary64 number: zero,
    or a number that is normal in binary64 and whose mantissa has its 29 low
    bits clear. *)
Definition fitsBinary32 (x : float) : Prop :=
  match Prim2SF x with
  | S754_zero _ => True
  | S754_finite _ m e => (2 ^ 29 | Zpos m) /\ -1074 < e
  | _ => False
  end.

(** A sample of a waveform buffer in binary64: an element of a
    [Float32Array] in [-1, 1]. *)
Definition validSample64 (x : float) : Prop :=
  PrimFloat.leb (-1) x = true /\ PrimFloat.leb x 1 = true /\ fitsBinary32 x.

(** A waveform buffer whose description fits the fields of the container:
    channel count in 16 bits, sample rate and data size in 32 bits; all
    channels have the frame count of the buffer, all samples are [valid]. *)
Definition validWaveform {N : Type} `{JsNumber N} (valid : N -> Prop)
    (buffer : AudioBuffer N) : Prop :=
  numberOfChannels buffer < 2 ^ 16
  /\ 0 <= sampleRate buffer < 2 ^ 32
  /\ frameCount buffer * numberOfChannels buffer * 2 < 2 ^ 32
  /\ Forall (fun channel => len channel = frameCount buffer
                            /\ Forall valid channel)
       (channelList buffer).

(** Two channels of three frames. *)
Definition stereoThree : AudioBuffer float :=
  {| sampleRate := 48000;
     firstChannel := [0.5; -1; 1]%float;
     otherChannels := [[-0.5; 0x1.333334p-2; 0]%float] |}.

(** The loop-metadata block, 8 + 60 bytes: tag, size and the nine fixed
    fields, then the one loop record. *)
Definition smplHeader (sampleRate : Z) : list byte :=
  tagBytes "smpl" ++ le_bytes 4 60
  ++ le_bytes 4 0 ++ le_bytes 4 0
  ++ le_bytes 4 (Z.quot 1000000000 sampleRate)
  ++ le_bytes 4 60 ++ le_bytes 4 0 ++ le_bytes 4 0 ++ le_bytes 4 0
  ++ le_bytes 4 1 ++ le_bytes 4 0.

Definition smplLoop (loopPoint : LoopPoint) : list byte :=
  le_bytes 4 0 ++ le_bytes 4 0
  ++ le_bytes 4 (start loopPoint) ++ le_bytes 4 (end_ loopPoint)
  ++ le_bytes 4 0 ++ le_bytes 4 0.

Definition smplBytes (sampleRate : Z) (loopPoint : LoopPoint) : list byte :=
  smplHeader sampleRate ++ smplLoop loopPoint.

(** The 44 bytes before the samples. *)
Definition headerBytes (fileSize numChannels sampleRate dataChunkSize : Z)
    : list byte :=
  tagBytes "RIFF" ++ le_bytes 4 fileSize ++ tagBytes "WAVE"
  ++ tagBytes "fmt " ++ le_bytes 4 16 ++ le_bytes 2 1
  ++ le_bytes 2 numChannels ++ le_bytes 4 sampleRate
  ++ le_bytes 4 (sampleRate * numChannels * 2)
  ++ le_bytes 2 (numChannels * 2) ++ le_bytes 2 16
  ++ tagBytes "data" ++ le_bytes 4 dataChunkSize.

(** The whole file, block after block. *)
Definition fileBytes {N : Type} `{JsNumber N} (buffer : AudioBuffer N)
    (loopPoint : option LoopPoint) : list byte :=
  headerBytes
    (outerSize buffer match loopPoint with Some _ => true | None => false end)
    (numberOfChannels buffer) (sampleRate buffer)
    (frameCount buffer * numberOfChannels buffer * 2)
  ++ int16Bytes (pcmSamples buffer)
  ++ match loopPoint with
     | Some loopPoint => smplBytes (sampleRate buffer) loopPoint
     | None => []
     end.

(** A writer that puts [bytes] at [pos] and leaves the rest of the buffer
    as it is. *)
Definition emits (w : Writer unit) (pos : Z) (bytes : list byte) : Prop :=
  forall pre old post,
    len pre = pos -> len old = len bytes ->
    w (pre ++ old ++ post) = Some (tt, pre ++ bytes ++ post).

(** The window that [findZeroCrossing] searches around [target]: the
    indices [i] of its loop. *)
Definition inSearchWindow {A : Type} (data : list A)
    (target windowSize i : Z) : Prop :=
  Z.max 0 (target - windowSize) <= i
  < Z.min (len data - 1) (target + windowSize).

(** What [findZeroCrossing] can answer for [target]: a crossing of the
    search window, or the target itself when no crossing of the window has
    a magnitude below 1. *)
Definition snapOf {N : Type} `{JsNumber N} (data : TypedArray N)
    (target windowSize r : Z) : Prop :=
  (inSearchWindow data target windowSize r /\ crossing data r = true)
  \/ (r = target
      /\ forall j, inSearchWindow data target windowSize j ->
                   crossing data j = true ->
                   (Math_abs data.[j] <? num 1)%js = false).

(** In exact arithmetic: NaN, or a rational in the given range. *)
Definition nanOrWithin (lo hi : Q) (a : Ex.t) : Prop :=
  match a with
  | Some q => (lo <= q <= hi)%Q
  | None => True
  end.

(** Binary64 values, as the specification of the primitive floats
    decomposes them. *)

(** The integer [100 * 2 ^ (- e)]: the mantissa of 100 at the exponent
    [e <= 0]. *)
Definition hundredAt (e : Z) : Z := 100 * 2 ^ (- e).

(** Zero, NaN, or a value with sign bit clear. *)
Definition sfNonneg (x : spec_float) : Prop :=
  match x with
  | S754_zero _ => True
  | S754_infinity s => s = false
  | S754_nan => True
  | S754_finite s _ _ => s = false
  end.

(** Zero, NaN, or a value with the sign [sx]. *)
Definition sfSigned (sx : bool) (x : spec_float) : Prop :=
  match x with
  | S754_zero _ => True
  | S754_infinity s => s = sx
  | S754_nan => True
  | S754_finite s _ _ => s = sx
  end.

(** What [visitRegion] records for an end region that it accepts. *)
Definition accepted {N : Type} `{JsNumber N}
    (data : TypedArray N) (p : LoopPoint) : Prop :=
  exists regionEndTarget,
    In regionEndTarget (candidateEndRegions (len data))
    /\ end_ p = findZeroCrossing data regionEndTarget 2000
    /\ 44100 / 2 <= end_ p
    /\ start p = fst (scanStartPoints data (end_ p))
    /\ (snd (scanStartPoints data (end_ p)) >? num 60)%js = true
    /\ score p = Math_round (snd (scanStartPoints data (end_ p))).

(* ================================================================== *)
(** ** The host: App.tsx and components/WaveformEditor.tsx *)

(** Of the host, the pure steps that produce, select and change loop
    points are embedded; the React state, the canvas and the audio
    playback around them are not. *)

(** [loopPoints.find(lp => lp.id === loopId)] (App.tsx, the derived
    [activeLoop]). *)
Definition findLoop (loopId : Z) (loopPoints : list LoopPoint)
    : option LoopPoint :=
  find (fun lp => id lp =? loopId) loopPoints.

(** [buffer.duration]: the number of frames divided by the sample rate. *)
Definition duration {N : Type} `{JsNumber N} (buffer : AudioBuffer N) : N :=
  (num (frameCount buffer) / num (sampleRate buffer))%js.

(** The loop points that loading a file records for it
    ([loadItemForEditing]): the detected ones when the buffer lasts more
    than half a second, and otherwise one loop over the whole buffer. *)
Definition initialLoopPoints {N : Type} `{JsNumber N}
    (buffer : AudioBuffer N) : list LoopPoint :=
  if (duration buffer >? num 1 / num 2)%js then detectLoopPoints buffer
  else [ {| id := 1; start := 0; end_ := frameCount buffer - 1;
            score := 100; name := "Short Loop" |} ].

(** [item.loopPoints.map(lp => lp.id === newLoop.id ? newLoop : lp)]
    ([updateActiveLoop]). *)
Definition updateLoop (newLoop : LoopPoint) (loopPoints : list LoopPoint)
    : list LoopPoint :=
  map (fun lp => if id lp =? id newLoop then newLoop else lp) loopPoints.

(** The handle that is being dragged. *)
Inductive Handle : Type := StartHandle | EndHandle.

(** The loop that [handleMouseMove] passes on while a handle is dragged
    to the sample offset [sample] (the integer that line 138 computes from
    the mouse position). *)
Definition dragLoop (isDragging : Handle) (sample : Z)
    (loopPoint : LoopPoint) : LoopPoint :=
  match isDragging with
  | StartHandle =>
      {| id := id loopPoint;
         start := Z.min sample (end_ loopPoint - 100);
         end_ := end_ loopPoint;
         score := score loopPoint;
         name := name loopPoint |}
  | EndHandle =>
      {| id := id loopPoint;
         start := start loopPoint;
         end_ := Z.max sample (start loopPoint + 100);
         score := score loopPoint;
         name := name loopPoint |}
  end.

(* ================================================================== *)
(** ** Vocabulary of the further properties *)

(* view.getInt16(pos, true) *)
Definition getInt16 (bytes : list byte) (pos : Z) : Z :=
  wrapInt16 (getUint16 bytes pos).

(** Candidates in the order of their identifiers. *)
Definition byAscendingId (a b : LoopPoint) : Prop := id a < id b.

(** The order of a result: by descending score, and by ascending
    identifier among equal scores. *)
Definition byScoreThenId (a b : LoopPoint) : Prop :=
  score b < score a \/ (score b = score a /\ id a < id b).

(** The state of [candidateEndRegions.forEach] after some regions: the
    counter is one more than the number of candidates, which carry the
    identifiers 1, 2, ... in this order and the names of the next
    counter value. *)
Definition numbered (st : list LoopPoint * Z) : Prop :=
  snd st = 1 + len (fst st)
  /\ (forall p, In p (fst st) ->
        1 <= id p < snd st /\ name p = autoLoopName (id p + 1))
  /\ StronglySorted byAscendingId (fst st).

(** What a region that passes both tests adds. *)
Definition recordOf {N : Type} `{JsNumber N} (data : TypedArray N)
    (regionEndTarget : Z) (p : LoopPoint) : Prop :=
  let validEnd := findZeroCrossing data regionEndTarget 2000 in
  end_ p = validEnd
  /\ start p = fst (scanStartPoints data validEnd)
  /\ score p = Math_round (snd (scanStartPoints data validEnd)).

(** A start probe of the scan for [validEnd] that is not skipped: a
    multiple of the step whose snapped position leaves room for 1000
    samples. *)
Definition scannedProbe {N : Type} `{JsNumber N} (data : TypedArray N)
    (validEnd i : Z) : Prop :=
  0 <= i < validEnd - 1000
  /\ i mod Z.max 10 (validEnd / 100) = 0
  /\ findZeroCrossing data i 100 < validEnd - 1000.

(** The state of the search after the indices below [i]: nothing found
    yet, or the best crossing so far with its magnitude. *)
Definition searchState {N : Type} `{JsNumber N} (data : TypedArray N)
    (target windowSize : Z) (i : Z) (st : Z * N) : Prop :=
  let lo := Z.max 0 (target - windowSize) in
  let hi := Z.min (len data - 1) (target + windowSize) in
  (st = (target, num 1)
   \/ (inSearchWindow data target windowSize (fst st)
       /\ crossing data (fst st) = true
       /\ snd st = Math_abs data.[fst st]
       /\ (snd st <? num 1)%js = true))
  /\ forall j, lo <= j < hi -> j < i -> crossing data j = true ->
               (Math_abs data.[j] <? snd st)%js = false.

(** A sample that is a number: not NaN and not infinite. *)
Definition finiteSample (x : float) : Prop :=
  match Prim2SF x with
  | S754_zero _ | S754_finite _ _ _ => True
  | _ => False
  end.

(** [<] is a strict order: what the search for the smallest magnitude
    relies on. *)
Class LtOrder (N : Type) `{JsNumber N} : Prop := {
  lt_irrefl : forall a : N, (a <? a)%js = false;
  lt_trans : forall a b c : N,
    (a <? b)%js = true -> (b <? c)%js = true -> (a <? c)%js = true
}.

(** [|x - y|] does not depend on the order of [x] and [y]. *)
Class AbsDifference (N : Type) `{JsNumber N} : Prop := {
  abs_sub_swap : forall x y : N, Math_abs (x - y)%js = Math_abs (y - x)%js
}.

(** Five samples with three sign changes, of magnitudes 0.5, 0.25 and
    0.125. *)
Definition zigzag : TypedArray float := [-0.5; 0.25; -0.125; 0.5; 0.5]%float.


(* ================================================================== *)
(** * Properties *)

(** ** The two arithmetics satisfy the closed facts *)

#[export] Instance Float64_ScoreOrder : ScoreOrder float.
Proof. split; vm_compute; reflexivity. Qed.

#[export] Instance Exact_ScoreOrder : ScoreOrder Ex.t.
Proof. split; vm_compute; reflexivity. Qed.

#[export] Instance Float64_SilenceFacts : SilenceFacts float.
Proof. split; vm_compute; reflexivity. Qed.

#[export] Instance Exact_SilenceFacts : SilenceFacts Ex.t.
Proof. split; vm_compute; reflexivity. Qed.

(** ** The loop combinator is the loop of the source *)

Lemma trip_count_done (lo hi step : Z) :
  0 < step -> hi <= lo -> trip_count lo hi step = O.
Proof.
  intros Hs Hd. unfold trip_count.
  assert ((hi - lo + step - 1) / step <= 0).
  { assert ((hi - lo + step - 1) / step < 1); [| lia].
    apply Z.div_lt_upper_bound; lia. }
  lia.
Qed.

Lemma trip_count_step (lo hi step : Z) :
  0 < step -> lo < hi ->
  trip_count lo hi step = Datatypes.S (trip_count (lo + step) hi step).
Proof.
  intros Hs Hd. unfold trip_count.
  replace (hi - lo + step - 1) with ((hi - (lo + step) + step - 1) + 1 * step)
    by lia.
  rewrite Z.div_add by lia.
  rewrite <- Z2Nat.inj_succ.
  - f_equal; lia.
  - apply Z.div_pos; lia.
Qed.

(** One turn of [for (i = lo; i < hi; i += step)]: test, body, increment. *)
Lemma for_loop_unfold {S : Type} (lo hi step : Z) (body : Z -> S -> S) (s : S) :
  0 < step ->
  for_loop lo hi step body s =
    if lo <? hi then for_loop (lo + step) hi step body (body lo s) else s.
Proof.
  intros Hs. unfold for_loop.
  destruct (Z.ltb_spec lo hi).
  - rewrite trip_count_step by assumption. reflexivity.
  - rewrite trip_count_done by assumption. reflexivity.
Qed.

(** Loop invariants.  [Inv i s] is to hold whenever the test [i < hi] is
    about to be evaluated with state [s]; the indices visited are
    [lo, lo + step, ...] below [hi]. *)
Lemma for_loop_invariant {S : Type} (Inv : S -> Prop)
    (lo hi step : Z) (body : Z -> S -> S) :
  0 < step ->
  (forall i s, lo <= i < hi -> (i - lo) mod step = 0 ->
               Inv s -> Inv (body i s)) ->
  forall s, Inv s -> Inv (for_loop lo hi step body s).
Proof.
  intros Hs Hbody.
  assert (G : forall n i s, lo <= i -> (i - lo) mod step = 0 ->
                            n = trip_count i hi step ->
                            Inv s -> Inv (for_iter n i step body s)).
  { induction n as [| n IH]; intros i s Hi Hm Hn Hinv; simpl.
    - assumption.
    - destruct (Z.ltb_spec i hi) as [Hlt | Hge].
      + rewrite trip_count_step in Hn by assumption.
        apply IH.
        * lia.
        * replace (i + step - lo) with ((i - lo) + 1 * step) by lia.
          rewrite Z.mod_add by lia. assumption.
        * congruence.
        * apply Hbody; [lia | assumption | assumption].
      + rewrite trip_count_done in Hn by assumption. discriminate. }
  intros s Hinv. unfold for_loop.
  apply (G _ lo s); [lia | | reflexivity | assumption].
  rewrite Z.sub_diag. apply Z.mod_0_l. lia.
Qed.

(** The same with the index in the invariant: [Inv i s] holds when the
    test is evaluated at [i], and in the end at the index that failed it. *)
Lemma for_loop_invariant_at {S : Type} (Inv : Z -> S -> Prop)
    (lo hi step : Z) (body : Z -> S -> S) :
  0 < step ->
  (forall i s, lo <= i < hi -> Inv i s -> Inv (i + step) (body i s)) ->
  forall s, Inv lo s ->
  exists i, lo <= i /\ hi <= i /\ Inv i (for_loop lo hi step body s).
Proof.
  intros Hs Hbody.
  assert (G : forall n i s, lo <= i -> n = trip_count i hi step -> Inv i s ->
                exists j, lo <= j /\ hi <= j
                          /\ Inv j (for_iter n i step body s)).
  { induction n as [| n IH]; intros i s Hi Hn Hinv; simpl.
    - destruct (Z.ltb_spec i hi) as [Hlt | Hge].
      + rewrite trip_count_step in Hn by assumption. discriminate.
      + exists i. auto.
    - destruct (Z.ltb_spec i hi) as [Hlt | Hge].
      + rewrite trip_count_step in Hn by assumption.
        apply IH; [lia | congruence | apply Hbody; [lia | assumption]].
      + rewrite trip_count_done in Hn by assumption. discriminate. }
  intros s Hinv. unfold for_loop. apply (G _ lo s); [lia | reflexivity | assumption].
Qed.

(** A loop whose body never changes the state returns it. *)
Lemma for_loop_skip {S : Type} (lo hi step : Z) (body : Z -> S -> S) (s : S) :
  0 < step ->
  (forall i, lo <= i < hi -> body i s = s) ->
  for_loop lo hi step body s = s.
Proof.
  intros Hs Hb.
  apply (for_loop_invariant (fun s' => s' = s)); [assumption | | reflexivity].
  intros i s' Hi _ ->. apply Hb. assumption.
Qed.

(** ** The detector *)

Section Detector.

Context {N : Type} `{JsNumber N}.

Lemma getChannelData_0 (buffer : AudioBuffer N) :
  getChannelData buffer 0 = firstChannel buffer.
Proof. reflexivity. Qed.

(** [findZeroCrossing] answers the target itself or an index of its
    search window at which the crossing test succeeds. *)
Lemma findZeroCrossing_spec (data : TypedArray N) (target windowSize : Z) :
  let r := findZeroCrossing data target windowSize in
  r = target
  \/ (inSearchWindow data target windowSize r /\ crossing data r = true).
Proof.
  unfold findZeroCrossing.
  apply (for_loop_invariant
           (fun st : Z * N =>
              fst st = target
              \/ (inSearchWindow data target windowSize (fst st)
                  /\ crossing data (fst st) = true))).
  - lia.
  - intros i [bestIndex minVal] Hi _ Hinv. simpl in *.
    destruct (crossing data i) eqn:Hc; [| exact Hinv].
    destruct (Math_abs data.[i] <? minVal)%js; [| exact Hinv].
    simpl. right. split; [exact Hi | exact Hc].
  - left. reflexivity.
Qed.

(** More precisely: it answers the target only if the target is the
    best crossing itself or no crossing of the window has a magnitude
    below the initial [minVal = 1.0]. *)
Lemma findZeroCrossing_fallback (data : TypedArray N) (target windowSize : Z) :
  let r := findZeroCrossing data target windowSize in
  (inSearchWindow data target windowSize r /\ crossing data r = true)
  \/ (r = target
      /\ forall j, inSearchWindow data target windowSize j ->
                   crossing data j = true ->
                   (Math_abs data.[j] <? num 1)%js = false).
Proof.
  unfold findZeroCrossing.
  set (lo := Z.max 0 (target - windowSize)).
  set (hi := Z.min (len data - 1) (target + windowSize)).
  match goal with
  | |- context [for_loop lo hi 1 ?b ?s0] =>
      destruct (for_loop_invariant_at
        (fun i (st : Z * N) =>
           (inSearchWindow data target windowSize (fst st)
            /\ crossing data (fst st) = true)
           \/ (st = (target, num 1)
               /\ forall j, lo <= j < hi -> j < i ->
                            crossing data j = true ->
                            (Math_abs data.[j] <? num 1)%js = false))
        lo hi 1 b) with (s := s0) as (k & Hlo & Hhi & Hinv)
  end.
  - lia.
  - intros i [bestIndex minVal] Hi Hinv. simpl in *.
    destruct (crossing data i) eqn:Hc.
    + destruct (Math_abs data.[i] <? minVal)%js eqn:Hd.
      * left. simpl. split; [exact Hi | exact Hc].
      * destruct Hinv as [Hinv | [Hst Hall]]; [left; exact Hinv |].
        right. split; [exact Hst |].
        intros j Hj Hji Hcj. destruct (Z.eq_dec j i) as [-> | Hne].
        -- injection Hst as _ ->. exact Hd.
        -- apply Hall; [exact Hj | lia | exact Hcj].
    + destruct Hinv as [Hinv | [Hst Hall]]; [left; exact Hinv |].
      right. split; [exact Hst |].
      intros j Hj Hji Hcj. destruct (Z.eq_dec j i) as [-> | Hne].
      -- congruence.
      -- apply Hall; [exact Hj | lia | exact Hcj].
  - right. split; [reflexivity |]. intros j Hj Hji. lia.
  - destruct Hinv as [Hinv | [Hst Hall]]; [left; exact Hinv |].
    right. rewrite Hst. split; [reflexivity |].
    intros j Hj Hcj. apply Hall; [exact Hj | | exact Hcj].
    unfold inSearchWindow in Hj. fold lo hi in Hj. lia.
Qed.

Lemma findZeroCrossing_nonneg (data : TypedArray N) (target windowSize : Z) :
  0 <= target -> 0 <= findZeroCrossing data target windowSize.
Proof.
  intros Ht.
  destruct (findZeroCrossing_spec data target windowSize) as [-> | [Hw _]].
  - exact Ht.
  - unfold inSearchWindow in Hw. lia.
Qed.

Lemma findZeroCrossing_upper (data : TypedArray N) (target windowSize : Z) :
  findZeroCrossing data target windowSize <= Z.max target (len data - 2).
Proof.
  destruct (findZeroCrossing_spec data target windowSize) as [-> | [Hw _]].
  - lia.
  - unfold inSearchWindow in Hw. lia.
Qed.

(** A window that would leave the buffer scores the literal 0. *)
Lemma calculateCorrelation_outside (data : TypedArray N) (idxA idxB window : Z) :
  idxA < 0 \/ idxB < 0
  \/ len data <= idxA + window \/ len data <= idxB + window ->
  calculateCorrelation data idxA idxB window = num 0.
Proof.
  intros Hout. unfold calculateCorrelation.
  destruct ((idxA <? 0) || (idxB <? 0)
            || (idxA + window >=? len data)
            || (idxB + window >=? len data)) eqn:Hg; [reflexivity |].
  repeat (apply orb_false_iff in Hg; destruct Hg as [Hg ?]).
  lia.
Qed.

(** Hence a score above 60 was computed from two windows inside the
    buffer. *)
Lemma calculateCorrelation_accepted `{!ScoreOrder N}
    (data : TypedArray N) (idxA idxB window : Z) :
  (calculateCorrelation data idxA idxB window >? num 60)%js = true ->
  0 <= idxA /\ 0 <= idxB
  /\ idxA + window < len data /\ idxB + window < len data.
Proof.
  intros Hacc.
  destruct (Z.ltb_spec idxA 0); [| destruct (Z.ltb_spec idxB 0);
    [| destruct (Z.leb_spec (len data) (idxA + window));
       [| destruct (Z.leb_spec (len data) (idxB + window)); [| lia]]]];
    rewrite calculateCorrelation_outside in Hacc by lia;
    rewrite zero_not_accepted in Hacc; discriminate.
Qed.

(** The state of the scan of start points is the initial one, or was
    set at a probe [i] to the snapped start and its score. *)
Lemma scanStartPoints_spec (data : TypedArray N) (validEnd : Z) :
  let r := scanStartPoints data validEnd in
  r = (0, num (-1))
  \/ exists i,
       0 <= i < validEnd - 1000
       /\ i mod Z.max 10 (validEnd / 100) = 0
       /\ fst r = findZeroCrossing data i 100
       /\ fst r < validEnd - 1000
       /\ snd r = calculateCorrelation data (fst r) validEnd 500.
Proof.
  unfold scanStartPoints.
  apply (for_loop_invariant
           (fun r : Z * N =>
              r = (0, num (-1))
              \/ exists i,
                   0 <= i < validEnd - 1000
                   /\ i mod Z.max 10 (validEnd / 100) = 0
                   /\ fst r = findZeroCrossing data i 100
                   /\ fst r < validEnd - 1000
                   /\ snd r = calculateCorrelation data (fst r) validEnd 500)).
  - lia.
  - intros i [bestStart bestScore] Hi Hm Hinv.
    destruct (Z.geb_spec (findZeroCrossing data i 100) (validEnd - 1000))
      as [Hge | Hlt]; [exact Hinv |].
    destruct (calculateCorrelation data (findZeroCrossing data i 100)
                validEnd 500 >? bestScore)%js; [| exact Hinv].
    right. exists i. simpl. rewrite Z.sub_0_r in Hm.
    repeat split; try lia; assumption.
  - left. reflexivity.
Qed.

End Detector.

(** ** Sorting and truncating the result *)

Lemma insertByScore_In (a p : LoopPoint) (l : list LoopPoint) :
  In p (insertByScore a l) <-> p = a \/ In p l.
Proof.
  induction l as [| b l IH]; simpl.
  - intuition congruence.
  - destruct (score b - score a >? 0); simpl.
    + rewrite IH. intuition congruence.
    + intuition congruence.
Qed.

Lemma sortByScore_In (p : LoopPoint) (l : list LoopPoint) :
  In p (sortByScore l) <-> In p l.
Proof.
  induction l as [| a l IH]; simpl.
  - reflexivity.
  - rewrite insertByScore_In, IH. intuition congruence.
Qed.

Lemma insertByScore_sorted (a : LoopPoint) (l : list LoopPoint) :
  StronglySorted byDescendingScore l ->
  StronglySorted byDescendingScore (insertByScore a l).
Proof.
  induction 1 as [| b l Hs IH Hb]; simpl.
  - constructor; constructor.
  - destruct (Z.gtb_spec (score b - score a) 0) as [Hgt | Hle].
    + constructor; [exact IH |].
      apply Forall_forall. intros p Hp.
      apply insertByScore_In in Hp. destruct Hp as [-> | Hp].
      * unfold byDescendingScore. lia.
      * rewrite Forall_forall in Hb. apply Hb. exact Hp.
    + constructor; [constructor; assumption |].
      constructor.
      * unfold byDescendingScore. lia.
      * eapply Forall_impl; [| exact Hb].
        unfold byDescendingScore. intros; lia.
Qed.

Lemma sortByScore_sorted (l : list LoopPoint) :
  StronglySorted byDescendingScore (sortByScore l).
Proof.
  induction l as [| a l IH]; simpl.
  - constructor.
  - apply insertByScore_sorted. exact IH.
Qed.

Lemma firstn_incl {A : Type} (n : nat) (l : list A) (x : A) :
  In x (firstn n l) -> In x l.
Proof.
  revert l. induction n as [| n IH]; intros [| y l]; simpl; try tauto.
  intros [-> | Hx]; [left; reflexivity | right; apply IH; exact Hx].
Qed.

Lemma firstn_sorted {A : Type} (R : A -> A -> Prop) (n : nat) (l : list A) :
  StronglySorted R l -> StronglySorted R (firstn n l).
Proof.
  intros Hs. revert n.
  induction Hs as [| a l Hs IH Ha]; intros [| n]; simpl; try constructor.
  - apply IH.
  - apply Forall_forall. intros x Hx.
    rewrite Forall_forall in Ha. apply Ha. eapply firstn_incl. exact Hx.
Qed.

(** ** What the detector returns *)

Section Detection.

Context {N : Type} `{JsNumber N}.

Lemma visitRegion_accepted (data : TypedArray N)
    (st : list LoopPoint * Z) (regionEndTarget : Z) :
  In regionEndTarget (candidateEndRegions (len data)) ->
  (forall p, In p (fst st) -> accepted data p) ->
  forall p, In p (fst (visitRegion data st regionEndTarget)) ->
            accepted data p.
Proof.
  intros Hin Hst p. destruct st as [points idCounter].
  unfold visitRegion.
  destruct (Z.ltb_spec (findZeroCrossing data regionEndTarget 2000)
              (44100 / 2)) as [Hshort | Hlong]; [apply Hst |].
  destruct (scanStartPoints data (findZeroCrossing data regionEndTarget 2000))
    as [bestStart bestScore] eqn:Hscan.
  destruct (bestScore >? num 60)%js eqn:Hacc; [| apply Hst].
  cbn [fst]. rewrite in_app_iff.
  intros [Hp | [<- | []]]; [apply Hst; exact Hp |].
  exists regionEndTarget. cbn [end_ start score]. rewrite Hscan. cbn [fst snd].
  repeat split; try assumption; reflexivity.
Qed.

Lemma fold_visitRegion_accepted (data : TypedArray N) (regions : list Z) :
  forall st,
    incl regions (candidateEndRegions (len data)) ->
    (forall p, In p (fst st) -> accepted data p) ->
    forall p, In p (fst (fold_left (visitRegion data) regions st)) ->
              accepted data p.
Proof.
  induction regions as [| t regions IH]; intros st Hincl Hst; simpl.
  - exact Hst.
  - apply IH.
    + intros x Hx. apply Hincl. right. exact Hx.
    + apply visitRegion_accepted; [apply Hincl; left; reflexivity | exact Hst].
Qed.

(** Every returned candidate was recorded by [visitRegion] for one of
    the three probes. *)
Lemma detectLoopPoints_accepted (buffer : AudioBuffer N) (p : LoopPoint) :
  In p (detectLoopPoints buffer) -> accepted (firstChannel buffer) p.
Proof.
  unfold detectLoopPoints. rewrite getChannelData_0.
  destruct (fold_left (visitRegion (firstChannel buffer))
              (candidateEndRegions (len (firstChannel buffer))) ([], 1))
    as [points idCounter] eqn:Hfold.
  intros Hp. apply firstn_incl in Hp.
  apply (proj1 (sortByScore_In _ _)) in Hp.
  apply (fold_visitRegion_accepted (firstChannel buffer)
           (candidateEndRegions (len (firstChannel buffer))) ([], 1)).
  - apply incl_refl.
  - intros q [].
  - rewrite Hfold. exact Hp.
Qed.

(** An accepted candidate, spelled out: the start is a snapped probe of
    the scan, and both correlation windows lie inside the buffer. *)
Lemma accepted_shape `{!ScoreOrder N} (data : TypedArray N) (p : LoopPoint) :
  accepted data p ->
  exists regionEndTarget i,
    In regionEndTarget (candidateEndRegions (len data))
    /\ end_ p = findZeroCrossing data regionEndTarget 2000
    /\ 0 <= i < end_ p - 1000
    /\ i mod Z.max 10 (end_ p / 100) = 0
    /\ start p = findZeroCrossing data i 100
    /\ start p < end_ p - 1000
    /\ 0 <= start p
    /\ start p + 500 < len data
    /\ end_ p + 500 < len data
    /\ (calculateCorrelation data (start p) (end_ p) 500 >? num 60)%js = true
    /\ score p = Math_round (calculateCorrelation data (start p) (end_ p) 500).
Proof.
  intros (t & Ht & Hend & Hlong & Hstart & Hacc & Hscore).
  destruct (scanStartPoints_spec data (end_ p)) as [Hinit | (i & Hi & Hm & Hs & Hlt & Hsc)].
  - rewrite Hinit in Hacc. simpl in Hacc.
    rewrite initial_not_accepted in Hacc. discriminate.
  - rewrite <- Hstart in Hs, Hlt, Hsc. rewrite Hsc in Hacc, Hscore.
    destruct (calculateCorrelation_accepted _ _ _ _ Hacc) as (Ha & Hb & Hc & Hd).
    exists t, i. repeat split; try assumption; lia.
Qed.

End Detection.

(** ** The detector on silence *)

Section Silence.

Context {N : Type} `{JsNumber N} `{!ScoreOrder N} `{!SilenceFacts N}.

Lemma len_zeros (n : Z) : 0 <= n -> len (zeros n : TypedArray N) = n.
Proof.
  intros Hn. unfold len, zeros. rewrite repeat_length. lia.
Qed.

Lemma item_zeros_inside (n i : Z) :
  0 <= i < n -> (zeros n).[i] = num 0.
Proof.
  intros Hi. unfold item, zeros.
  destruct (Z.ltb_spec i 0); [lia |].
  rewrite (nth_indep _ NaN (num 0)) by (rewrite repeat_length; lia).
  apply nth_repeat.
Qed.

Lemma item_zeros (n i : Z) :
  (zeros n).[i] = num 0 \/ (zeros n).[i] = NaN.
Proof.
  unfold item, zeros. destruct (i <? 0); [right; reflexivity |].
  destruct (nth_in_or_default (Z.to_nat i) (repeat (num 0) (Z.to_nat n)) NaN)
    as [Hin | Hd].
  - left. apply repeat_spec in Hin. exact Hin.
  - right. exact Hd.
Qed.

(** No two neighbouring samples of silence pass the crossing test: the
    second one is neither above nor below 0. *)
Lemma crossing_zeros (n i : Z) : crossing (zeros n) i = false.
Proof.
  unfold crossing.
  destruct (item_zeros n (i + 1)) as [-> | ->].
  - rewrite zero_lt_zero, !andb_false_r. reflexivity.
  - rewrite zero_lt_nan, nan_lt_zero, !andb_false_r. reflexivity.
Qed.

(** So every probe snaps to itself. *)
Lemma findZeroCrossing_zeros (n target windowSize : Z) :
  findZeroCrossing (zeros n) target windowSize = target.
Proof.
  unfold findZeroCrossing. rewrite for_loop_skip; [reflexivity | lia |].
  intros i _. rewrite crossing_zeros. reflexivity.
Qed.

Lemma calculateCorrelation_zeros (n idxA idxB : Z) :
  0 <= idxA -> 0 <= idxB -> idxA + 500 < n -> idxB + 500 < n ->
  calculateCorrelation (zeros n) idxA idxB 500 = flatScore.
Proof.
  intros Ha Hb Han Hbn. unfold calculateCorrelation.
  rewrite len_zeros by lia.
  destruct ((idxA <? 0) || (idxB <? 0) || (idxA + 500 >=? n)
            || (idxB + 500 >=? n)) eqn:Hg.
  - repeat (apply orb_true_iff in Hg; destruct Hg as [Hg | Hg]); lia.
  - rewrite for_loop_skip; [reflexivity | lia |].
    intros i Hi. rewrite !item_zeros_inside by lia. apply sum_stays_zero.
Qed.

Lemma calculateCorrelation_zeros_end (n idxA validEnd : Z) :
  0 <= idxA < validEnd - 1000 ->
  calculateCorrelation (zeros n) idxA validEnd 500 = silenceScore n validEnd.
Proof.
  intros Ha. unfold silenceScore.
  destruct (Z.ltb_spec (validEnd + 500) n).
  - apply calculateCorrelation_zeros; lia.
  - apply calculateCorrelation_outside.
    right; right; right. unfold len, zeros. rewrite repeat_length. lia.
Qed.

Lemma silenceScore_beats_initial (n validEnd : Z) :
  (silenceScore n validEnd >? num (-1))%js = true.
Proof.
  unfold silenceScore. destruct (validEnd + 500 <? n).
  - apply flat_beats_initial.
  - apply zero_beats_initial.
Qed.

Lemma silenceScore_not_above_itself (n validEnd : Z) :
  (silenceScore n validEnd >? silenceScore n validEnd)%js = false.
Proof.
  unfold silenceScore. destruct (validEnd + 500 <? n).
  - apply flat_not_above_flat.
  - apply zero_lt_zero.
Qed.

(** The first probe, 0, takes the lead and keeps it. *)
Lemma scanStartPoints_zeros (n validEnd : Z) :
  1000 < validEnd ->
  scanStartPoints (zeros n) validEnd = (0, silenceScore n validEnd).
Proof.
  intros HE. unfold scanStartPoints.
  rewrite for_loop_unfold by lia.
  destruct (Z.ltb_spec 0 (validEnd - 1000)); [| lia].
  rewrite findZeroCrossing_zeros.
  destruct (Z.geb_spec 0 (validEnd - 1000)); [lia |].
  rewrite calculateCorrelation_zeros_end by lia.
  rewrite silenceScore_beats_initial.
  apply for_loop_skip; [lia |].
  intros i Hi. rewrite findZeroCrossing_zeros.
  destruct (Z.geb_spec i (validEnd - 1000)); [reflexivity |].
  rewrite calculateCorrelation_zeros_end by lia.
  rewrite silenceScore_not_above_itself. reflexivity.
Qed.

(** A region of silence is recorded exactly when its end window fits. *)
Lemma visitRegion_zeros (n regionEndTarget idCounter : Z)
    (points : list LoopPoint) :
  44100 / 2 <= regionEndTarget ->
  visitRegion (zeros n) (points, idCounter) regionEndTarget =
    if regionEndTarget + 500 <? n then
      (points ++ [ {| id := idCounter; start := 0; end_ := regionEndTarget;
                      score := 100;
                      name := autoLoopName (idCounter + 1) |} ],
       idCounter + 1)
    else (points, idCounter).
Proof.
  intros Ht. unfold visitRegion.
  rewrite findZeroCrossing_zeros.
  change (44100 / 2) with 22050 in *.
  destruct (Z.ltb_spec regionEndTarget 22050); [lia |].
  rewrite scanStartPoints_zeros by lia.
  unfold silenceScore.
  destruct (regionEndTarget + 500 <? n).
  - rewrite flat_accepted, flat_rounds_to_100. reflexivity.
  - rewrite zero_not_accepted. reflexivity.
Qed.

(** Two seconds of silence: the probes are 88100, 66150 and 44100; the
    first is dropped, the other two are returned in that order. *)
Lemma detectLoopPoints_silence :
  detectLoopPoints (silence 88200 : AudioBuffer N)
  = [silenceLoop75; silenceLoop50].
Proof.
  unfold detectLoopPoints. rewrite getChannelData_0.
  change (firstChannel (silence 88200)) with (zeros 88200 : TypedArray N).
  rewrite len_zeros by lia.
  change (candidateEndRegions 88200) with [88100; 66150; 44100].
  unfold fold_left.
  rewrite visitRegion_zeros by (vm_compute; discriminate).
  replace (88100 + 500 <? 88200) with false by reflexivity.
  cbv beta iota.
  rewrite visitRegion_zeros by (vm_compute; discriminate).
  replace (66150 + 500 <? 88200) with true by reflexivity.
  cbv beta iota.
  rewrite visitRegion_zeros by (vm_compute; discriminate).
  reflexivity.
Qed.

End Silence.

(** The same, in each of the two arithmetics. *)
Lemma detectLoopPoints_silence_float :
  detectLoopPoints (silence 88200 : AudioBuffer float)
  = [silenceLoop75; silenceLoop50].
Proof. exact (@detectLoopPoints_silence float Float64 _ _). Qed.

Lemma detectLoopPoints_silence_exact :
  detectLoopPoints (silence 88200 : AudioBuffer Ex.t)
  = [silenceLoop75; silenceLoop50].
Proof. exact (@detectLoopPoints_silence Ex.t Exact _ _). Qed.

Lemma silenceLoop75_returned_float :
  In silenceLoop75 (detectLoopPoints (silence 88200 : AudioBuffer float)).
Proof. rewrite detectLoopPoints_silence_float. left. reflexivity. Qed.

Lemma silenceLoop75_returned_exact :
  In silenceLoop75 (detectLoopPoints (silence 88200 : AudioBuffer Ex.t)).
Proof. rewrite detectLoopPoints_silence_exact. left. reflexivity. Qed.

(** ** Short buffers *)

Section ShortBuffers.

Context {N : Type} `{JsNumber N}.

Lemma candidateEndRegions_In (n t : Z) :
  In t (candidateEndRegions n) ->
  1000 < t /\ (t = n - 100 \/ t = 3 * n / 4 \/ t = n / 2).
Proof.
  unfold candidateEndRegions. rewrite filter_In.
  intros [Hin Hgt]. apply Z.gtb_lt in Hgt. split; [lia |].
  destruct Hin as [<- | [<- | [<- | []]]]; auto.
Qed.

Lemma candidateEndRegions_below (n t : Z) :
  0 <= n -> In t (candidateEndRegions n) -> t <= n - 1.
Proof.
  intros Hn Hin. apply candidateEndRegions_In in Hin.
  destruct Hin as [Hgt Hcases].
  assert (Hpos : 0 < n).
  { destruct (Z.eq_dec n 0) as [E | E]; [| lia].
    rewrite E in Hcases.
    destruct Hcases as [-> | [-> | ->]]; vm_compute in Hgt; discriminate. }
  destruct Hcases as [-> | [-> | ->]].
  - lia.
  - assert (3 * n / 4 < n) by (apply Z.div_lt_upper_bound; lia). lia.
  - assert (n / 2 < n) by (apply Z.div_lt; lia). lia.
Qed.

Lemma visitRegion_short (data : TypedArray N)
    (st : list LoopPoint * Z) (regionEndTarget : Z) :
  findZeroCrossing data regionEndTarget 2000 < 44100 / 2 ->
  visitRegion data st regionEndTarget = st.
Proof.
  intros Hshort. destruct st as [points idCounter]. unfold visitRegion.
  destruct (Z.ltb_spec (findZeroCrossing data regionEndTarget 2000)
              (44100 / 2)); [reflexivity | lia].
Qed.

Lemma fold_visitRegion_short (data : TypedArray N) (regions : list Z) :
  forall st,
    (forall t, In t regions ->
               findZeroCrossing data t 2000 < 44100 / 2) ->
    fold_left (visitRegion data) regions st = st.
Proof.
  induction regions as [| t regions IH]; intros st Hall; simpl.
  - reflexivity.
  - rewrite visitRegion_short by (apply Hall; left; reflexivity).
    apply IH. intros t' Ht'. apply Hall. right. exact Ht'.
Qed.

End ShortBuffers.

(* ================================================================== *)
(** * The claims about the detector *)

(** C7.  A buffer with fewer frames than the minimum span floor of 22050
    samples yields the empty sequence.  ([detectLoopPoints] is a total
    function into lists: it has no failure value, since none of its
    operations can throw; an empty list is how it reports that no loop
    was found.) *)
Theorem detectLoopPoints_short_buffer {N : Type} `{JsNumber N}
    (buffer : AudioBuffer N) :
  frameCount buffer < 22050 -> detectLoopPoints buffer = [].
Proof.
  intros Hshort. unfold detectLoopPoints. rewrite getChannelData_0.
  unfold frameCount in Hshort.
  rewrite fold_visitRegion_short; [reflexivity |].
  intros t Ht.
  assert (Hn : 0 <= len (firstChannel buffer)) by (unfold len; lia).
  pose proof (candidateEndRegions_below _ _ Hn Ht) as Hle.
  pose proof (findZeroCrossing_upper (firstChannel buffer) t 2000) as Hup.
  change (44100 / 2) with 22050. lia.
Qed.

Lemma detectLoopPoints_short_buffer_witness :
  frameCount (oneSample 1%float) < 22050
  /\ detectLoopPoints (oneSample 1%float) = [].
Proof.
  assert (Hshort : frameCount (oneSample 1%float) < 22050)
    by (vm_compute; reflexivity).
  split; [exact Hshort |].
  exact (detectLoopPoints_short_buffer (oneSample 1%float) Hshort).
Defined.

(** C9.  The returned sequence is sorted by non-increasing score and has
    at most 3 candidates. *)
Theorem detectLoopPoints_sorted_top3 {N : Type} `{JsNumber N}
    (buffer : AudioBuffer N) :
  StronglySorted byDescendingScore (detectLoopPoints buffer)
  /\ (List.length (detectLoopPoints buffer) <= 3)%nat.
Proof.
  unfold detectLoopPoints.
  destruct (fold_left (visitRegion (getChannelData buffer 0))
              (candidateEndRegions (len (getChannelData buffer 0))) ([], 1))
    as [points idCounter].
  split.
  - apply firstn_sorted. apply sortByScore_sorted.
  - apply firstn_le_length.
Qed.

(** C10.  A pair whose 500-sample end window would run past the buffer
    scores 0, which does not pass the acceptance test [bestScore > 60];
    so every returned candidate has [end + 500 < frameCount]. *)
Theorem detectLoopPoints_end_window_inside {N : Type} `{JsNumber N}
    `{!ScoreOrder N} (buffer : AudioBuffer N) :
  (forall idxA idxB,
      frameCount buffer <= idxB + 500 ->
      calculateCorrelation (getChannelData buffer 0) idxA idxB 500 = num 0
      /\ (num 0 >? num 60)%js = false)
  /\ (forall p, In p (detectLoopPoints buffer) ->
                end_ p + 500 < frameCount buffer).
Proof.
  split.
  - intros idxA idxB Hout. split.
    + apply calculateCorrelation_outside. rewrite getChannelData_0.
      unfold frameCount in Hout. tauto.
    + apply zero_not_accepted.
  - intros p Hp. apply detectLoopPoints_accepted in Hp.
    apply accepted_shape in Hp.
    destruct Hp as (t & i & _ & _ & _ & _ & _ & _ & _ & _ & Hend & _).
    exact Hend.
Qed.

Lemma detectLoopPoints_end_window_inside_witness :
  In silenceLoop75 (detectLoopPoints (silence 88200 : AudioBuffer float))
  /\ end_ silenceLoop75 + 500 < frameCount (silence 88200 : AudioBuffer float).
Proof.
  split; [exact silenceLoop75_returned_float |].
  exact (proj2 (detectLoopPoints_end_window_inside
                  (silence 88200 : AudioBuffer float))
           silenceLoop75 silenceLoop75_returned_float).
Defined.

(** ** Scores in exact arithmetic *)

Lemma exact_sum_step (sum x y : Ex.t) :
  match sum with Some q => (0 <= q)%Q | None => True end ->
  match (sum + Math_abs (x - y))%js with
  | Some q => (0 <= q)%Q
  | None => True
  end.
Proof.
  intros Hsum. destruct sum as [s |], x as [x |], y as [y |];
    cbn [num_add num_sub Math_abs Exact Ex.lift2 option_map]; auto.
  pose proof (Qabs_nonneg (x - y)). lra.
Qed.

(** A correlation score is NaN or lies between 0 and 100. *)
Lemma calculateCorrelation_exact_range (data : TypedArray Ex.t) (idxA idxB : Z) :
  nanOrWithin 0 100 (calculateCorrelation data idxA idxB 500).
Proof.
  unfold calculateCorrelation.
  destruct ((idxA <? 0) || (idxB <? 0) || (idxA + 500 >=? len data)
            || (idxB + 500 >=? len data)).
  - split; unfold Qle; simpl; lia.
  - match goal with
    | |- context [for_loop 0 500 1 ?b ?s0] =>
        assert (Hsum : (fun sum : Ex.t =>
                          match sum with
                          | Some q => (0 <= q)%Q
                          | None => True
                          end) (for_loop 0 500 1 b s0));
        [ apply for_loop_invariant;
          [ lia
          | intros i s _ _ Hq; apply exact_sum_step; exact Hq
          | unfold Qle; simpl; lia ]
        | destruct (for_loop 0 500 1 b s0) as [sum |] ]
    end.
    + assert (Hs : (0 <= sum)%Q) by exact Hsum.
      cbn [num num_div num_sub num_mul Math_max Exact Ex.div Ex.lift2 Ex.max].
      change (Qeq_bool (inject_Z 500) 0) with false. cbv iota.
      cbn [Ex.lift2].
      change (inject_Z 500) with 500%Q. change (inject_Z 200) with 200%Q.
      change (inject_Z 100) with 100%Q. change (inject_Z 0) with 0%Q.
      assert (Hd : (0 <= sum / 500)%Q).
      { apply Qle_shift_div_l; [reflexivity | lra]. }
      set (avgDiff := (sum / 500)%Q) in *. clearbody avgDiff.
      assert (Hm : (0 <= avgDiff * 200)%Q).
      { apply Qmult_le_0_compat; [exact Hd | discriminate]. }
      unfold nanOrWithin.
      destruct (Qle_bool 0 (100 - avgDiff * 200)) eqn:Hle.
      * apply Qle_bool_iff in Hle. lra.
      * lra.
    + exact I.
Qed.

(** A score above 60 rounds to an integer between 60 and 100. *)
Lemma exact_round_accepted (a : Ex.t) :
  nanOrWithin 0 100 a -> (a >? num 60)%js = true ->
  60 <= Math_round a <= 100.
Proof.
  destruct a as [q |]; [| discriminate].
  cbn [nanOrWithin num num_lt Math_round Exact Ex.lt Ex.round].
  intros [_ Hhi] Hlt.
  apply negb_true_iff in Hlt.
  change (inject_Z 60) with 60%Q in Hlt.
  assert (Hlo : (60 <= q)%Q).
  { destruct (Qlt_le_dec q 60) as [Hc | Hc]; [| exact Hc].
    apply Qlt_le_weak in Hc. apply Qle_bool_iff in Hc. congruence. }
  split.
  - apply Z.le_trans with (Qfloor 60); [vm_compute; discriminate |].
    apply Qfloor_resp_le. lra.
  - apply Z.le_trans with (Qfloor (100 + (1 # 2))); [| vm_compute; discriminate].
    apply Qfloor_resp_le. lra.
Qed.

(** ** Rounding in binary64 *)

(** [shr_1] halves a non-negative mantissa. *)
Lemma shr_1_m (mrs : shr_record) :
  0 <= shr_m mrs -> shr_m (shr_1 mrs) = shr_m mrs / 2.
Proof.
  destruct mrs as [m r s]. cbn [shr_m]. intros Hm.
  destruct m as [| [p | p |] | p]; cbn [shr_1 shr_m];
    first [ lia | reflexivity
          | apply Z.div_unique with 1; lia | apply Z.div_unique with 0; lia ].
Qed.

Lemma iter_shr_1_m (p : positive) :
  forall mrs, 0 <= shr_m mrs ->
    shr_m (iter_pos shr_1 p mrs) = shr_m mrs / 2 ^ Zpos p.
Proof.
  assert (Hnn : forall mrs, 0 <= shr_m mrs -> 0 <= shr_m (shr_1 mrs)).
  { intros mrs Hm. rewrite shr_1_m by exact Hm. apply Z.div_pos; lia. }
  assert (Hpow : forall q : positive, 0 < 2 ^ Zpos q)
    by (intros q; apply Z.pow_pos_nonneg; lia).
  induction p as [p IH | p IH |]; intros mrs Hm; cbn [iter_pos].
  - assert (H1 := Hnn mrs Hm).
    assert (H2 : 0 <= shr_m (iter_pos shr_1 p (shr_1 mrs))).
    { rewrite IH by exact H1. apply Z.div_pos; [exact H1 | apply Hpow]. }
    rewrite IH by exact H2. rewrite IH by exact H1. rewrite shr_1_m by exact Hm.
    pose proof (Hpow p).
    rewrite !Z.div_div by lia.
    replace (2 ^ Zpos p~1) with (2 * (2 ^ Zpos p * 2 ^ Zpos p)); [reflexivity |].
    rewrite Pos2Z.inj_xI.
    replace (2 * Zpos p + 1) with (1 + (Zpos p + Zpos p)) by lia.
    rewrite !Z.pow_add_r by lia. reflexivity.
  - assert (H2 : 0 <= shr_m (iter_pos shr_1 p mrs)).
    { rewrite IH by exact Hm. apply Z.div_pos; [exact Hm | apply Hpow]. }
    rewrite IH by exact H2. rewrite IH by exact Hm.
    pose proof (Hpow p).
    rewrite !Z.div_div by lia.
    replace (2 ^ Zpos p~0) with (2 ^ Zpos p * 2 ^ Zpos p); [reflexivity |].
    rewrite <- Z.pow_add_r by lia. f_equal. lia.
  - rewrite shr_1_m by exact Hm. reflexivity.
Qed.

(** A mantissa below [2 ^ k] has at most [k] digits. *)
Lemma digits2_pos_lower (m : positive) : 2 ^ (Zpos (digits2_pos m) - 1) <= Zpos m.
Proof.
  induction m as [m IH | m IH |]; cbn [digits2_pos].
  - rewrite Pos2Z.inj_succ. replace (Z.succ (Zpos (digits2_pos m)) - 1)
      with (Z.succ (Zpos (digits2_pos m) - 1)) by lia.
    rewrite Z.pow_succ_r by lia. lia.
  - rewrite Pos2Z.inj_succ. replace (Z.succ (Zpos (digits2_pos m)) - 1)
      with (Z.succ (Zpos (digits2_pos m) - 1)) by lia.
    rewrite Z.pow_succ_r by lia. lia.
  - reflexivity.
Qed.

Lemma digits2_pos_upper (m : positive) (k : Z) :
  0 <= k -> Zpos m < 2 ^ k -> Zpos (digits2_pos m) <= k.
Proof.
  intros Hk Hm. pose proof (digits2_pos_lower m) as Hl.
  destruct (Z.le_gt_cases (Zpos (digits2_pos m)) k) as [H | H]; [exact H |].
  assert (2 ^ k <= 2 ^ (Zpos (digits2_pos m) - 1))
    by (apply Z.pow_le_mono_r; lia).
  lia.
Qed.

Lemma round_nearest_even_bounds (m : Z) (l : location) :
  m <= round_nearest_even m l <= m + 1.
Proof.
  destruct l as [| []]; cbn [round_nearest_even]; try lia.
  destruct (Z.even m); lia.
Qed.

Lemma hundredAt_shift (e n : Z) :
  0 <= n -> e + n <= 0 -> hundredAt e = hundredAt (e + n) * 2 ^ n.
Proof.
  intros Hn He. unfold hundredAt.
  replace (- e) with (- (e + n) + n) by lia.
  rewrite Z.pow_add_r by lia. lia.
Qed.

Lemma hundredAt_digits (m : positive) (e : Z) :
  e <= -46 -> Zpos m <= hundredAt e -> Zpos (digits2_pos m) + e <= 7.
Proof.
  intros He Hm. unfold hundredAt in Hm.
  assert (Zpos (digits2_pos m) <= 7 - e); [| lia].
  apply digits2_pos_upper; [lia |].
  replace (7 - e) with (7 + - e) by lia. rewrite Z.pow_add_r by lia.
  assert (0 < 2 ^ (- e)) by (apply Z.pow_pos_nonneg; lia).
  change (2 ^ 7) with 128. lia.
Qed.

(** Shifting a mantissa to its canonical exponent keeps it at or below
    100. *)
Lemma shr_fexp_below_100 (m : positive) (e : Z) (l : location) :
  e <= -46 -> Zpos m <= hundredAt e ->
  snd (shr_fexp prec emax (Zpos m) e l) <= -46
  /\ 0 <= shr_m (fst (shr_fexp prec emax (Zpos m) e l))
          <= hundredAt (snd (shr_fexp prec emax (Zpos m) e l))
  /\ (Zpos m < hundredAt e ->
      shr_m (fst (shr_fexp prec emax (Zpos m) e l))
        < hundredAt (snd (shr_fexp prec emax (Zpos m) e l))).
Proof.
  intros He Hm. pose proof (hundredAt_digits m e He Hm) as Hd.
  unfold shr_fexp, shr. cbn [Zdigits2].
  set (n := fexp prec emax (Zpos (digits2_pos m) + e) - e).
  assert (Hfexp : fexp prec emax (Zpos (digits2_pos m) + e) <= -46).
  { unfold fexp, SpecFloat.emin, prec, emax. lia. }
  assert (Hrec : shr_m (shr_record_of_loc (Zpos m) l) = Zpos m).
  { destruct l as [| []]; reflexivity. }
  destruct n as [| p | p] eqn:Hn; cbn [fst snd].
  - rewrite Hrec. split; [exact He |]. split; [lia | tauto].
  - assert (Hs : e + Zpos p <= -46) by lia.
    rewrite iter_shr_1_m by (rewrite Hrec; lia). rewrite Hrec.
    assert (Hpow : 0 < 2 ^ Zpos p) by (apply Z.pow_pos_nonneg; lia).
    rewrite (hundredAt_shift e (Zpos p)) in * by lia.
    split; [exact Hs |]. split; [split |].
    + apply Z.div_pos; lia.
    + apply Z.div_le_upper_bound; lia.
    + intros Hlt. apply Z.div_lt_upper_bound; lia.
  - rewrite Hrec. split; [exact He |]. split; [lia | tauto].
Qed.

(** Rounding a value below 100 gives a finite value at or below 100, with
    the sign it was given. *)
Lemma binary_round_aux_below_100 (sx : bool) (mx : positive) (ex : Z) :
  ex <= -46 -> Zpos mx < hundredAt ex ->
  match binary_round_aux prec emax sx (Zpos mx) ex loc_Exact with
  | S754_finite s m e => s = sx /\ e <= -46 /\ Zpos m <= hundredAt e
  | S754_zero s => s = sx
  | _ => False
  end.
Proof.
  intros He Hm. unfold binary_round_aux.
  destruct (shr_fexp_below_100 mx ex loc_Exact He ltac:(lia)) as (He1 & Hm1 & Hlt).
  specialize (Hlt Hm).
  destruct (shr_fexp prec emax (Zpos mx) ex loc_Exact) as [mrs1 e1].
  cbn [fst snd] in *.
  pose proof (round_nearest_even_bounds (shr_m mrs1) (loc_of_shr_record mrs1)) as Hr.
  set (m1 := round_nearest_even (shr_m mrs1) (loc_of_shr_record mrs1)) in *.
  destruct m1 as [| p1 | p1] eqn:Hm1eq; [| | lia].
  - (* the rounded mantissa is 0 *)
    unfold shr_fexp, shr. cbn [Zdigits2 shr_record_of_loc].
    destruct (fexp prec emax (0 + e1) - e1) as [| p | p]; cbn [shr_m]; try reflexivity.
    rewrite iter_shr_1_m by (cbn; lia). cbn [shr_m].
    rewrite Z.div_0_l by (apply Z.pow_nonzero; lia). reflexivity.
  - destruct (shr_fexp_below_100 p1 e1 loc_Exact He1 ltac:(lia)) as (He2 & Hm2 & _).
    destruct (shr_fexp prec emax (Zpos p1) e1 loc_Exact) as [mrs2 e2].
    cbn [fst snd] in *.
    destruct (shr_m mrs2) as [| m2 | m2]; [reflexivity | | lia].
    destruct (Z.leb_spec e2 (emax - prec)) as [_ | Hbig].
    + split; [reflexivity |]. split; [exact He2 | lia].
    + unfold emax, prec in Hbig. lia.
Qed.

Lemma binary_round_below_100 (sx : bool) (mx : positive) (ex : Z) :
  ex <= -46 -> Zpos mx < hundredAt ex ->
  match binary_round prec emax sx mx ex with
  | S754_finite s m e => s = sx /\ e <= -46 /\ Zpos m <= hundredAt e
  | S754_zero s => s = sx
  | _ => False
  end.
Proof.
  intros He Hm. unfold binary_round, shl_align.
  set (e' := fexp prec emax (Zpos (digits2_pos mx) + ex)).
  destruct (e' - ex) as [| d | d] eqn:Hd.
  - apply binary_round_aux_below_100; assumption.
  - apply binary_round_aux_below_100; assumption.
  - apply binary_round_aux_below_100; [lia |].
    change (Pos.iter xO mx d) with (shift_pos d mx).
    rewrite shift_pos_correct, Z.pow_pos_fold.
    rewrite (hundredAt_shift e' (Zpos d)) by lia.
    replace (e' + Zpos d) with ex by lia.
    assert (0 < 2 ^ Zpos d) by (apply Z.pow_pos_nonneg; lia). nia.
Qed.

(** ** Signs in binary64 *)

Lemma binary_round_aux_sign (sx : bool) (mx ex : Z) (lx : location) :
  sfSigned sx (binary_round_aux prec emax sx mx ex lx).
Proof.
  unfold binary_round_aux.
  destruct (shr_fexp prec emax mx ex lx) as [mrs1 e1].
  destruct (shr_fexp prec emax _ e1 loc_Exact) as [mrs2 e2].
  destruct (shr_m mrs2); [exact I | | exact I].
  destruct (Z.leb _ _); exact eq_refl.
Qed.

Lemma binary_round_sign (sx : bool) (mx : positive) (ex : Z) :
  sfSigned sx (binary_round prec emax sx mx ex).
Proof.
  unfold binary_round.
  destruct (shl_align mx ex _) as [mz ez]. apply binary_round_aux_sign.
Qed.

Lemma sfNonneg_abs (x : spec_float) : sfNonneg (SFabs x).
Proof. destruct x; cbn; auto. Qed.

Lemma sfNonneg_add (x y : spec_float) :
  sfNonneg x -> sfNonneg y -> sfNonneg (SFadd prec emax x y).
Proof.
  destruct x as [sx | sx | | sx mx ex], y as [sy | sy | | sy my ey];
    cbn [sfNonneg SFadd]; intros Hx Hy; subst; cbn; auto.
  - destruct sx, sy; cbn; auto.
  - apply (binary_round_sign false).
Qed.

Lemma sfNonneg_mul (x : spec_float) (my : positive) (ey : Z) :
  sfNonneg x -> sfNonneg (SFmul prec emax x (S754_finite false my ey)).
Proof.
  destruct x as [sx | sx | | sx mx ex]; cbn [sfNonneg SFmul]; intros Hx;
    subst; cbn; auto.
  apply (binary_round_aux_sign false).
Qed.

Lemma sfNonneg_div (x : spec_float) (my : positive) (ey : Z) :
  sfNonneg x -> sfNonneg (SFdiv prec emax x (S754_finite false my ey)).
Proof.
  destruct x as [sx | sx | | sx mx ex]; cbn [sfNonneg SFdiv]; intros Hx;
    subst; cbn [xorb sfNonneg]; auto.
  destruct (SFdiv_core_binary prec emax (Zpos mx) ex (Zpos my) ey) as [[mz ez] lz].
  apply (binary_round_aux_sign false).
Qed.

(** ** 100 minus a non-negative value *)

Lemma shl_align_hundred (ez : Z) :
  ez <= -46 ->
  Zpos (fst (shl_align 7036874417766400 (-46) ez)) = hundredAt ez.
Proof.
  intros He. unfold shl_align.
  destruct (ez - -46) as [| d | d] eqn:Hd; cbn [fst].
  - replace ez with (-46) by lia. reflexivity.
  - lia.
  - change (Pos.iter xO 7036874417766400%positive d)
      with (shift_pos d 7036874417766400%positive).
    rewrite shift_pos_correct, Z.pow_pos_fold.
    rewrite (hundredAt_shift ez (Zpos d)) by lia.
    replace (ez + Zpos d) with (-46) by lia.
    change (hundredAt (-46)) with 7036874417766400. lia.
Qed.

Lemma SFsub_hundred (y : spec_float) :
  sfNonneg y ->
  match SFsub prec emax (S754_finite false 7036874417766400 (-46)) y with
  | S754_finite s m e => s = true \/ (e <= -46 /\ Zpos m <= hundredAt e)
  | S754_infinity s => s = true
  | _ => True
  end.
Proof.
  destruct y as [sy | sy | | sy my ey]; cbn [sfNonneg SFsub]; intros Hy; subst;
    auto.
  - right. split; [lia | reflexivity].
  - cbn [cond_Zopp]. set (ez := Z.min (-46) ey).
    assert (He : ez <= -46) by (unfold ez; lia).
    rewrite (shl_align_hundred ez He).
    set (b := Zpos (fst (shl_align my ey ez))).
    assert (Hb : 0 < b) by (unfold b; lia).
    destruct (hundredAt ez - b) as [| d | d] eqn:Hd; cbn [binary_normalize].
    + exact I.
    + pose proof (binary_round_below_100 false d ez He ltac:(lia)) as Hr.
      destruct (binary_round prec emax false d ez) as [s | s | | s m e]; auto.
      right. destruct Hr as (_ & He' & Hm'). split; assumption.
    + pose proof (binary_round_sign true d ez) as Hr.
      destruct (binary_round prec emax true d ez) as [s | s | | s m e]; auto.
Qed.

(** ** Scores in binary64 *)

Lemma float_sum_nonneg (data : TypedArray float) (idxA idxB : Z) :
  sfNonneg
    (Prim2SF
       (for_loop 0 500 1
          (fun i sum =>
             (sum + Math_abs (item data (idxA + i) - item data (idxB + i)))%js)
          (num 0))).
Proof.
  apply (for_loop_invariant (fun sum : float => sfNonneg (Prim2SF sum))).
  - lia.
  - intros i sum _ _ Hsum. cbn [num_add Math_abs num_sub Float64].
    rewrite add_spec, abs_spec. apply sfNonneg_add; [exact Hsum |].
    apply sfNonneg_abs.
  - vm_compute. exact I.
Qed.

(** [Math.max(0, v)] above 60 is [v]. *)
Lemma float_max_accepted (v : float) :
  PrimFloat.ltb 60 (F64.max 0 v) = true -> F64.max 0 v = v.
Proof.
  unfold F64.max. change (F64.is_nan 0) with false. cbv iota.
  destruct (F64.is_nan v); [reflexivity |].
  destruct (PrimFloat.ltb 0 v); [reflexivity |].
  destruct (PrimFloat.ltb v 0); [intros Hc; vm_compute in Hc; discriminate |].
  change (classify 0) with PZero. cbv iota.
  intros Hc; vm_compute in Hc; discriminate.
Qed.

Lemma float_round_below_100 (m : positive) (e : Z) :
  e <= -46 -> Zpos m <= hundredAt e ->
  0 <= (2 * Zpos m + 2 ^ (- e)) / 2 ^ (1 - e) <= 100.
Proof.
  intros He Hm. unfold hundredAt in Hm.
  assert (Hk : 0 < 2 ^ (- e)) by (apply Z.pow_pos_nonneg; lia).
  replace (1 - e) with (1 + - e) by lia. rewrite Z.pow_add_r by lia.
  change (2 ^ 1) with 2. split.
  - apply Z.div_pos; lia.
  - assert ((2 * Zpos m + 2 ^ (- e)) / (2 * 2 ^ (- e)) < 101); [| lia].
    apply Z.div_lt_upper_bound; lia.
Qed.

(** A correlation score that passes [bestScore > 60] is a finite positive
    number, at most 100. *)
Lemma calculateCorrelation_float_accepted (data : TypedArray float)
    (idxA idxB : Z) :
  (calculateCorrelation data idxA idxB 500 >? num 60)%js = true ->
  exists m e,
    Prim2SF (calculateCorrelation data idxA idxB 500) = S754_finite false m e
    /\ e <= -46 /\ Zpos m <= hundredAt e.
Proof.
  unfold calculateCorrelation.
  destruct ((idxA <? 0) || (idxB <? 0) || (idxA + 500 >=? len data)
            || (idxB + 500 >=? len data)).
  - intros Hc. vm_compute in Hc. discriminate.
  - pose proof (float_sum_nonneg data idxA idxB) as Hsum.
    set (sum := for_loop 0 500 1 _ _) in *. clearbody sum.
    cbn [num num_div num_mul num_sub num_lt Math_max Float64].
    assert (E0 : F64.of_Z 0 = 0%float) by reflexivity.
    assert (E60 : F64.of_Z 60 = 60%float) by reflexivity.
    assert (E100 : F64.of_Z 100 = 100%float) by reflexivity.
    rewrite E0, E60, E100.
    set (y := (sum / F64.of_Z 500 * F64.of_Z 200)%float).
    assert (Hy : sfNonneg (Prim2SF y)).
    { unfold y. rewrite mul_spec, div_spec.
      assert (E500 : Prim2SF (F64.of_Z 500)
                     = S754_finite false 8796093022208000 (-44))
        by (vm_compute; reflexivity).
      assert (E200 : Prim2SF (F64.of_Z 200)
                     = S754_finite false 7036874417766400 (-45))
        by (vm_compute; reflexivity).
      rewrite E500, E200. apply sfNonneg_mul. apply sfNonneg_div. exact Hsum. }
    clearbody y. intros Hacc.
    pose proof (float_max_accepted _ Hacc) as Emax.
    rewrite Emax in Hacc |- *. clear Emax.
    rewrite ltb_spec in Hacc. rewrite sub_spec in *.
    assert (E100' : Prim2SF 100 = S754_finite false 7036874417766400 (-46))
      by (vm_compute; reflexivity).
    assert (E60' : Prim2SF 60 = S754_finite false 8444249301319680 (-47))
      by (vm_compute; reflexivity).
    rewrite E100', E60' in *.
    pose proof (SFsub_hundred (Prim2SF y) Hy) as Hv.
    unfold SF64sub in *.
    destruct (SFsub prec emax (S754_finite false 7036874417766400 (-46))
                (Prim2SF y)) as [s | s | | s m e];
      try (cbn in Hacc; discriminate Hacc).
    + subst s. cbn in Hacc. discriminate Hacc.
    + destruct Hv as [-> | [He Hm]]; [cbn in Hacc; discriminate Hacc |].
      destruct s; [cbn in Hacc; discriminate Hacc |].
      exists m, e. split; [reflexivity |]. split; assumption.
Qed.

(** So its rounding is an integer between 0 and 100. *)
Lemma calculateCorrelation_float_range (data : TypedArray float)
    (idxA idxB : Z) :
  (calculateCorrelation data idxA idxB 500 >? num 60)%js = true ->
  0 <= Math_round (calculateCorrelation data idxA idxB 500) <= 100.
Proof.
  intros Hacc.
  destruct (calculateCorrelation_float_accepted data idxA idxB Hacc)
    as (m & e & Hsf & He & Hm).
  cbn [Math_round Float64]. unfold F64.round. rewrite Hsf.
  cbn [F64.signed]. destruct (Z.leb_spec 0 e); [lia |].
  apply float_round_below_100; assumption.
Qed.

(* ================================================================== *)
(** * The claims about the detector, continued *)

(** The offsets of a returned candidate, in any arithmetic. *)
Lemma detectLoopPoints_offsets {N : Type} `{JsNumber N} `{!ScoreOrder N}
    (buffer : AudioBuffer N) (p : LoopPoint) :
  In p (detectLoopPoints buffer) ->
  0 <= start p /\ start p < end_ p - 1000
  /\ end_ p + 500 < frameCount buffer.
Proof.
  intros Hp. apply detectLoopPoints_accepted in Hp. apply accepted_shape in Hp.
  destruct Hp as (t & i & _ & _ & _ & _ & _ & Hlt & Hge & _ & Hend & _).
  unfold frameCount. lia.
Qed.

Lemma detectLoopPoints_exact_score (buffer : AudioBuffer Ex.t) (p : LoopPoint) :
  In p (detectLoopPoints buffer) -> 60 <= score p <= 100.
Proof.
  intros Hp. apply detectLoopPoints_accepted in Hp. apply accepted_shape in Hp.
  destruct Hp as (t & i & _ & _ & _ & _ & _ & _ & _ & _ & _ & Hacc & ->).
  apply exact_round_accepted; [apply calculateCorrelation_exact_range | exact Hacc].
Qed.

Lemma detectLoopPoints_float_score (buffer : AudioBuffer float) (p : LoopPoint) :
  In p (detectLoopPoints buffer) -> 0 <= score p <= 100.
Proof.
  intros Hp. apply detectLoopPoints_accepted in Hp. apply accepted_shape in Hp.
  destruct Hp as (t & i & _ & _ & _ & _ & _ & _ & _ & _ & _ & Hacc & ->).
  apply calculateCorrelation_float_range. exact Hacc.
Qed.

(** C4.  Every returned candidate satisfies
    [0 <= start < end <= frameCount - 1] and [end - start >= 1000], and
    its score is an integer between 0 and 100.  This is the program in
    binary64 arithmetic; [detectLoopPoints_offsets] and
    [detectLoopPoints_exact_score] give the same in exact arithmetic. *)
Theorem detectLoopPoints_candidate_range
    (buffer : AudioBuffer float) (p : LoopPoint) :
  In p (detectLoopPoints buffer) ->
  (0 <= start p /\ start p < end_ p /\ end_ p <= frameCount buffer - 1)
  /\ end_ p - start p >= 1000
  /\ 0 <= score p <= 100.
Proof.
  intros Hp.
  pose proof (detectLoopPoints_offsets buffer p Hp) as (H0 & H1 & H2).
  pose proof (detectLoopPoints_float_score buffer p Hp) as Hs.
  lia.
Qed.

Lemma detectLoopPoints_candidate_range_witness :
  In silenceLoop75 (detectLoopPoints (silence 88200 : AudioBuffer float))
  /\ ((0 <= start silenceLoop75 /\ start silenceLoop75 < end_ silenceLoop75
       /\ end_ silenceLoop75
          <= frameCount (silence 88200 : AudioBuffer float) - 1)
      /\ end_ silenceLoop75 - start silenceLoop75 >= 1000
      /\ 0 <= score silenceLoop75 <= 100).
Proof.
  split; [exact silenceLoop75_returned_float |].
  exact (detectLoopPoints_candidate_range (silence 88200 : AudioBuffer float)
           silenceLoop75 silenceLoop75_returned_float).
Defined.

(** C2, as the detector has it.  Both offsets of a returned candidate are
    results of [findZeroCrossing]: the end for one of the three probes
    with the window of 2000 samples, the start for a probe of the scan
    with the window of 100 samples.  Such a result is a sign change of the
    search window, or else the probed position itself, and the latter only
    if no sign change of the window has a magnitude below 1. *)
Theorem detectLoopPoints_offsets_snapped {N : Type} `{JsNumber N}
    `{!ScoreOrder N} (buffer : AudioBuffer N) (p : LoopPoint) :
  In p (detectLoopPoints buffer) ->
  (exists regionEndTarget,
      In regionEndTarget (candidateEndRegions (frameCount buffer))
      /\ end_ p = findZeroCrossing (firstChannel buffer) regionEndTarget 2000
      /\ snapOf (firstChannel buffer) regionEndTarget 2000 (end_ p))
  /\ (exists i,
         0 <= i < end_ p - 1000
         /\ start p = findZeroCrossing (firstChannel buffer) i 100
         /\ snapOf (firstChannel buffer) i 100 (start p)).
Proof.
  intros Hp. apply detectLoopPoints_accepted in Hp. apply accepted_shape in Hp.
  destruct Hp as (t & i & Ht & Hend & Hi & _ & Hstart & _).
  split.
  - exists t. split; [exact Ht |]. split; [exact Hend |].
    rewrite Hend. apply findZeroCrossing_fallback.
  - exists i. split; [exact Hi |]. split; [exact Hstart |].
    rewrite Hstart. apply findZeroCrossing_fallback.
Qed.

Lemma detectLoopPoints_offsets_snapped_witness :
  In silenceLoop75 (detectLoopPoints (silence 88200 : AudioBuffer float))
  /\ ((exists regionEndTarget,
          In regionEndTarget
            (candidateEndRegions (frameCount (silence 88200 : AudioBuffer float)))
          /\ end_ silenceLoop75
             = findZeroCrossing (firstChannel (silence 88200 : AudioBuffer float))
                 regionEndTarget 2000
          /\ snapOf (firstChannel (silence 88200 : AudioBuffer float))
               regionEndTarget 2000 (end_ silenceLoop75))
      /\ (exists i,
             0 <= i < end_ silenceLoop75 - 1000
             /\ start silenceLoop75
                = findZeroCrossing (firstChannel (silence 88200 : AudioBuffer float))
                    i 100
             /\ snapOf (firstChannel (silence 88200 : AudioBuffer float))
                  i 100 (start silenceLoop75))).
Proof.
  split; [exact silenceLoop75_returned_float |].
  exact (detectLoopPoints_offsets_snapped (silence 88200 : AudioBuffer float)
           silenceLoop75 silenceLoop75_returned_float).
Defined.

(** C2 fails as stated: on two seconds of silence the detector returns a
    candidate whose start 0 and end 66150 are the probed positions
    themselves, with no sign change at them or next to them. *)
Lemma detectLoopPoints_offsets_snapped_counterexample :
  In silenceLoop75 (detectLoopPoints (silence 88200 : AudioBuffer float))
  /\ crossing (firstChannel (silence 88200 : AudioBuffer float))
       (start silenceLoop75) = false
  /\ crossing (firstChannel (silence 88200 : AudioBuffer float))
       (start silenceLoop75 - 1) = false
  /\ crossing (firstChannel (silence 88200 : AudioBuffer float))
       (end_ silenceLoop75) = false
  /\ crossing (firstChannel (silence 88200 : AudioBuffer float))
       (end_ silenceLoop75 - 1) = false.
Proof.
  split; [exact silenceLoop75_returned_float |].
  change (firstChannel (silence 88200 : AudioBuffer float))
    with (zeros 88200 : TypedArray float).
  repeat split; apply (@crossing_zeros float Float64 _).
Qed.

(** C1, as the detector has it.  On two seconds of silence at 44100 Hz
    every probe snaps to itself, and two flat windows inside the buffer
    score 100; the regions at 75% and 50% are returned with start 0 and
    score 100.  The region at [frameCount - 100] is not: the window of
    500 samples at its end 88100 runs past the buffer, so every pair
    scores 0. *)
Theorem detectLoopPoints_two_seconds_of_silence :
  let buffer : AudioBuffer float := silence 88200 in
  let data := getChannelData buffer 0 in
  frameCount buffer = 88200
  /\ candidateEndRegions (frameCount buffer) = [88100; 66150; 44100]
  /\ findZeroCrossing data 88100 2000 = 88100
  /\ findZeroCrossing data 66150 2000 = 66150
  /\ findZeroCrossing data 44100 2000 = 44100
  /\ calculateCorrelation data 0 88100 500 = 0%float
  /\ calculateCorrelation data 0 66150 500 = 100%float
  /\ calculateCorrelation data 0 44100 500 = 100%float
  /\ detectLoopPoints buffer = [silenceLoop75; silenceLoop50].
Proof.
  intros buffer data. subst buffer data. rewrite getChannelData_0.
  unfold frameCount.
  change (firstChannel (silence 88200 : AudioBuffer float))
    with (zeros 88200 : TypedArray float).
  rewrite (@len_zeros float Float64) by lia.
  rewrite !(@findZeroCrossing_zeros float Float64 _).
  rewrite !(@calculateCorrelation_zeros_end float Float64 _ _) by lia.
  do 8 (split; [reflexivity |]).
  exact detectLoopPoints_silence_float.
Qed.

(** C1 fails as stated: the end region near [frameCount - 100], snapped,
    is the offset 88100; no returned candidate ends there, nor anywhere in
    the 2000 samples around it. *)
Lemma detectLoopPoints_two_seconds_of_silence_counterexample :
  findZeroCrossing (firstChannel (silence 88200 : AudioBuffer float))
    (frameCount (silence 88200 : AudioBuffer float) - 100) 2000 = 88100
  /\ ~ (exists p,
          In p (detectLoopPoints (silence 88200 : AudioBuffer float))
          /\ 88100 - 2000 <= end_ p).
Proof.
  split.
  - unfold frameCount.
    change (firstChannel (silence 88200 : AudioBuffer float))
      with (zeros 88200 : TypedArray float).
    rewrite (@len_zeros float Float64) by lia.
    apply (@findZeroCrossing_zeros float Float64 _).
  - rewrite detectLoopPoints_silence_float.
    intros (p & [<- | [<- | []]] & Hend); vm_compute in Hend; apply Hend;
      reflexivity.
Qed.

(* ================================================================== *)
(** * The writer *)

(** ** Lengths *)

Lemma len_nonneg {A : Type} (l : list A) : 0 <= len l.
Proof. unfold len. lia. Qed.

Lemma len_app {A : Type} (a b : list A) : len (a ++ b) = len a + len b.
Proof. unfold len. rewrite length_app. lia. Qed.

Lemma len_cons {A : Type} (x : A) (l : list A) : len (x :: l) = 1 + len l.
Proof. unfold len. cbn [List.length]. lia. Qed.

Lemma len_nil {A : Type} : len (@nil A) = 0.
Proof. reflexivity. Qed.

Lemma len_repeat {A : Type} (x : A) (n : Z) :
  0 <= n -> len (repeat x (Z.to_nat n)) = n.
Proof. intros Hn. unfold len. rewrite repeat_length. lia. Qed.

Lemma len_le_bytes (k : nat) (v : Z) : len (le_bytes k v) = Z.of_nat k.
Proof.
  revert v. induction k as [| k IH]; intros v.
  - reflexivity.
  - cbn [le_bytes]. rewrite len_cons, IH. lia.
Qed.

Lemma len_firstn {A : Type} (n : Z) (l : list A) :
  0 <= n <= len l -> len (firstn (Z.to_nat n) l) = n.
Proof.
  unfold len. intros Hn. rewrite length_firstn. lia.
Qed.

Lemma len_skipn {A : Type} (n : Z) (l : list A) :
  0 <= n <= len l -> len (skipn (Z.to_nat n) l) = len l - n.
Proof.
  unfold len. intros Hn. rewrite length_skipn. lia.
Qed.

Lemma firstn_len_app {A : Type} (a b : list A) :
  firstn (Z.to_nat (len a)) (a ++ b) = a.
Proof.
  unfold len. rewrite Nat2Z.id.
  rewrite firstn_app, Nat.sub_diag, firstn_all. simpl. apply app_nil_r.
Qed.

Lemma skipn_len_app {A : Type} (a b : list A) :
  skipn (Z.to_nat (len a)) (a ++ b) = b.
Proof.
  unfold len. rewrite Nat2Z.id.
  rewrite skipn_app, Nat.sub_diag, skipn_all. reflexivity.
Qed.

(** ** Writers *)

Lemma emits_setBytes (pos : Z) (bytes : list byte) :
  emits (setBytes pos bytes) pos bytes.
Proof.
  intros pre old post Hpre Hold. unfold setBytes.
  pose proof (len_nonneg pre). pose proof (len_nonneg post).
  rewrite !len_app.
  destruct (Z.leb_spec 0 pos); [| lia].
  destruct (Z.leb_spec (pos + len bytes) (len pre + (len old + len post)));
    [| lia].
  cbn [andb]. subst pos. rewrite firstn_len_app.
  replace (len pre + len bytes) with (len (pre ++ old))
    by (rewrite len_app; lia).
  rewrite (app_assoc pre old post), skipn_len_app. reflexivity.
Qed.

Lemma emits_ret (pos : Z) : emits (ret tt) pos [].
Proof.
  intros pre old post _ Hold. unfold ret.
  destruct old; [reflexivity | rewrite len_cons, len_nil in Hold].
  pose proof (len_nonneg old). lia.
Qed.

(** Two writers one after the other, the second where the first ended. *)
Lemma emits_bind (w1 w2 : Writer unit) (pos pos' : Z) (b1 b2 : list byte) :
  emits w1 pos b1 -> pos' = pos + len b1 -> emits w2 pos' b2 ->
  emits (w1 ;; w2) pos (b1 ++ b2).
Proof.
  intros H1 Hpos H2 pre old post Hpre Hold. unfold bind.
  rewrite len_app in Hold.
  pose proof (len_nonneg b1). pose proof (len_nonneg b2).
  rewrite <- (firstn_skipn (Z.to_nat (len b1)) old), <- app_assoc.
  rewrite H1; [| exact Hpre | apply len_firstn; lia].
  rewrite (app_assoc pre b1).
  rewrite H2.
  - rewrite <- !app_assoc. reflexivity.
  - rewrite len_app. lia.
  - rewrite len_skipn; lia.
Qed.

Lemma charCode_range (c : ascii) : 0 <= charCode c < 256.
Proof.
  unfold charCode. pose proof (N_ascii_bounded c). lia.
Qed.

Lemma emits_writeString (string : string) :
  forall offset, emits (writeString offset string) offset (tagBytes string).
Proof.
  induction string as [| c rest IH]; intros offset.
  - apply emits_ret.
  - cbn [writeString].
    change (tagBytes (String c rest)) with ([charCode c] ++ tagBytes rest).
    eapply emits_bind; [| reflexivity |].
    + unfold setUint8. cbn [le_bytes].
      rewrite Z.mod_small by apply charCode_range. apply emits_setBytes.
    + apply IH.
Qed.

Lemma emits_setUint16 (pos v : Z) : emits (setUint16 pos v) pos (le_bytes 2 v).
Proof. apply emits_setBytes. Qed.

Lemma emits_setUint32 (pos v : Z) : emits (setUint32 pos v) pos (le_bytes 4 v).
Proof. apply emits_setBytes. Qed.

(** ** The interleaving loops *)

Lemma store_at {A : Type} (pre : list A) (x v : A) (post : list A) (k : Z) :
  k = len pre -> store (pre ++ x :: post) k v = pre ++ v :: post.
Proof.
  intros ->. unfold store. pose proof (len_nonneg pre).
  destruct (Z.ltb_spec (len pre) 0); [lia |].
  unfold len. rewrite Nat2Z.id. clear.
  induction pre as [| y pre IH]; simpl; [reflexivity | rewrite IH; reflexivity].
Qed.

Lemma zrange_succ (n : Z) : 0 <= n -> zrange (n + 1) = zrange n ++ [n].
Proof.
  intros Hn. unfold zrange.
  replace (Z.to_nat (n + 1)) with (Z.to_nat n + 1)%nat by lia.
  rewrite seq_app, map_app. simpl. rewrite Z2Nat.id by lia. reflexivity.
Qed.

Lemma zrange_nonpos (n : Z) : n <= 0 -> zrange n = [].
Proof.
  intros Hn. unfold zrange. replace (Z.to_nat n) with O by lia. reflexivity.
Qed.

Lemma len_zrange (n : Z) : 0 <= n -> len (zrange n) = n.
Proof.
  intros Hn. unfold zrange, len. rewrite length_map, length_seq. lia.
Qed.

Lemma in_zrange (n k : Z) : In k (zrange n) <-> 0 <= k < n.
Proof.
  unfold zrange. rewrite in_map_iff. split.
  - intros (i & <- & Hi). apply in_seq in Hi. lia.
  - intros Hk. exists (Z.to_nat k). split; [lia |]. apply in_seq. lia.
Qed.

Lemma len_flat_map_const {A B : Type} (f : A -> list B) (w : Z) (l : list A) :
  (forall x, In x l -> len (f x) = w) -> len (flat_map f l) = len l * w.
Proof.
  induction l as [| x l IH]; intros Hf.
  - reflexivity.
  - cbn [flat_map]. rewrite len_app, len_cons, IH, Hf.
    + lia.
    + left. reflexivity.
    + intros y Hy. apply Hf. right. exact Hy.
Qed.

(** A counting loop whose turn [k] replaces the [k]-th chunk of [w]
    elements after [base] fills the chunks one after the other. *)
Lemma for_loop_fill {A : Type} (base w n : Z) (g : Z -> list A -> list A)
    (chunk : Z -> list A) :
  0 <= w ->
  (forall k, 0 <= k < n -> len (chunk k) = w) ->
  (forall k pre old post,
      0 <= k < n -> len pre = base + k * w -> len old = w ->
      g k (pre ++ old ++ post) = pre ++ chunk k ++ post) ->
  forall pre old post,
    len pre = base -> len old = n * w ->
    for_loop 0 n 1 g (pre ++ old ++ post)
    = pre ++ flat_map chunk (zrange n) ++ post.
Proof.
  intros Hw Hlen Hg pre old post Hpre Hold.
  destruct (Z.le_gt_cases n 0) as [Hn | Hn].
  - rewrite for_loop_unfold by lia.
    destruct (Z.ltb_spec 0 n); [lia |].
    rewrite zrange_nonpos by lia.
    assert (len old = 0) by (pose proof (len_nonneg old); nia).
    destruct old; [reflexivity | rewrite len_cons in *].
    pose proof (len_nonneg old). lia.
  - assert (K : forall j : nat, (j <= Z.to_nat n)%nat ->
                forall rest,
                  len rest = Z.of_nat j * w ->
                  for_loop (n - Z.of_nat j) n 1 g
                    (pre ++ flat_map chunk (zrange (n - Z.of_nat j))
                         ++ rest ++ post)
                  = pre ++ flat_map chunk (zrange n) ++ post).
    { induction j as [| j IH]; intros Hj rest Hrest.
      - rewrite for_loop_unfold by lia.
        destruct (Z.ltb_spec (n - Z.of_nat 0) n); [lia |].
        replace (n - Z.of_nat 0) with n by lia.
        destruct rest; [reflexivity | rewrite len_cons in Hrest].
        pose proof (len_nonneg rest). lia.
      - rewrite for_loop_unfold by lia.
        destruct (Z.ltb_spec (n - Z.of_nat (S j)) n); [| lia].
        set (k := n - Z.of_nat (S j)) in *.
        assert (Hk : 0 <= k < n) by lia.
        rewrite <- (firstn_skipn (Z.to_nat w) rest).
        rewrite (app_assoc pre), <- (app_assoc (firstn _ rest)).
        rewrite Hg; [| exact Hk | | apply len_firstn; nia].
        + replace (k + 1) with (n - Z.of_nat j) by lia.
          rewrite <- IH with (rest := skipn (Z.to_nat w) rest);
            [| lia | rewrite len_skipn; nia].
          replace (n - Z.of_nat j) with (k + 1) by lia.
          rewrite zrange_succ by lia.
          rewrite flat_map_app. cbn [flat_map]. rewrite app_nil_r.
          rewrite <- !app_assoc. reflexivity.
        + rewrite len_app, Hpre.
          rewrite (len_flat_map_const chunk w).
          * rewrite len_zrange by lia. lia.
          * intros x Hx. apply Hlen. apply in_zrange in Hx. lia. }
    specialize (K (Z.to_nat n) (Nat.le_refl _) old).
    rewrite Z2Nat.id in K by lia. rewrite Z.sub_diag in K.
    cbn [zrange Z.to_nat seq map flat_map app] in K.
    apply K. lia.
Qed.

Section Layout.

Context {N : Type} `{JsNumber N}.

Lemma numberOfChannels_pos (buffer : AudioBuffer N) :
  1 <= numberOfChannels buffer.
Proof.
  unfold numberOfChannels, channelList. rewrite len_cons.
  pose proof (len_nonneg (otherChannels buffer)). lia.
Qed.

Lemma frameCount_nonneg (buffer : AudioBuffer N) : 0 <= frameCount buffer.
Proof. apply len_nonneg. Qed.

(** The two nested loops write the samples in file order. *)
Lemma interleave_pcmSamples (buffer : AudioBuffer N) :
  interleave buffer = pcmSamples buffer.
Proof.
  unfold interleave, pcmSamples.
  pose proof (numberOfChannels_pos buffer) as Hc.
  pose proof (frameCount_nonneg buffer) as Hf.
  set (numChannels := numberOfChannels buffer) in *.
  set (frames := frameCount buffer) in *.
  set (zero := repeat 0 (Z.to_nat (frames * numChannels))).
  rewrite <- (app_nil_r zero) at 1.
  change (zero ++ []) with ([] ++ zero ++ []).
  rewrite (for_loop_fill 0 numChannels frames _
             (fun i => flat_map
                (fun channel => [pcm16 (getChannelData buffer channel).[i]])
                (zrange numChannels))).
  - rewrite app_nil_r. reflexivity.
  - lia.
  - intros i Hi. rewrite (len_flat_map_const _ 1).
    + rewrite len_zrange by lia. lia.
    + intros x _. reflexivity.
  - intros i pre old post Hi Hpre Hold.
    apply (for_loop_fill (i * numChannels) 1 numChannels
             (fun channel data =>
                store data (i * numChannels + channel)
                  (pcm16 (getChannelData buffer channel).[i]))
             (fun channel => [pcm16 (getChannelData buffer channel).[i]])).
    + lia.
    + intros k _. reflexivity.
    + intros k pre' old' post' Hk Hpre' Hold'.
      destruct old' as [| x [| y old']];
        [discriminate | | rewrite !len_cons in Hold';
                          pose proof (len_nonneg old'); lia].
      apply store_at. lia.
    + lia.
    + lia.
  - reflexivity.
  - unfold zero. rewrite len_repeat by nia. reflexivity.
Qed.

Lemma len_pcmSamples (buffer : AudioBuffer N) :
  len (pcmSamples buffer) = frameCount buffer * numberOfChannels buffer.
Proof.
  pose proof (numberOfChannels_pos buffer). pose proof (frameCount_nonneg buffer).
  unfold pcmSamples.
  rewrite (len_flat_map_const _ (numberOfChannels buffer)).
  - rewrite len_zrange by lia. reflexivity.
  - intros i _. rewrite (len_flat_map_const _ 1).
    + rewrite len_zrange by lia. lia.
    + intros x _. reflexivity.
Qed.

Lemma len_int16Bytes (data : list Z) : len (int16Bytes data) = len data * 2.
Proof.
  unfold int16Bytes. apply len_flat_map_const.
  intros x _. apply (len_le_bytes 2).
Qed.

End Layout.

(** ** The file, block after block *)

Ltac emit_step :=
  eapply emits_bind;
  [ first [ apply emits_writeString | apply emits_setUint32
          | apply emits_setUint16 ]
  | reflexivity
  | ].

Lemma emits_writeSmpl (pos sampleRate : Z) (loopPoint : LoopPoint) :
  emits (writeSmpl pos (36 + 24) sampleRate loopPoint) pos
    (smplBytes sampleRate loopPoint).
Proof.
  unfold writeSmpl, smplBytes, smplHeader, smplLoop.
  rewrite <- !app_assoc.
  do 16 emit_step.
  apply emits_setUint32.
Qed.

Lemma len_smplBytes (sampleRate : Z) (loopPoint : LoopPoint) :
  len (smplBytes sampleRate loopPoint) = 8 + 60.
Proof. reflexivity. Qed.

Lemma len_smplHeader (sampleRate : Z) : len (smplHeader sampleRate) = 8 + 36.
Proof. reflexivity. Qed.

Lemma len_headerBytes (fileSize numChannels sampleRate dataChunkSize : Z) :
  len (headerBytes fileSize numChannels sampleRate dataChunkSize) = 44.
Proof. reflexivity. Qed.

Section ExportedFile.

Context {N : Type} `{JsNumber N}.

Lemma len_fileBytes (buffer : AudioBuffer N) (loopPoint : option LoopPoint) :
  len (fileBytes buffer loopPoint)
  = outerSize buffer match loopPoint with Some _ => true | None => false end
    + 8.
Proof.
  unfold fileBytes, outerSize.
  rewrite !len_app, len_headerBytes, len_int16Bytes, len_pcmSamples.
  destruct loopPoint as [loopPoint |].
  - rewrite len_smplBytes. lia.
  - rewrite len_nil. lia.
Qed.

(** [exportWavWithSmpl] never fails, and returns the blocks of
    [fileBytes]. *)
Lemma exportWavWithSmpl_fileBytes (buffer : AudioBuffer N)
    (loopPoint : option LoopPoint) :
  exportWavWithSmpl buffer loopPoint = Some (fileBytes buffer loopPoint).
Proof.
  unfold exportWavWithSmpl.
  set (fileSize := 4 + (8 + 16)
                   + (8 + frameCount buffer * numberOfChannels buffer * 2)
                   + match loopPoint with
                     | Some _ => 8 + match loopPoint with
                                     | Some _ => 36 + 24
                                     | None => 0
                                     end
                     | None => 0
                     end).
  assert (Hsize : fileSize
                  = outerSize buffer
                      match loopPoint with Some _ => true | None => false end).
  { unfold fileSize, outerSize. destruct loopPoint; reflexivity. }
  match goal with
  | |- match ?w _ with _ => _ end = _ =>
      assert (Hw : emits w 0 (fileBytes buffer loopPoint))
  end.
  { unfold fileBytes, headerBytes. rewrite <- Hsize.
    rewrite <- !app_assoc. rewrite interleave_pcmSamples.
    do 13 emit_step.
    eapply emits_bind; [apply emits_setBytes | |].
    - rewrite len_int16Bytes, len_pcmSamples. reflexivity.
    - destruct loopPoint as [loopPoint |].
      + apply emits_writeSmpl.
      + apply emits_ret. }
  pose proof (frameCount_nonneg buffer). pose proof (numberOfChannels_pos buffer).
  specialize (Hw [] (repeat 0 (Z.to_nat (fileSize + 8))) []).
  rewrite !app_nil_r in Hw. cbn [app] in Hw.
  rewrite Hw; [reflexivity | reflexivity |].
  rewrite len_fileBytes, <- Hsize. apply len_repeat.
  unfold fileSize. destruct loopPoint; nia.
Qed.

End ExportedFile.

(** ** Reading back what was written *)

Lemma le_value_le_bytes (k : nat) (v : Z) :
  le_value (le_bytes k v) = v mod 256 ^ Z.of_nat k.
Proof.
  revert v. induction k as [| k IH]; intros v.
  - cbn. rewrite Z.mod_1_r. reflexivity.
  - cbn [le_bytes le_value]. rewrite IH.
    rewrite Nat2Z.inj_succ, Z.pow_succ_r by lia.
    rewrite Z.rem_mul_r by lia. reflexivity.
Qed.

Lemma slice_app (pre mid post : list byte) :
  slice (pre ++ mid ++ post) (len pre) (List.length mid) = mid.
Proof.
  unfold slice. rewrite skipn_len_app.
  rewrite firstn_app, Nat.sub_diag, firstn_all. simpl. apply app_nil_r.
Qed.

Lemma getUint32_at (pre post : list byte) (v pos : Z) :
  pos = len pre ->
  getUint32 (pre ++ le_bytes 4 v ++ post) pos = v mod 2 ^ 32.
Proof.
  intros ->. unfold getUint32.
  change 4%nat with (List.length (le_bytes 4 v)).
  rewrite slice_app, le_value_le_bytes. reflexivity.
Qed.

Lemma wrapInt16_range (z : Z) : -32768 <= wrapInt16 z < 32768.
Proof.
  unfold wrapInt16. pose proof (Z.mod_pos_bound z 65536 ltac:(lia)).
  destruct (Z.geb_spec (z mod 65536) 32768); lia.
Qed.

Lemma wrapInt16_small (z : Z) : -32768 <= z < 32768 -> wrapInt16 z = z.
Proof.
  intros Hz. unfold wrapInt16.
  destruct (Z.neg_nonneg_cases z) as [Hn | Hp].
  - replace (z mod 65536) with (z + 65536).
    + destruct (Z.geb_spec (z + 65536) 32768); lia.
    + apply Z.mod_unique with (-1); lia.
  - rewrite Z.mod_small by lia.
    destruct (Z.geb_spec z 32768); lia.
Qed.

Lemma wrapInt16_mod (z : Z) : wrapInt16 (z mod 65536) = wrapInt16 z.
Proof.
  unfold wrapInt16. rewrite Z.mod_mod by lia. reflexivity.
Qed.

(** The two bytes of a 16-bit code give the code back. *)
Lemma decodeInt16_int16Bytes (data : list Z) :
  Forall (fun x => -32768 <= x < 32768) data ->
  decodeInt16 (int16Bytes data) = data.
Proof.
  induction 1 as [| x data Hx _ IH].
  - reflexivity.
  - unfold int16Bytes in *.
    change (flat_map (le_bytes 2) (x :: data))
      with (le_bytes 2 x ++ flat_map (le_bytes 2) data).
    change (le_bytes 2 x) with [x mod 256; (x / 256) mod 256].
    cbn [app decodeInt16].
    rewrite IH. f_equal.
    rewrite <- Z.rem_mul_r by lia. change (256 * 256) with 65536.
    rewrite wrapInt16_mod. apply wrapInt16_small. exact Hx.
Qed.

Section Fields.

Context {N : Type} `{JsNumber N}.

(** The two fields of the loop record hold the offsets of the loop as
    unsigned 32-bit integers. *)
Lemma smpl_loop_fields (buffer : AudioBuffer N) (loopPoint : LoopPoint) :
  smplLoopStart buffer (fileBytes buffer (Some loopPoint))
    = start loopPoint mod 2 ^ 32
  /\ smplLoopEnd buffer (fileBytes buffer (Some loopPoint))
    = end_ loopPoint mod 2 ^ 32.
Proof.
  unfold smplLoopStart, smplLoopEnd, smplOffset, fileBytes, smplBytes.
  set (header := headerBytes _ _ _ _).
  set (pcm := int16Bytes (pcmSamples buffer)).
  assert (Hpcm : len pcm = frameCount buffer * numberOfChannels buffer * 2).
  { unfold pcm. rewrite len_int16Bytes, len_pcmSamples. reflexivity. }
  split.
  - replace (header ++ pcm ++ smplHeader (sampleRate buffer)
               ++ smplLoop loopPoint)
      with ((header ++ pcm ++ smplHeader (sampleRate buffer)
               ++ le_bytes 4 0 ++ le_bytes 4 0)
            ++ le_bytes 4 (start loopPoint)
            ++ (le_bytes 4 (end_ loopPoint) ++ le_bytes 4 0 ++ le_bytes 4 0))
      by (unfold smplLoop; rewrite <- !app_assoc; reflexivity).
    apply getUint32_at. rewrite !len_app, Hpcm. unfold header.
    rewrite len_headerBytes, len_smplHeader, !len_le_bytes. lia.
  - replace (header ++ pcm ++ smplHeader (sampleRate buffer)
               ++ smplLoop loopPoint)
      with ((header ++ pcm ++ smplHeader (sampleRate buffer)
               ++ le_bytes 4 0 ++ le_bytes 4 0
               ++ le_bytes 4 (start loopPoint))
            ++ le_bytes 4 (end_ loopPoint)
            ++ (le_bytes 4 0 ++ le_bytes 4 0))
      by (unfold smplLoop; rewrite <- !app_assoc; reflexivity).
    apply getUint32_at. rewrite !len_app, Hpcm. unfold header.
    rewrite len_headerBytes, len_smplHeader, !len_le_bytes. lia.
Qed.

End Fields.

(* ================================================================== *)
(** * The claims about the writer *)

(** C3, as the writer has it.  [exportWavWithSmpl] does not validate the
    loop: for a loop whose start or end lies outside
    [0, frameCount - 1] it still returns the complete file of
    [outerSize + 8] bytes, whose loop record carries the start and the end
    as unsigned 32-bit integers. *)
Theorem exportWavWithSmpl_writes_stray_loop {N : Type} `{JsNumber N}
    (buffer : AudioBuffer N) (loopPoint : LoopPoint) :
  ~ (0 <= start loopPoint <= frameCount buffer - 1
     /\ 0 <= end_ loopPoint <= frameCount buffer - 1) ->
  exists bytes,
    exportWavWithSmpl buffer (Some loopPoint) = Some bytes
    /\ len bytes = outerSize buffer true + 8
    /\ smplLoopStart buffer bytes = start loopPoint mod 2 ^ 32
    /\ smplLoopEnd buffer bytes = end_ loopPoint mod 2 ^ 32.
Proof.
  intros _. exists (fileBytes buffer (Some loopPoint)).
  split; [apply exportWavWithSmpl_fileBytes |].
  split; [apply (len_fileBytes buffer (Some loopPoint)) |].
  apply smpl_loop_fields.
Qed.

Lemma exportWavWithSmpl_writes_stray_loop_witness :
  ~ (0 <= start strayLoop <= frameCount (oneSample 1%float) - 1
     /\ 0 <= end_ strayLoop <= frameCount (oneSample 1%float) - 1)
  /\ exists bytes,
       exportWavWithSmpl (oneSample 1%float) (Some strayLoop) = Some bytes
       /\ len bytes = outerSize (oneSample 1%float) true + 8
       /\ smplLoopStart (oneSample 1%float) bytes = start strayLoop mod 2 ^ 32
       /\ smplLoopEnd (oneSample 1%float) bytes = end_ strayLoop mod 2 ^ 32.
Proof.
  assert (Hout : ~ (0 <= start strayLoop <= frameCount (oneSample 1%float) - 1
                    /\ 0 <= end_ strayLoop
                       <= frameCount (oneSample 1%float) - 1))
    by (vm_compute; intros [[_ Hle] _]; apply Hle; reflexivity).
  split; [exact Hout |].
  exact (exportWavWithSmpl_writes_stray_loop (oneSample 1%float) strayLoop Hout).
Defined.

(** C3 fails as stated: for a one-frame buffer and the loop from 5 to 10
    the writer does not reject; it returns a file whose loop record holds
    5 and 10. *)
Lemma exportWavWithSmpl_writes_stray_loop_counterexample :
  frameCount (oneSample 1%float) = 1
  /\ start strayLoop = 5 /\ end_ strayLoop = 10
  /\ exportWavWithSmpl (oneSample 1%float) (Some strayLoop) <> None
  /\ option_map (smplLoopStart (oneSample 1%float))
       (exportWavWithSmpl (oneSample 1%float) (Some strayLoop)) = Some 5
  /\ option_map (smplLoopEnd (oneSample 1%float))
       (exportWavWithSmpl (oneSample 1%float) (Some strayLoop)) = Some 10.
Proof.
  repeat split; try (vm_compute; reflexivity).
  vm_compute. discriminate.
Qed.

(** C5.  With a loop candidate the file has [outerSize + 8] bytes, where
    [outerSize = 4 + (8 + 16) + (8 + frameCount * channels * 2) + (8 + 60)],
    and the loop start and loop end fields of the loop-metadata block hold
    exactly the start and the end of the candidate.  The fields are
    unsigned 32-bit integers, so the offsets are taken in their range. *)
Theorem exportWavWithSmpl_with_loop {N : Type} `{JsNumber N}
    (buffer : AudioBuffer N) (loopPoint : LoopPoint) :
  0 <= start loopPoint < 2 ^ 32 ->
  0 <= end_ loopPoint < 2 ^ 32 ->
  exists bytes,
    exportWavWithSmpl buffer (Some loopPoint) = Some bytes
    /\ len bytes
       = 4 + (8 + 16) + (8 + frameCount buffer * numberOfChannels buffer * 2)
         + (8 + 60) + 8
    /\ smplLoopStart buffer bytes = start loopPoint
    /\ smplLoopEnd buffer bytes = end_ loopPoint.
Proof.
  intros Hs He. exists (fileBytes buffer (Some loopPoint)).
  split; [apply exportWavWithSmpl_fileBytes |].
  split; [apply (len_fileBytes buffer (Some loopPoint)) |].
  destruct (smpl_loop_fields buffer loopPoint) as [-> ->].
  rewrite !Z.mod_small by assumption. split; reflexivity.
Qed.

Lemma exportWavWithSmpl_with_loop_witness :
  0 <= start unitLoop < 2 ^ 32
  /\ 0 <= end_ unitLoop < 2 ^ 32
  /\ exists bytes,
       exportWavWithSmpl (oneSample 1%float) (Some unitLoop) = Some bytes
       /\ len bytes
          = 4 + (8 + 16)
            + (8 + frameCount (oneSample 1%float)
                   * numberOfChannels (oneSample 1%float) * 2)
            + (8 + 60) + 8
       /\ smplLoopStart (oneSample 1%float) bytes = start unitLoop
       /\ smplLoopEnd (oneSample 1%float) bytes = end_ unitLoop.
Proof.
  assert (Hs : 0 <= start unitLoop < 2 ^ 32) by (vm_compute; split; congruence).
  assert (He : 0 <= end_ unitLoop < 2 ^ 32) by (vm_compute; split; congruence).
  split; [exact Hs |]. split; [exact He |].
  exact (exportWavWithSmpl_with_loop (oneSample 1%float) unitLoop Hs He).
Defined.

(** C8.  One frame, one channel, sample 1.0, no loop: the file has 46
    bytes, declares the outer size 4 + (8 + 16) + (8 + 2) = 38, and its
    only sample is the little-endian 16-bit value 0x7FFF. *)
Theorem exportWavWithSmpl_one_sample :
  exists bytes,
    exportWavWithSmpl (oneSample 1%float) None = Some bytes
    /\ len bytes = 46
    /\ getUint32 bytes 4 = 4 + (8 + 16) + (8 + 2)
    /\ slice bytes 44 2 = [0xFF; 0x7F]
    /\ getUint16 bytes 44 = 0x7FFF
    /\ bytes
       = [82; 73; 70; 70; 38; 0; 0; 0; 87; 65; 86; 69;
          102; 109; 116; 32; 16; 0; 0; 0; 1; 0; 1; 0;
          68; 172; 0; 0; 136; 88; 1; 0; 2; 0; 16; 0;
          100; 97; 116; 97; 2; 0; 0; 0; 255; 127].
Proof.
  eexists. split; [vm_compute; reflexivity |].
  repeat split; vm_compute; reflexivity.
Qed.

(** ** Parsing a written file *)

Lemma map_flat_map {A B C : Type} (f : B -> C) (g : A -> list B) (l : list A) :
  map f (flat_map g l) = flat_map (fun x => map f (g x)) l.
Proof.
  induction l as [| x l IH]; simpl; [reflexivity |].
  rewrite map_app, IH. reflexivity.
Qed.

Section Parsing.

Context {N : Type} `{JsNumber N}.

Lemma pcmSamples_originalSamples (buffer : AudioBuffer N) :
  pcmSamples buffer = map pcm16 (originalSamples buffer).
Proof.
  unfold pcmSamples, originalSamples. rewrite map_flat_map.
  apply flat_map_ext. intros i. rewrite map_flat_map. reflexivity.
Qed.

Lemma pcmSamples_int16 (buffer : AudioBuffer N) :
  Forall (fun x => -32768 <= x < 32768) (pcmSamples buffer).
Proof.
  rewrite pcmSamples_originalSamples. apply Forall_forall.
  intros x Hx. apply in_map_iff in Hx. destruct Hx as (y & <- & _).
  apply wrapInt16_range.
Qed.

(** The header, fmt and data blocks of a file written without a loop
    give back the channel count, the sample rate and the 16-bit codes,
    provided each fits its field. *)
Lemma parseContainer_fileBytes (buffer : AudioBuffer N) :
  numberOfChannels buffer < 2 ^ 16 ->
  0 <= sampleRate buffer < 2 ^ 32 ->
  frameCount buffer * numberOfChannels buffer * 2 < 2 ^ 32 ->
  parseContainer (fileBytes buffer None)
  = Some {| parsedChannels := numberOfChannels buffer;
            parsedSampleRate := sampleRate buffer;
            parsedSamples := pcmSamples buffer |}.
Proof.
  intros Hc Hr Hd.
  pose proof (numberOfChannels_pos buffer) as Hc1.
  pose proof (frameCount_nonneg buffer) as Hf.
  pose proof (len_fileBytes buffer None) as Hlen.
  unfold parseContainer. unfold fileBytes in *.
  set (dataSize := frameCount buffer * numberOfChannels buffer * 2) in *.
  set (header := headerBytes (outerSize buffer false)
                   (numberOfChannels buffer) (sampleRate buffer) dataSize) in *.
  set (rest := int16Bytes (pcmSamples buffer) ++ []) in *.
  change (hasTag (header ++ rest) 0 "RIFF") with true.
  change (hasTag (header ++ rest) 8 "WAVE") with true.
  change (hasTag (header ++ rest) 12 "fmt ") with true.
  change (getUint32 (header ++ rest) 16 =? 16) with true.
  change (getUint16 (header ++ rest) 20 =? 1) with true.
  change (getUint16 (header ++ rest) 34 =? 16) with true.
  change (hasTag (header ++ rest) 36 "data") with true.
  cbn [andb].
  change (getUint32 (header ++ rest) 40) with (le_value (le_bytes 4 dataSize)).
  change (getUint16 (header ++ rest) 22)
    with (le_value (le_bytes 2 (numberOfChannels buffer))).
  change (getUint32 (header ++ rest) 24)
    with (le_value (le_bytes 4 (sampleRate buffer))).
  rewrite !le_value_le_bytes.
  change (256 ^ Z.of_nat 4) with (2 ^ 32). change (256 ^ Z.of_nat 2) with (2 ^ 16).
  rewrite !Z.mod_small by nia.
  unfold outerSize in Hlen. fold dataSize in Hlen.
  destruct (Z.leb_spec (44 + dataSize) (len (header ++ rest))); [| lia].
  f_equal. f_equal.
  change (slice (header ++ rest) 44 (Z.to_nat dataSize))
    with (firstn (Z.to_nat dataSize) rest).
  unfold rest. rewrite app_nil_r.
  assert (Hn : Z.to_nat dataSize = List.length (int16Bytes (pcmSamples buffer))).
  { pose proof (len_int16Bytes (pcmSamples buffer)) as Hb.
    rewrite len_pcmSamples in Hb. unfold len in Hb. unfold dataSize. lia. }
  rewrite Hn, firstn_all.
  apply decodeInt16_int16Bytes. apply pcmSamples_int16.
Qed.

End Parsing.

(** ** Quantisation in exact arithmetic *)

(** Clamping leaves a sample of [-1, 1] as it is. *)
Lemma exact_clamp (q : Q) :
  (-1 <= q <= 1)%Q ->
  exists s, Math_max (num (-1)) (Math_min (num 1) (Some q)) = Some s
            /\ (s == q)%Q.
Proof.
  intros [Hlo Hhi].
  cbn [Math_max Math_min num Exact Ex.max Ex.min Ex.lift2].
  change (inject_Z (-1)) with (-1)%Q. change (inject_Z 1) with 1%Q.
  destruct (Qle_bool 1 q) eqn:H1.
  - apply Qle_bool_iff in H1. change (Qle_bool (-1) 1) with true. cbv iota.
    exists 1%Q. split; [reflexivity | lra].
  - assert (Hb : Qle_bool (-1) q = true) by (apply Qle_bool_iff; exact Hlo).
    rewrite Hb. exists q. split; [reflexivity | reflexivity].
Qed.

Lemma pcm16_exact (q : Q) :
  (-1 <= q <= 1)%Q -> withinQuantisation (Some q) (pcm16 (Some q)).
Proof.
  intros Hq. destruct (exact_clamp q Hq) as (s & Hs & Hsq).
  unfold pcm16. rewrite Hs.
  cbn [num num_lt num_mul ToInteger Exact Ex.lt Ex.lift2].
  change (inject_Z 0) with 0%Q. change (inject_Z 32768) with 32768%Q.
  change (inject_Z 32767) with 32767%Q.
  unfold withinQuantisation, pcmScale.
  destruct Hq as [Hlo Hhi].
  destruct (Qle_bool 0 s) eqn:H0.
  - apply Qle_bool_iff in H0.
    assert (Hb : Qle_bool 0 q = true) by (apply Qle_bool_iff; lra).
    rewrite Hb. cbn [negb Ex.trunc].
    assert (Hv : Qle_bool 0 (s * 32767) = true) by (apply Qle_bool_iff; lra).
    rewrite Hv.
    pose proof (Qfloor_le (s * 32767)) as Hf1.
    pose proof (Qlt_floor (s * 32767)) as Hf2.
    assert (Hr : 0 <= Qfloor (s * 32767) <= 32767).
    { split.
      - apply Z.le_trans with (Qfloor 0); [vm_compute; discriminate |].
        apply Qfloor_resp_le. lra.
      - apply Z.le_trans with (Qfloor 32767); [| vm_compute; discriminate].
        apply Qfloor_resp_le. lra. }
    rewrite wrapInt16_small by lia.
    rewrite inject_Z_plus in Hf2. change (inject_Z 1) with 1%Q in Hf2.
    apply Qabs_Qlt_condition. lra.
  - assert (Hneg : (s < 0)%Q).
    { destruct (Qlt_le_dec s 0) as [Hc | Hc]; [exact Hc |].
      apply Qle_bool_iff in Hc. congruence. }
    assert (Hb : Qle_bool 0 q = false).
    { destruct (Qle_bool 0 q) eqn:Hb; [| reflexivity].
      apply Qle_bool_iff in Hb. lra. }
    rewrite Hb. cbn [negb Ex.trunc].
    assert (Hv : Qle_bool 0 (s * 32768) = false).
    { destruct (Qle_bool 0 (s * 32768)) eqn:Hv; [| reflexivity].
      apply Qle_bool_iff in Hv. lra. }
    rewrite Hv.
    pose proof (Qle_ceiling (s * 32768)) as Hc1.
    pose proof (Qceiling_lt (s * 32768)) as Hc2.
    assert (Hr : -32768 <= Qceiling (s * 32768) <= 0).
    { split.
      - apply Z.le_trans with (Qceiling (-32768)); [vm_compute; discriminate |].
        apply Qceiling_resp_le. lra.
      - apply Z.le_trans with (Qceiling 0); [| vm_compute; discriminate].
        apply Qceiling_resp_le. lra. }
    rewrite wrapInt16_small by lia.
    unfold Z.sub in Hc2. rewrite inject_Z_plus in Hc2.
    change (inject_Z (Z.opp 1)) with (-1)%Q in Hc2.
    apply Qabs_Qlt_condition. lra.
Qed.

(** ** Exact products in binary64 *)

Lemma digits2_pos_below (m : positive) : Zpos m < 2 ^ Zpos (digits2_pos m).
Proof.
  induction m as [m IH | m IH |]; cbn [digits2_pos].
  - rewrite Pos2Z.inj_succ, Z.pow_succ_r by lia. lia.
  - rewrite Pos2Z.inj_succ, Z.pow_succ_r by lia. lia.
  - reflexivity.
Qed.

(** The number of digits is determined by the two powers of 2 around the
    mantissa. *)
Lemma digits2_pos_unique (m : positive) (d : Z) :
  2 ^ (d - 1) <= Zpos m < 2 ^ d -> 0 < d -> Zpos (digits2_pos m) = d.
Proof.
  intros [Hlo Hhi] Hd.
  pose proof (digits2_pos_lower m) as H1. pose proof (digits2_pos_below m) as H2.
  assert (Zpos (digits2_pos m) <= d) by (apply digits2_pos_upper; lia).
  destruct (Z.lt_ge_cases (Zpos (digits2_pos m)) d) as [Hlt | Hge]; [| lia].
  assert (2 ^ Zpos (digits2_pos m) <= 2 ^ (d - 1)) by (apply Z.pow_le_mono_r; lia).
  lia.
Qed.

(** Shifting out zero bits is exact. *)
Lemma shr_1_exact (m : Z) :
  0 <= m -> (2 | m) ->
  shr_1 {| shr_m := m; shr_r := false; shr_s := false |}
  = {| shr_m := m / 2; shr_r := false; shr_s := false |}.
Proof.
  intros Hm [q Hq]. subst m. rewrite Z.div_mul by lia.
  destruct q as [| q | q]; [reflexivity | | lia].
  replace (Zpos q * 2) with (Zpos q~0) by lia. reflexivity.
Qed.

Lemma iter_shr_1_exact (p : positive) :
  forall m, 0 <= m -> (2 ^ Zpos p | m) ->
    iter_pos shr_1 p {| shr_m := m; shr_r := false; shr_s := false |}
    = {| shr_m := m / 2 ^ Zpos p; shr_r := false; shr_s := false |}.
Proof.
  assert (Hpow : forall q : positive, 0 < 2 ^ Zpos q)
    by (intros q; apply Z.pow_pos_nonneg; lia).
  assert (Hdiv : forall a b m, 0 < a -> 0 < b -> (a * b | m) -> (b | m / a)).
  { intros a b m Ha Hb [q Hq]. exists q. subst m.
    replace (q * (a * b)) with (q * b * a) by lia. apply Z.div_mul. lia. }
  induction p as [p IH | p IH |]; intros m Hm Hd; cbn [iter_pos].
  - pose proof (Hpow p).
    assert (E : 2 ^ Zpos p~1 = 2 * (2 ^ Zpos p * 2 ^ Zpos p)).
    { rewrite Pos2Z.inj_xI.
      replace (2 * Zpos p + 1) with (1 + (Zpos p + Zpos p)) by lia.
      rewrite !Z.pow_add_r by lia. reflexivity. }
    rewrite E in *.
    rewrite shr_1_exact; [| exact Hm | ].
    2: { destruct Hd as [q Hq]. exists (q * (2 ^ Zpos p * 2 ^ Zpos p)). lia. }
    rewrite IH; [| apply Z.div_pos; lia | ].
    2: { apply Hdiv in Hd; [| lia | nia].
         destruct Hd as [q Hq]. exists (q * 2 ^ Zpos p). lia. }
    rewrite IH; [| apply Z.div_pos; [apply Z.div_pos |]; lia | ].
    2: { apply Hdiv in Hd; [| lia | nia]. apply Hdiv in Hd; [exact Hd | lia | lia]. }
    rewrite !Z.div_div by nia. reflexivity.
  - pose proof (Hpow p).
    assert (E : 2 ^ Zpos p~0 = 2 ^ Zpos p * 2 ^ Zpos p).
    { rewrite <- Z.pow_add_r by lia. f_equal. lia. }
    rewrite E in *.
    rewrite IH; [| exact Hm |].
    2: { destruct Hd as [q Hq]. exists (q * 2 ^ Zpos p). lia. }
    rewrite IH; [| apply Z.div_pos; lia | apply Hdiv in Hd; [exact Hd | lia | lia]].
    rewrite !Z.div_div by nia. reflexivity.
  - apply shr_1_exact; assumption.
Qed.

Lemma digits53_bounds (m : positive) :
  Zpos (digits2_pos m) = 53 -> 2 ^ 52 <= Zpos m < 2 ^ 53.
Proof.
  intros Hd. pose proof (digits2_pos_lower m) as H1.
  pose proof (digits2_pos_below m) as H2. rewrite Hd in *.
  change (53 - 1) with 52 in H1. lia.
Qed.

(** The product of two 53-digit mantissas whose low 53 bits are zero is
    computed without rounding. *)
Lemma SFmul_exact (s : bool) (m mk : positive) (e ek : Z) :
  Zpos (digits2_pos m) = 53 -> Zpos (digits2_pos mk) = 53 ->
  (2 ^ 53 | Zpos m * Zpos mk) ->
  -1074 <= e + ek + 52 -> e + ek + 53 <= 971 ->
  exists m' n,
    SFmul prec emax (S754_finite s m e) (S754_finite false mk ek)
    = S754_finite s m' (e + ek + n)
    /\ 52 <= n <= 53
    /\ Zpos m' * 2 ^ n = Zpos m * Zpos mk.
Proof.
  intros Hdm Hdk Hdiv Hlo Hhi.
  pose proof (digits53_bounds m Hdm) as Hm.
  pose proof (digits53_bounds mk Hdk) as Hk.
  cbn [SFmul]. rewrite xorb_false_r.
  unfold binary_round_aux.
  set (M := (m * mk)%positive).
  assert (HM : Zpos M = Zpos m * Zpos mk) by (unfold M; apply Pos2Z.inj_mul).
  assert (HMb : 2 ^ 104 <= Zpos M < 2 ^ 106).
  { rewrite HM. change (2 ^ 104) with (2 ^ 52 * 2 ^ 52).
    change (2 ^ 106) with (2 ^ 53 * 2 ^ 53). nia. }
  set (d := Zpos (digits2_pos M)).
  assert (Hd : 105 <= d <= 106).
  { pose proof (digits2_pos_lower M) as H1. pose proof (digits2_pos_below M) as H2.
    fold d in H1, H2. split.
    - destruct (Z.lt_ge_cases d 105) as [Hc | Hc]; [| lia].
      assert (2 ^ d <= 2 ^ 104) by (apply Z.pow_le_mono_r; lia). lia.
    - destruct (Z.lt_ge_cases 106 d) as [Hc | Hc]; [| lia].
      assert (2 ^ 106 <= 2 ^ (d - 1)) by (apply Z.pow_le_mono_r; lia). lia. }
  unfold shr_fexp at 1.
  cbn [Zdigits2 shr_record_of_loc]. fold d.
  assert (Hfexp : fexp prec emax (d + (e + ek)) = d + (e + ek) - 53).
  { unfold fexp, SpecFloat.emin, prec, emax. lia. }
  rewrite Hfexp.
  replace (d + (e + ek) - 53 - (e + ek)) with (d - 53) by lia.
  destruct (d - 53) as [| p | p] eqn:Hp; try lia.
  cbn [shr].
  assert (Hpow : 0 < 2 ^ Zpos p) by (apply Z.pow_pos_nonneg; lia).
  assert (Hdivp : (2 ^ Zpos p | Zpos M)).
  { rewrite HM. destruct Hdiv as [q Hq]. exists (q * 2 ^ (53 - Zpos p)).
    rewrite Hq. rewrite <- Z.mul_assoc, <- Z.pow_add_r by lia.
    do 2 f_equal. lia. }
  rewrite iter_shr_1_exact by (try exact Hdivp; lia).
  cbn [shr_m loc_of_shr_record round_nearest_even].
  destruct Hdivp as [m1 Hm1]. rewrite Hm1, Z.div_mul by lia.
  assert (Hm1b : 2 ^ 52 <= m1 < 2 ^ 53).
  { assert (Hlow : 2 ^ (d - 1) <= Zpos M) by apply digits2_pos_lower.
    assert (Hup : Zpos M < 2 ^ d) by apply digits2_pos_below.
    rewrite Hm1 in Hlow, Hup.
    replace (d - 1) with (52 + Zpos p) in Hlow by lia.
    replace d with (53 + Zpos p) in Hup by lia.
    rewrite Z.pow_add_r in Hlow, Hup by lia. nia. }
  destruct m1 as [| m1 | m1]; try lia.
  assert (Hd1 : Zpos (digits2_pos m1) = 53)
    by (apply digits2_pos_unique; [exact Hm1b | lia]).
  unfold shr_fexp. cbn [Zdigits2 shr_record_of_loc]. rewrite Hd1.
  assert (Hfexp1 : fexp prec emax (53 + (e + ek + Zpos p)) = e + ek + Zpos p).
  { unfold fexp, SpecFloat.emin, prec, emax. lia. }
  rewrite Hfexp1, Z.sub_diag. cbn [shr shr_m].
  destruct (Z.leb_spec (e + ek + Zpos p) (emax - prec)) as [_ | Hc];
    [| unfold emax, prec in Hc; lia].
  exists m1, (Zpos p). split; [reflexivity |]. split; [lia |].
  rewrite <- HM. exact (eq_sym Hm1).
Qed.

(** ** Comparisons in binary64 *)

Lemma SFcompare_antisym (x y : spec_float) (c : comparison) :
  SFcompare x y = Some c -> SFcompare y x = Some (CompOpp c).
Proof.
  destruct x as [sx | sx | | sx mx ex], y as [sy | sy | | sy my ey];
    cbn [SFcompare]; try discriminate;
    try (intros [= <-]; try destruct sx; try destruct sy; reflexivity).
  intros [= <-]. f_equal.
  destruct sx, sy; try reflexivity.
  - rewrite (Z.compare_antisym ex ey).
    destruct (ex ?= ey); cbn [CompOpp]; try reflexivity.
    rewrite CompOpp_involutive, Pos.compare_cont_antisym. reflexivity.
  - rewrite (Z.compare_antisym ex ey).
    destruct (ex ?= ey); cbn [CompOpp]; try reflexivity.
    rewrite Pos.compare_cont_antisym. reflexivity.
Qed.

Lemma SFcompare_eq_finite (x : spec_float) (s : bool) (m : positive) (e : Z) :
  SFcompare x (S754_finite s m e) = Some Eq -> x = S754_finite s m e.
Proof.
  destruct x as [sx | sx | | sx mx ex]; cbn [SFcompare]; try discriminate.
  - destruct s; discriminate.
  - destruct sx; discriminate.
  - intros [= H].
    destruct sx, s; try discriminate;
      destruct (ex ?= e) eqn:He; try discriminate;
      apply Z.compare_eq in He; subst ex.
    + destruct (Pos.compare_cont Eq mx m) eqn:Hm; try discriminate.
      apply Pos.compare_eq in Hm. subst. reflexivity.
    + apply Pos.compare_eq in H. subst. reflexivity.
Qed.

Lemma SFcompare_refl (x : spec_float) :
  x <> S754_nan -> SFcompare x x = Some Eq.
Proof.
  destruct x as [sx | sx | | sx mx ex]; cbn [SFcompare]; try congruence.
  - destruct sx; reflexivity.
  - intros _. rewrite Z.compare_refl, Pos.compare_cont_refl.
    destruct sx; reflexivity.
Qed.

(** What [<=] and [<] on floats say about [SFcompare]. *)
Lemma leb_compare (x y : float) :
  PrimFloat.leb x y = true ->
  SFcompare (Prim2SF x) (Prim2SF y) = Some Lt
  \/ SFcompare (Prim2SF x) (Prim2SF y) = Some Eq.
Proof.
  rewrite leb_spec. unfold SFleb.
  destruct (SFcompare (Prim2SF x) (Prim2SF y)) as [[| |] |];
    try discriminate; auto.
Qed.

Lemma ltb_compare (x y : float) :
  PrimFloat.ltb x y = true <-> SFcompare (Prim2SF x) (Prim2SF y) = Some Lt.
Proof.
  rewrite ltb_spec. unfold SFltb.
  destruct (SFcompare (Prim2SF x) (Prim2SF y)) as [[| |] |];
    split; congruence.
Qed.

Lemma leb_not_nan (x y : float) :
  PrimFloat.leb x y = true -> F64.is_nan x = false.
Proof.
  intros H. apply leb_compare in H. unfold F64.is_nan.
  rewrite eqb_spec. unfold SFeqb. rewrite SFcompare_refl; [reflexivity |].
  intros E. rewrite E in H. cbn in H. destruct H; discriminate.
Qed.

(** Clamping leaves a float between -1 and 1 as it is. *)
Lemma float_clamp (x : float) :
  PrimFloat.leb (-1) x = true -> PrimFloat.leb x 1 = true ->
  F64.max (-1) (F64.min 1 x) = x.
Proof.
  intros Hlo Hhi.
  assert (Hmin : F64.min 1 x = x).
  { unfold F64.min. change (F64.is_nan 1) with false.
    rewrite (leb_not_nan x 1 Hhi). cbv iota.
    destruct (leb_compare x 1 Hhi) as [Hc | Hc].
    - pose proof (SFcompare_antisym _ _ _ Hc) as Hc'. cbn [CompOpp] in Hc'.
      destruct (PrimFloat.ltb 1 x) eqn:H1.
      + apply ltb_compare in H1. congruence.
      + apply ltb_compare in Hc. rewrite Hc. reflexivity.
    - destruct (PrimFloat.ltb 1 x) eqn:H1.
      + apply ltb_compare in H1. apply SFcompare_antisym in Hc.
        cbn [CompOpp] in Hc. congruence.
      + destruct (PrimFloat.ltb x 1) eqn:H2; [reflexivity |].
        change (classify 1) with PNormal. cbv iota.
        apply Prim2SF_inj. symmetry.
        assert (E1 : Prim2SF 1 = S754_finite false 4503599627370496 (-52))
          by (vm_compute; reflexivity).
        rewrite E1 in *. apply SFcompare_eq_finite. exact Hc. }
  rewrite Hmin. unfold F64.max. change (F64.is_nan (-1)) with false.
  rewrite (leb_not_nan x 1 Hhi). cbv iota.
  destruct (leb_compare (-1) x Hlo) as [Hc | Hc].
  - apply ltb_compare in Hc. rewrite Hc. reflexivity.
  - destruct (PrimFloat.ltb (-1) x) eqn:H1; [reflexivity |].
    assert (Ex : x = (-1)%float).
    { apply Prim2SF_inj.
      assert (E1 : Prim2SF (-1) = S754_finite true 4503599627370496 (-52))
        by (vm_compute; reflexivity).
      apply SFcompare_antisym in Hc. cbn [CompOpp] in Hc.
      rewrite E1 in *. apply SFcompare_eq_finite. exact Hc. }
    rewrite Ex. vm_compute. reflexivity.
Qed.

(** ** Truncation of a quotient *)

Lemma quot_within_one (a b : Z) : 0 < b -> - b < a - b * Z.quot a b < b.
Proof.
  intros Hb. pose proof (Z.quot_rem' a b) as Hqr.
  assert (Hr : - b < Z.rem a b < b).
  { pose proof (Z.rem_bound_abs a b ltac:(lia)). lia. }
  generalize dependent (Z.rem a b). generalize (Z.quot a b). intros q r Hqr Hr.
  lia.
Qed.

Lemma Q_trunc_bound (a b n d : Z) :
  0 < b -> 0 < d -> a * d = b * n ->
  (Qabs (inject_Z (Z.quot a b) - inject_Z n / inject_Z d) < 1)%Q.
Proof.
  intros Hb Hd Heq. pose proof (quot_within_one a b Hb) as Hq.
  generalize dependent (Z.quot a b). intros c Hq.
  apply Qabs_Qlt_condition.
  unfold Qdiv, Qinv, Qminus, Qplus, Qopp, Qmult, Qlt, inject_Z; cbn [Qnum Qden].
  destruct d as [| d | d]; try lia. cbn [Qnum Qden].
  split; nia.
Qed.

(** ** Quantisation in binary64 *)

Lemma compare_cont_Eq_le (p q : positive) :
  Pos.compare_cont Eq p q <> Gt -> Zpos p <= Zpos q.
Proof.
  change (Pos.compare_cont Eq p q) with (Pos.compare p q).
  intros H. apply Pos.compare_le_iff in H. apply Pos2Z.pos_le_pos. exact H.
Qed.

(** The shape of a valid sample that is not zero. *)
Lemma validSample64_finite (x : float) (s : bool) (m : positive) (e : Z) :
  validSample64 x -> Prim2SF x = S754_finite s m e ->
  Zpos (digits2_pos m) = 53 /\ (2 ^ 29 | Zpos m)
  /\ -1074 < e <= -52 /\ Zpos m <= 2 ^ (- e).
Proof.
  intros (Hlo & Hhi & H32) Hx. unfold fitsBinary32 in H32. rewrite Hx in H32.
  destruct H32 as [Hdiv Hnorm].
  pose proof (Prim2SF_valid x) as Hv. rewrite Hx in Hv.
  cbn [valid_binary] in Hv. unfold bounded, canonical_mantissa in Hv.
  apply andb_true_iff in Hv. destruct Hv as [Hcan _].
  apply Z.eqb_eq in Hcan.
  assert (Hd : Zpos (digits2_pos m) = 53).
  { unfold fexp, SpecFloat.emin, prec, emax in Hcan. lia. }
  pose proof (digits53_bounds m Hd) as Hm.
  apply leb_compare in Hlo, Hhi. rewrite Hx in Hlo, Hhi.
  change (Prim2SF (-1)) with (S754_finite true 4503599627370496 (-52)) in Hlo.
  change (Prim2SF 1) with (S754_finite false 4503599627370496 (-52)) in Hhi.
  cbn [SFcompare] in Hlo, Hhi.
  assert (He : e < -52 \/ (e = -52 /\ Zpos m <= 2 ^ 52)).
  { destruct s.
    - destruct (-52 ?= e) eqn:E.
      + apply Z.compare_eq_iff in E. right. split; [lia |].
        change (2 ^ 52) with (Zpos 4503599627370496).
        destruct (Pos.compare_cont Eq 4503599627370496 m) eqn:Hc.
        * apply Pos.compare_eq in Hc. lia.
        * destruct Hlo as [Hlo | Hlo]; discriminate Hlo.
        * change (Pos.compare_cont Eq 4503599627370496 m)
            with (Pos.compare 4503599627370496 m) in Hc.
          apply Pos.compare_gt_iff in Hc. apply Pos2Z.pos_lt_pos in Hc. lia.
      + destruct Hlo as [Hlo | Hlo]; discriminate Hlo.
      + apply Z.compare_gt_iff in E. left. lia.
    - destruct (e ?= -52) eqn:E.
      + apply Z.compare_eq_iff in E. right. split; [lia |].
        change (2 ^ 52) with (Zpos 4503599627370496).
        apply compare_cont_Eq_le. intros Hc. rewrite Hc in Hhi.
        destruct Hhi as [Hhi | Hhi]; discriminate Hhi.
      + left. exact E.
      + destruct Hhi as [Hhi | Hhi]; discriminate Hhi. }
  split; [exact Hd |]. split; [exact Hdiv |]. split; [lia |].
  destruct He as [He | [-> Hm52]].
  - assert (2 ^ 53 <= 2 ^ (- e)) by (apply Z.pow_le_mono_r; lia). lia.
  - exact Hm52.
Qed.

Lemma pow2_Q (e : Z) : e <= 0 -> (2 ^ e == 1 / inject_Z (2 ^ (- e)))%Q.
Proof.
  intros He.
  rewrite (Zpower_Qpower 2 (- e)) by lia.
  change (inject_Z 2) with 2%Q.
  rewrite Qpower_opp. unfold Qdiv. rewrite Qinv_involutive.
  rewrite Qmult_1_l. reflexivity.
Qed.

Lemma inject_Z_pow2_nonzero (n : Z) : 0 <= n -> ~ (inject_Z (2 ^ n) == 0)%Q.
Proof.
  intros Hn. pose proof (Z.pow_pos_nonneg 2 n ltac:(lia) Hn) as Hpos.
  unfold Qeq, inject_Z. cbn [Qnum Qden]. lia.
Qed.

(** The integer stored for a valid sample times a scale [k]: the product is
    exact in binary64, so the stored code is its truncation. *)
Lemma trunc_scaled (x kf : float) (s : bool) (m mk : positive) (e ek k : Z) :
  Prim2SF x = S754_finite s m e ->
  Prim2SF kf = S754_finite false mk ek ->
  Zpos (digits2_pos m) = 53 -> Zpos (digits2_pos mk) = 53 ->
  (2 ^ 29 | Zpos m) -> (2 ^ 24 | Zpos mk) ->
  -1074 < e <= -52 -> Zpos m <= 2 ^ (- e) ->
  -38 <= ek <= -37 -> Zpos mk = k * 2 ^ (- ek) ->
  (Qabs (inject_Z (F64.trunc (PrimFloat.mul x kf))
         - inject_Z (F64.signed s m) * 2 ^ e * inject_Z k) < 1)%Q
  /\ (if s then - k <= F64.trunc (PrimFloat.mul x kf) <= 0
      else 0 <= F64.trunc (PrimFloat.mul x kf) <= k).
Proof.
  intros Hx Hk Hd Hdk [u Hu] [v Hv] He Hm Hek Hmk.
  destruct (SFmul_exact s m mk e ek Hd Hdk) as (m' & n & Hmul & Hn & Hprod).
  { exists (u * v). rewrite Hu, Hv.
    change (2 ^ 53) with (2 ^ 29 * 2 ^ 24). ring. }
  { lia. }
  { lia. }
  unfold F64.trunc. rewrite mul_spec, Hx, Hk. unfold SF64mul.
  rewrite Hmul.
  replace (0 <=? e + ek + n) with false by (symmetry; apply Z.leb_gt; lia).
  set (b := 2 ^ (- (e + ek + n))).
  set (d := 2 ^ (- e)) in *.
  assert (Hb : 0 < b) by (apply Z.pow_pos_nonneg; lia).
  assert (Hdpos : 0 < d) by (apply Z.pow_pos_nonneg; lia).
  assert (Hkpos : 0 < k).
  { assert (0 < 2 ^ (- ek)) by (apply Z.pow_pos_nonneg; lia). nia. }
  assert (Hpn : 0 < 2 ^ n) by (apply Z.pow_pos_nonneg; lia).
  assert (Hbn : b * 2 ^ n = d * 2 ^ (- ek)).
  { unfold b, d. rewrite <- !Z.pow_add_r by lia. f_equal. lia. }
  assert (Habs : Zpos m' * d = b * (Zpos m * k)).
  { apply (Z.mul_reg_r _ _ (2 ^ n)); [lia |].
    transitivity (Zpos m * (k * 2 ^ (- ek)) * d).
    - rewrite <- Hmk, <- Hprod. ring.
    - transitivity (b * 2 ^ n * (Zpos m * k)); [rewrite Hbn |]; ring. }
  assert (Hle : Zpos m' <= b * k).
  { apply (Z.mul_le_mono_pos_r _ _ d); [lia |]. rewrite Habs.
    transitivity (b * (d * k)); [| apply Z.eq_le_incl; ring].
    apply Z.mul_le_mono_nonneg_l; [lia |].
    apply Z.mul_le_mono_nonneg_r; lia. }
  assert (Hq : Zpos m' / b <= k).
  { apply Z.div_le_upper_bound; lia. }
  assert (Hq0 : 0 <= Zpos m' / b) by (apply Z.div_pos; lia).
  assert (Hsd : F64.signed s m' * d = b * (F64.signed s m * k)).
  { destruct s; cbn [F64.signed].
    - change (Z.neg m') with (- Zpos m'). change (Z.neg m) with (- Zpos m).
      lia.
    - exact Habs. }
  split.
  - assert (HA : (inject_Z (F64.signed s m) * 2 ^ e * inject_Z k
                  == inject_Z (F64.signed s m * k) / inject_Z d)%Q).
    { rewrite pow2_Q by lia. fold d. rewrite inject_Z_mult. field.
      apply inject_Z_pow2_nonzero. lia. }
    rewrite HA. apply Q_trunc_bound; assumption.
  - destruct s; cbn [F64.signed].
    + change (Z.neg m') with (- Zpos m').
      rewrite Z.quot_opp_l by lia. rewrite Z.quot_div_nonneg by lia. lia.
    + rewrite Z.quot_div_nonneg by lia. lia.
Qed.

(** Lines 23-24 in binary64: the stored code is less than one step away
    from the scaled sample. *)
Lemma pcm16_float (x : float) :
  validSample64 x -> withinQuantisation (exactValue x) (pcm16 x).
Proof.
  intros Hv. pose proof Hv as (Hlo & Hhi & H32).
  unfold pcm16. cbv zeta.
  change (Math_max (num (-1)) (Math_min (num 1) x))
    with (F64.max (-1) (F64.min 1 x)).
  rewrite (float_clamp x Hlo Hhi).
  change (num_lt x (num 0)) with (PrimFloat.ltb x 0).
  change (num_mul x (num 32768)) with (PrimFloat.mul x 32768).
  change (num_mul x (num 32767)) with (PrimFloat.mul x 32767).
  change (@ToInteger float Float64) with F64.trunc.
  rewrite ltb_spec.
  change (Prim2SF 0) with (S754_zero false).
  unfold exactValue.
  destruct (Prim2SF x) as [z | i | | s m e] eqn:Hx.
  - cbn [SFltb SFcompare]. unfold F64.trunc. rewrite mul_spec, Hx.
    change (Prim2SF 32767)
      with (S754_finite false 9006924376834048 (-38)).
    cbn [SF64mul SFmul]. reflexivity.
  - unfold fitsBinary32 in H32. rewrite Hx in H32. contradiction.
  - unfold fitsBinary32 in H32. rewrite Hx in H32. contradiction.
  - destruct (validSample64_finite x s m e Hv Hx) as (Hd & Hdiv & He & Hm).
    assert (Hs : SFltb (S754_finite s m e) (S754_zero false) = s)
      by (destruct s; reflexivity).
    rewrite Hs. unfold withinQuantisation.
    assert (Hpow : (0 < 2 ^ e)%Q).
    { apply Qpower_0_lt. reflexivity. }
    destruct s.
    + destruct (trunc_scaled x 32768 true m 4503599627370496 e (-37) 32768)
        as [Hq Hr]; try assumption; try reflexivity; try lia.
      { exists (2 ^ 28). reflexivity. }
      rewrite wrapInt16_small by lia.
      assert (Hneg : Qle_bool 0 (inject_Z (F64.signed true m) * 2 ^ e) = false).
      { apply not_true_is_false. intros Hc. apply Qle_bool_imp_le in Hc.
        assert (Hlt : (inject_Z (F64.signed true m) < 0)%Q).
        { unfold Qlt, inject_Z; cbn [Qnum Qden F64.signed]. lia. }
        generalize dependent (inject_Z (F64.signed true m)).
        generalize dependent (2 ^ e)%Q. intros p Hp q _ Hc Hlt. nra. }
      unfold pcmScale. rewrite Hneg. exact Hq.
    + destruct (trunc_scaled x 32767 false m 9006924376834048 e (-38) 32767)
        as [Hq Hr]; try assumption; try reflexivity; try lia.
      { exists (2 ^ 14 * 32767). reflexivity. }
      rewrite wrapInt16_small by lia.
      assert (Hpos : Qle_bool 0 (inject_Z (F64.signed false m) * 2 ^ e) = true).
      { apply Qle_bool_iff.
        assert (Hlt : (0 < inject_Z (F64.signed false m))%Q).
        { unfold Qlt, inject_Z; cbn [Qnum Qden F64.signed]. lia. }
        generalize dependent (inject_Z (F64.signed false m)).
        generalize dependent (2 ^ e)%Q. intros p Hp q _ Hlt. nra. }
      unfold pcmScale. rewrite Hpos. exact Hq.
Qed.

(** ** The round trip *)

Lemma originalSamples_valid {N : Type} `{JsNumber N} (valid : N -> Prop)
    (buffer : AudioBuffer N) :
  validWaveform valid buffer -> Forall valid (originalSamples buffer).
Proof.
  intros (_ & _ & _ & Hch). apply Forall_forall. intros x Hx.
  unfold originalSamples in Hx.
  apply in_flat_map in Hx. destruct Hx as (i & Hi & Hx).
  apply in_flat_map in Hx. destruct Hx as (channel & Hc & [<- | []]).
  apply in_zrange in Hi. apply in_zrange in Hc.
  rewrite Forall_forall in Hch.
  assert (Hin : In (getChannelData buffer channel) (channelList buffer)).
  { unfold getChannelData. apply nth_In.
    unfold numberOfChannels, len in Hc. lia. }
  destruct (Hch _ Hin) as [Hlen Hvalid].
  rewrite Forall_forall in Hvalid. apply Hvalid.
  unfold item. destruct (Z.ltb_spec i 0); [lia |].
  apply nth_In. unfold frameCount, len in Hlen, Hi. lia.
Qed.

Lemma quantised_samples_exact (samples : list Ex.t) :
  Forall validSample samples ->
  Forall2 withinQuantisation samples (map pcm16 samples).
Proof.
  induction 1 as [| x samples (q & -> & Hq) _ IH]; simpl; constructor.
  - apply pcm16_exact. exact Hq.
  - exact IH.
Qed.

Lemma quantised_samples (samples : list float) :
  Forall validSample64 samples ->
  Forall2 withinQuantisation (map exactValue samples) (map pcm16 samples).
Proof.
  induction 1 as [| x samples Hx _ IH]; simpl; constructor.
  - apply pcm16_float. exact Hx.
  - exact IH.
Qed.

(** The round trip in exact arithmetic. *)
Lemma exportWavWithSmpl_round_trip_exact (buffer : AudioBuffer Ex.t) :
  validWaveform validSample buffer ->
  exists bytes parsed,
    exportWavWithSmpl buffer None = Some bytes
    /\ parseContainer bytes = Some parsed
    /\ parsedChannels parsed = numberOfChannels buffer
    /\ parsedSampleRate parsed = sampleRate buffer
    /\ Forall2 withinQuantisation (originalSamples buffer)
         (parsedSamples parsed).
Proof.
  intros Hvalid.
  pose proof (originalSamples_valid _ buffer Hvalid) as Hsamples.
  destruct Hvalid as (Hc & Hr & Hd & _).
  exists (fileBytes buffer None).
  eexists. split; [apply exportWavWithSmpl_fileBytes |].
  split; [apply parseContainer_fileBytes; assumption |].
  cbn [parsedChannels parsedSampleRate parsedSamples].
  split; [reflexivity |]. split; [reflexivity |].
  rewrite pcmSamples_originalSamples. apply quantised_samples_exact.
  exact Hsamples.
Qed.

(** C6.  Writing a buffer without a loop and reading the header, fmt and
    data blocks back gives the channel count and the sample rate of the
    buffer, and one 16-bit code per sample, in file order, each less than
    one quantisation step away from the scaled sample; the scaling and the
    conversion are those of binary64. *)
Theorem exportWavWithSmpl_round_trip (buffer : AudioBuffer float) :
  validWaveform validSample64 buffer ->
  exists bytes parsed,
    exportWavWithSmpl buffer None = Some bytes
    /\ parseContainer bytes = Some parsed
    /\ parsedChannels parsed = numberOfChannels buffer
    /\ parsedSampleRate parsed = sampleRate buffer
    /\ Forall2 withinQuantisation (map exactValue (originalSamples buffer))
         (parsedSamples parsed).
Proof.
  intros Hvalid.
  pose proof (originalSamples_valid _ buffer Hvalid) as Hsamples.
  destruct Hvalid as (Hc & Hr & Hd & _).
  exists (fileBytes buffer None).
  eexists. split; [apply exportWavWithSmpl_fileBytes |].
  split; [apply parseContainer_fileBytes; assumption |].
  cbn [parsedChannels parsedSampleRate parsedSamples].
  split; [reflexivity |]. split; [reflexivity |].
  rewrite pcmSamples_originalSamples. apply quantised_samples.
  exact Hsamples.
Qed.

Lemma stereoThree_valid : validWaveform validSample64 stereoThree.
Proof.
  unfold validWaveform. split; [vm_compute; reflexivity |].
  split; [vm_compute; split; congruence |].
  split; [vm_compute; reflexivity |].
  assert (Hhalf : (2 ^ 29 | 4503599627370496)) by (exists (2 ^ 23); reflexivity).
  assert (Hthird : (2 ^ 29 | 5404319767592960))
    by (exists 10066330; reflexivity).
  repeat constructor; try exact I; try exact Hhalf; try exact Hthird.
Defined.

Lemma exportWavWithSmpl_round_trip_witness :
  validWaveform validSample64 stereoThree
  /\ exists bytes parsed,
       exportWavWithSmpl stereoThree None = Some bytes
       /\ parseContainer bytes = Some parsed
       /\ parsedChannels parsed = numberOfChannels stereoThree
       /\ parsedSampleRate parsed = sampleRate stereoThree
       /\ Forall2 withinQuantisation
            (map exactValue (originalSamples stereoThree))
            (parsedSamples parsed).
Proof.
  split; [exact stereoThree_valid |].
  exact (exportWavWithSmpl_round_trip stereoThree stereoThree_valid).
Defined.

(* ================================================================== *)
(** * Lemmas for the further properties *)

(** ** Identifiers, names and order of the candidates *)

Lemma StronglySorted_snoc {A : Type} (R : A -> A -> Prop) (l : list A) (a : A) :
  StronglySorted R l -> (forall x, In x l -> R x a) ->
  StronglySorted R (l ++ [a]).
Proof.
  induction 1 as [| b l Hl IH Hb]; intros Ha; simpl.
  - constructor; constructor.
  - constructor.
    + apply IH. intros x Hx. apply Ha. right. exact Hx.
    + apply Forall_app. split; [exact Hb |].
      constructor; [apply Ha; left; reflexivity | constructor].
Qed.

Section Numbering.

Context {N : Type} `{JsNumber N}.

Lemma visitRegion_numbered (data : TypedArray N)
    (st : list LoopPoint * Z) (regionEndTarget : Z) :
  numbered st -> numbered (visitRegion data st regionEndTarget).
Proof.
  destruct st as [points idCounter]. intros (Hc & Hp & Hs).
  cbn [fst snd] in *. unfold visitRegion.
  destruct (findZeroCrossing data regionEndTarget 2000 <? 44100 / 2);
    [exact (conj Hc (conj Hp Hs)) |].
  destruct (scanStartPoints data (findZeroCrossing data regionEndTarget 2000))
    as [bestStart bestScore].
  destruct (bestScore >? num 60)%js; [| exact (conj Hc (conj Hp Hs))].
  unfold numbered. cbn [fst snd].
  split; [rewrite len_app, len_cons, len_nil; lia |].
  split.
  - intros p Hin. apply in_app_iff in Hin.
    destruct Hin as [Hin | [<- | []]].
    + destruct (Hp p Hin) as [Hid Hname]. split; [lia | exact Hname].
    + cbn [id name]. pose proof (len_nonneg points). split; [lia | reflexivity].
  - apply StronglySorted_snoc; [exact Hs |].
    intros x Hx. unfold byAscendingId. cbn [id]. apply (Hp x Hx).
Qed.

Lemma fold_visitRegion_numbered (data : TypedArray N) (regions : list Z) :
  forall st, numbered st -> numbered (fold_left (visitRegion data) regions st).
Proof.
  induction regions as [| t regions IH]; intros st Hst; simpl.
  - exact Hst.
  - apply IH. apply visitRegion_numbered. exact Hst.
Qed.

(** Each region adds at most one candidate. *)
Lemma visitRegion_len (data : TypedArray N)
    (st : list LoopPoint * Z) (regionEndTarget : Z) :
  len (fst (visitRegion data st regionEndTarget)) <= len (fst st) + 1.
Proof.
  destruct st as [points idCounter]. unfold visitRegion. cbn [fst].
  destruct (findZeroCrossing data regionEndTarget 2000 <? 44100 / 2);
    [cbn [fst]; lia |].
  destruct (scanStartPoints data (findZeroCrossing data regionEndTarget 2000))
    as [bestStart bestScore].
  destruct (bestScore >? num 60)%js; cbn [fst]; [| lia].
  rewrite len_app, len_cons, len_nil. lia.
Qed.

Lemma fold_visitRegion_len (data : TypedArray N) (regions : list Z) :
  forall st,
    len (fst (fold_left (visitRegion data) regions st))
    <= len (fst st) + len regions.
Proof.
  induction regions as [| t regions IH]; intros st; simpl.
  - rewrite len_nil. lia.
  - rewrite len_cons. pose proof (IH (visitRegion data st t)).
    pose proof (visitRegion_len data st t). lia.
Qed.

Lemma len_candidateEndRegions (n : Z) : len (candidateEndRegions n) <= 3.
Proof.
  unfold candidateEndRegions, len. cbn [filter].
  repeat match goal with
         | |- context [if ?b then _ else _] => destruct b
         end; cbn [List.length]; lia.
Qed.

End Numbering.

Lemma insertByScore_Permutation (a : LoopPoint) (l : list LoopPoint) :
  Permutation (a :: l) (insertByScore a l).
Proof.
  induction l as [| b l IH]; simpl.
  - apply Permutation_refl.
  - destruct (score b - score a >? 0).
    + apply perm_trans with (b :: a :: l); [apply perm_swap |].
      apply perm_skip. exact IH.
    + apply Permutation_refl.
Qed.

Lemma sortByScore_Permutation (l : list LoopPoint) :
  Permutation l (sortByScore l).
Proof.
  induction l as [| a l IH]; simpl.
  - apply perm_nil.
  - apply perm_trans with (a :: sortByScore l).
    + apply perm_skip. exact IH.
    + apply insertByScore_Permutation.
Qed.

Lemma len_sortByScore (l : list LoopPoint) : len (sortByScore l) = len l.
Proof.
  unfold len. f_equal. symmetry.
  apply Permutation_length. apply sortByScore_Permutation.
Qed.

(** The sort is stable: a candidate inserted in front of candidates with
    larger identifiers stays in front of those with the same score. *)
Lemma insertByScore_stable (a : LoopPoint) (l : list LoopPoint) :
  StronglySorted byScoreThenId l ->
  (forall b, In b l -> id a < id b) ->
  StronglySorted byScoreThenId (insertByScore a l).
Proof.
  induction 1 as [| b l Hl IH Hb]; intros Ha; simpl.
  - constructor; constructor.
  - rewrite Forall_forall in Hb.
    destruct (Z.gtb_spec (score b - score a) 0) as [Hgt | Hle].
    + constructor.
      * apply IH. intros x Hx. apply Ha. right. exact Hx.
      * apply Forall_forall. intros x Hx.
        apply (Permutation_in _ (Permutation_sym (insertByScore_Permutation a l)))
          in Hx.
        destruct Hx as [<- | Hx]; [left; lia | apply Hb; exact Hx].
    + constructor; [constructor; [exact Hl | apply Forall_forall; exact Hb] |].
      apply Forall_forall. intros x Hx.
      assert (Hid : id a < id x) by (apply Ha; exact Hx).
      unfold byScoreThenId.
      destruct Hx as [<- | Hx]; [lia |].
      pose proof (Hb x Hx) as Hbx. unfold byScoreThenId in Hbx. lia.
Qed.

Lemma sortByScore_stable (l : list LoopPoint) :
  StronglySorted byAscendingId l ->
  StronglySorted byScoreThenId (sortByScore l).
Proof.
  induction 1 as [| a l Hl IH Ha]; simpl.
  - constructor.
  - apply insertByScore_stable; [exact IH |].
    rewrite Forall_forall in Ha. intros b Hb. apply Ha.
    apply (Permutation_in _ (Permutation_sym (sortByScore_Permutation l))).
    exact Hb.
Qed.

Lemma byAscendingId_NoDup (l : list LoopPoint) :
  StronglySorted byAscendingId l -> NoDup (map id l).
Proof.
  induction 1 as [| a l Hl IH Ha]; simpl; constructor.
  - rewrite Forall_forall in Ha. intros Hin.
    apply in_map_iff in Hin. destruct Hin as (b & Hid & Hb).
    pose proof (Ha b Hb) as Hlt. unfold byAscendingId in Hlt. lia.
  - exact IH.
Qed.

Section Results.

Context {N : Type} `{JsNumber N}.

(** [slice(0, 3)] drops nothing: there are at most three regions, and the
    result is the sorted list of the candidates that they added. *)
Lemma detectLoopPoints_sortByScore (buffer : AudioBuffer N) :
  exists points,
    fst (fold_left (visitRegion (firstChannel buffer))
           (candidateEndRegions (len (firstChannel buffer))) ([], 1))
    = points
    /\ numbered (points, 1 + len points)
    /\ len points <= 3
    /\ detectLoopPoints buffer = sortByScore points.
Proof.
  unfold detectLoopPoints. rewrite getChannelData_0.
  set (data := firstChannel buffer).
  pose proof (fold_visitRegion_numbered data (candidateEndRegions (len data))
                ([], 1)) as Hn.
  pose proof (fold_visitRegion_len data (candidateEndRegions (len data))
                ([], 1)) as Hl.
  pose proof (len_candidateEndRegions (len data)) as H3.
  destruct (fold_left (visitRegion data) (candidateEndRegions (len data))
              ([], 1)) as [points idCounter].
  cbn [fst] in Hl. rewrite len_nil in Hl.
  assert (Hnum : numbered (points, idCounter)).
  { apply Hn. split; [reflexivity |]. split; [intros p [] | constructor]. }
  assert (Hc : idCounter = 1 + len points) by apply Hnum.
  subst idCounter. exists points.
  split; [reflexivity |]. split; [exact Hnum |]. split; [lia |].
  apply firstn_all2.
  pose proof (len_sortByScore points) as Hs. unfold len in Hs, Hl, H3. lia.
Qed.

Lemma detectLoopPoints_Permutation (buffer : AudioBuffer N) :
  Permutation
    (fst (fold_left (visitRegion (firstChannel buffer))
            (candidateEndRegions (len (firstChannel buffer))) ([], 1)))
    (detectLoopPoints buffer).
Proof.
  destruct (detectLoopPoints_sortByScore buffer) as (points & -> & _ & _ & ->).
  apply sortByScore_Permutation.
Qed.

Lemma detectLoopPoints_numbered (buffer : AudioBuffer N) (p : LoopPoint) :
  In p (detectLoopPoints buffer) ->
  1 <= id p <= len (detectLoopPoints buffer)
  /\ name p = autoLoopName (id p + 1).
Proof.
  destruct (detectLoopPoints_sortByScore buffer)
    as (points & _ & (_ & Hp & _) & _ & ->).
  intros Hin. rewrite len_sortByScore.
  apply (Permutation_in _ (Permutation_sym (sortByScore_Permutation points)))
    in Hin.
  cbn [fst snd] in Hp. destruct (Hp p Hin) as [Hid Hname].
  split; [lia | exact Hname].
Qed.

Lemma detectLoopPoints_NoDup (buffer : AudioBuffer N) :
  NoDup (map id (detectLoopPoints buffer)).
Proof.
  destruct (detectLoopPoints_sortByScore buffer)
    as (points & _ & (_ & _ & Hs) & _ & ->).
  cbn [fst] in Hs.
  apply (Permutation_NoDup
           (Permutation_map id (sortByScore_Permutation points))).
  apply byAscendingId_NoDup. exact Hs.
Qed.

Lemma detectLoopPoints_stable (buffer : AudioBuffer N) :
  StronglySorted byScoreThenId (detectLoopPoints buffer).
Proof.
  destruct (detectLoopPoints_sortByScore buffer)
    as (points & _ & (_ & _ & Hs) & _ & ->).
  apply sortByScore_stable. exact Hs.
Qed.

End Results.

(** ** Every accepted region is returned *)

Section Completeness.

Context {N : Type} `{JsNumber N}.

Lemma visitRegion_keeps (data : TypedArray N)
    (st : list LoopPoint * Z) (regionEndTarget : Z) (p : LoopPoint) :
  In p (fst st) -> In p (fst (visitRegion data st regionEndTarget)).
Proof.
  destruct st as [points idCounter]. unfold visitRegion. cbn [fst].
  intros Hp.
  destruct (findZeroCrossing data regionEndTarget 2000 <? 44100 / 2);
    [exact Hp |].
  destruct (scanStartPoints data (findZeroCrossing data regionEndTarget 2000))
    as [bestStart bestScore].
  destruct (bestScore >? num 60)%js; cbn [fst]; [| exact Hp].
  apply in_app_iff. left. exact Hp.
Qed.

Lemma fold_visitRegion_keeps (data : TypedArray N) (regions : list Z)
    (p : LoopPoint) :
  forall st, In p (fst st) ->
             In p (fst (fold_left (visitRegion data) regions st)).
Proof.
  induction regions as [| t regions IH]; intros st Hp; simpl.
  - exact Hp.
  - apply IH. apply visitRegion_keeps. exact Hp.
Qed.

Lemma visitRegion_records (data : TypedArray N)
    (st : list LoopPoint * Z) (regionEndTarget : Z) :
  44100 / 2 <= findZeroCrossing data regionEndTarget 2000 ->
  (snd (scanStartPoints data (findZeroCrossing data regionEndTarget 2000))
   >? num 60)%js = true ->
  exists p, In p (fst (visitRegion data st regionEndTarget))
            /\ recordOf data regionEndTarget p.
Proof.
  intros Hlong Hacc. destruct st as [points idCounter].
  unfold visitRegion, recordOf.
  destruct (Z.ltb_spec (findZeroCrossing data regionEndTarget 2000)
              (44100 / 2)); [lia |].
  destruct (scanStartPoints data (findZeroCrossing data regionEndTarget 2000))
    as [bestStart bestScore].
  cbn [fst snd] in *. rewrite Hacc. cbn [fst].
  eexists. split; [apply in_app_iff; right; left; reflexivity |].
  cbn [end_ start score]. repeat split.
Qed.

Lemma fold_visitRegion_records (data : TypedArray N) (regions : list Z)
    (regionEndTarget : Z) :
  In regionEndTarget regions ->
  44100 / 2 <= findZeroCrossing data regionEndTarget 2000 ->
  (snd (scanStartPoints data (findZeroCrossing data regionEndTarget 2000))
   >? num 60)%js = true ->
  forall st,
  exists p, In p (fst (fold_left (visitRegion data) regions st))
            /\ recordOf data regionEndTarget p.
Proof.
  intros Hin Hlong Hacc.
  induction regions as [| t regions IH]; intros st; [destruct Hin |].
  simpl. destruct Hin as [-> | Hin].
  - destruct (visitRegion_records data st regionEndTarget Hlong Hacc)
      as (p & Hp & Hrec).
    exists p. split; [| exact Hrec].
    apply fold_visitRegion_keeps. exact Hp.
  - apply IH. exact Hin.
Qed.

Lemma detectLoopPoints_records (buffer : AudioBuffer N) (regionEndTarget : Z) :
  In regionEndTarget (candidateEndRegions (frameCount buffer)) ->
  44100 / 2 <= findZeroCrossing (firstChannel buffer) regionEndTarget 2000 ->
  (snd (scanStartPoints (firstChannel buffer)
          (findZeroCrossing (firstChannel buffer) regionEndTarget 2000))
   >? num 60)%js = true ->
  exists p, In p (detectLoopPoints buffer)
            /\ recordOf (firstChannel buffer) regionEndTarget p.
Proof.
  intros Hin Hlong Hacc.
  destruct (fold_visitRegion_records (firstChannel buffer) _ _ Hin Hlong Hacc
              ([], 1)) as (p & Hp & Hrec).
  exists p. split; [| exact Hrec].
  apply (Permutation_in _ (detectLoopPoints_Permutation buffer)). exact Hp.
Qed.

(** Identifiers are distinct, so a lookup by identifier finds the
    candidate itself. *)
Lemma findLoop_NoDup (l : list LoopPoint) (p : LoopPoint) :
  NoDup (map id l) -> In p l -> findLoop (id p) l = Some p.
Proof.
  unfold findLoop. induction l as [| a l IH]; intros Hnd Hin; [destruct Hin |].
  simpl in *. inversion Hnd as [| x xs Hnotin Hnd']; subst.
  destruct Hin as [-> | Hin].
  - rewrite Z.eqb_refl. reflexivity.
  - destruct (Z.eqb_spec (id a) (id p)) as [Heq | Hne].
    + exfalso. apply Hnotin. rewrite Heq. apply in_map. exact Hin.
    + apply IH; assumption.
Qed.

End Completeness.

(** ** The smallest crossing *)

Lemma SFcompare_Lt_trans (x y z : spec_float) :
  SFcompare x y = Some Lt -> SFcompare y z = Some Lt ->
  SFcompare x z = Some Lt.
Proof.
  destruct x as [sx | sx | | sx mx ex], y as [sy | sy | | sy my ey],
    z as [sz | sz | | sz mz ez];
    try destruct sx; try destruct sy; try destruct sz;
    cbn [SFcompare]; try discriminate; try reflexivity.
  - intros H1 H2. f_equal.
    destruct (Z.compare_spec ex ey), (Z.compare_spec ey ez),
      (Z.compare_spec ex ez); try discriminate; try lia; try reflexivity;
      subst.
    injection H1 as H1. injection H2 as H2.
    apply (f_equal CompOpp) in H1, H2. rewrite CompOpp_involutive in H1, H2.
    cbn [CompOpp] in H1, H2.
    change (Pos.compare_cont Eq ?a ?b) with (Pos.compare a b) in *.
    apply (proj1 (Pos.compare_gt_iff _ _)) in H1.
    apply (proj1 (Pos.compare_gt_iff _ _)) in H2.
    rewrite (proj2 (Pos.compare_gt_iff mx mz)); [reflexivity |].
    apply Pos.lt_trans with my; assumption.
  - intros H1 H2. f_equal.
    destruct (Z.compare_spec ex ey), (Z.compare_spec ey ez),
      (Z.compare_spec ex ez); try discriminate; try lia; try reflexivity;
      subst.
    injection H1 as H1. injection H2 as H2.
    change (Pos.compare_cont Eq ?a ?b) with (Pos.compare a b) in *.
    apply Pos.lt_trans with my; assumption.
Qed.

#[export] Instance Float64_LtOrder : LtOrder float.
Proof.
  split.
  - intros a. cbn [num_lt Float64]. rewrite ltb_spec. unfold SFltb.
    destruct (Prim2SF a) as [s | s | | s m e]; cbn [SFcompare];
      try reflexivity; try (destruct s; reflexivity).
    rewrite Z.compare_refl, Pos.compare_cont_refl. destruct s; reflexivity.
  - intros a b c. cbn [num_lt Float64]. rewrite !ltb_compare.
    apply SFcompare_Lt_trans.
Qed.

#[export] Instance Exact_LtOrder : LtOrder Ex.t.
Proof.
  split.
  - intros [x |]; cbn [num_lt Exact Ex.lt]; [| reflexivity].
    assert (Hx : Qle_bool x x = true) by (apply Qle_bool_iff; apply Qle_refl).
    rewrite Hx. reflexivity.
  - intros [x |] [y |] [z |]; cbn [num_lt Exact Ex.lt]; try discriminate.
    intros Hxy Hyz. apply negb_true_iff in Hxy, Hyz.
    apply negb_true_iff. apply not_true_is_false. intros Hc.
    apply Qle_bool_iff in Hc.
    assert (Hxy' : (x < y)%Q).
    { apply Qnot_le_lt. intros Hle. apply Qle_bool_iff in Hle. congruence. }
    assert (Hyz' : (y < z)%Q).
    { apply Qnot_le_lt. intros Hle. apply Qle_bool_iff in Hle. congruence. }
    lra.
Qed.

Section Smallest.

Context {N : Type} `{JsNumber N} `{!LtOrder N}.

Lemma findZeroCrossing_searchState (data : TypedArray N)
    (target windowSize : Z) :
  exists minVal,
    searchState data target windowSize
      (Z.max (Z.max 0 (target - windowSize))
             (Z.min (len data - 1) (target + windowSize)))
      (findZeroCrossing data target windowSize, minVal).
Proof.
  unfold findZeroCrossing.
  set (lo := Z.max 0 (target - windowSize)).
  set (hi := Z.min (len data - 1) (target + windowSize)).
  match goal with
  | |- context [for_loop lo hi 1 ?b ?s0] =>
      destruct (for_loop_invariant_at
                  (searchState data target windowSize) lo hi 1 b)
        with (s := s0) as (k & Hlo & Hhi & Hinv);
        [lia | | | destruct (for_loop lo hi 1 b s0) as [r minVal] eqn:Hr]
  end.
  - intros i [bestIndex minVal] Hi [Hst Hall].
    unfold searchState in *. fold lo hi in Hall |- *. cbn [fst snd] in *.
    destruct (crossing data i) eqn:Hc.
    + destruct (Math_abs data.[i] <? minVal)%js eqn:Hd; cbn [fst snd].
      * split.
        -- right. split; [exact Hi |]. split; [exact Hc |].
           split; [reflexivity |].
           destruct Hst as [Hst | (_ & _ & _ & Hone)].
           ++ injection Hst as _ ->. exact Hd.
           ++ apply (lt_trans _ minVal); assumption.
        -- intros j Hj Hji Hcj. destruct (Z.eq_dec j i) as [-> | Hne].
           ++ apply lt_irrefl.
           ++ apply not_true_is_false. intros Hlt.
              assert (Hjm : (Math_abs data.[j] <? minVal)%js = true)
                by (apply (lt_trans _ (Math_abs data.[i])); assumption).
              rewrite Hall in Hjm by (try assumption; lia). discriminate.
      * split; [exact Hst |].
        intros j Hj Hji Hcj. destruct (Z.eq_dec j i) as [-> | Hne].
        -- exact Hd.
        -- apply Hall; [exact Hj | lia | exact Hcj].
    + split; [exact Hst |].
      intros j Hj Hji Hcj. destruct (Z.eq_dec j i) as [-> | Hne].
      * congruence.
      * apply Hall; [exact Hj | lia | exact Hcj].
  - split; [left; reflexivity |]. fold lo hi. intros j Hj Hji. lia.
  - exists minVal. cbn [fst].
    destruct Hinv as [Hst Hall]. split; [exact Hst |].
    fold lo hi in Hall |- *. intros j Hj _. apply Hall; [exact Hj | lia].
Qed.

Lemma findZeroCrossing_smallest_magnitude (data : TypedArray N)
    (target windowSize j : Z) :
  inSearchWindow data target windowSize j ->
  crossing data j = true ->
  (Math_abs data.[j] <? num 1)%js = true ->
  let r := findZeroCrossing data target windowSize in
  inSearchWindow data target windowSize r
  /\ crossing data r = true
  /\ (Math_abs data.[r] <? num 1)%js = true
  /\ forall k, inSearchWindow data target windowSize k ->
               crossing data k = true ->
               (Math_abs data.[k] <? Math_abs data.[r])%js = false.
Proof.
  intros Hj Hcj Hone r.
  destruct (findZeroCrossing_searchState data target windowSize)
    as (minVal & Hst & Hall).
  fold r in Hst, Hall. cbn [fst snd] in Hst, Hall.
  assert (Hwin : forall k, inSearchWindow data target windowSize k ->
                           k < Z.max (Z.max 0 (target - windowSize))
                                 (Z.min (len data - 1) (target + windowSize)))
    by (unfold inSearchWindow; intros; lia).
  destruct Hst as [Hst | (Hr & Hcr & Hmin & Hlt)].
  - injection Hst as _ ->.
    rewrite Hall in Hone by (try apply Hwin; assumption). discriminate.
  - subst minVal.
    split; [exact Hr |]. split; [exact Hcr |]. split; [exact Hlt |].
    intros k Hk Hck. apply Hall; [exact Hk | apply Hwin; exact Hk | exact Hck].
Qed.

End Smallest.

(** ** The magnitude of a difference in binary64 *)

Lemma SFabs_binary_round (s : bool) (m : positive) (e : Z) :
  SFabs (binary_round prec emax s m e)
  = SFabs (binary_round prec emax false m e).
Proof.
  unfold binary_round.
  destruct (shl_align m e _) as [mz ez]. unfold binary_round_aux.
  destruct (shr_fexp prec emax (Zpos mz) ez loc_Exact) as [mrs1 e1].
  destruct (shr_fexp prec emax _ e1 loc_Exact) as [mrs2 e2].
  destruct (shr_m mrs2); try reflexivity.
  destruct (Z.leb _ _); reflexivity.
Qed.

Lemma SFabs_binary_normalize_opp (m e : Z) :
  SFabs (binary_normalize prec emax (- m) e false)
  = SFabs (binary_normalize prec emax m e false).
Proof.
  destruct m as [| p | p]; cbn [Z.opp binary_normalize]; [reflexivity | |].
  - apply SFabs_binary_round.
  - symmetry. apply SFabs_binary_round.
Qed.

Lemma SFabs_SFsub_swap (x y : spec_float) :
  SFabs (SFsub prec emax x y) = SFabs (SFsub prec emax y x).
Proof.
  destruct x as [sx | sx | | sx mx ex], y as [sy | sy | | sy my ey];
    cbn [SFsub]; try reflexivity;
    try (destruct sx, sy; reflexivity).
  rewrite (Z.min_comm ey ex).
  rewrite <- SFabs_binary_normalize_opp. f_equal. f_equal. lia.
Qed.

#[export] Instance Float64_AbsDifference : AbsDifference float.
Proof.
  split. intros x y. cbn [Math_abs num_sub Float64].
  apply Prim2SF_inj. rewrite !abs_spec, !sub_spec. apply SFabs_SFsub_swap.
Qed.

#[export] Instance Exact_AbsDifference : AbsDifference Ex.t.
Proof.
  split. intros [x |] [y |]; cbn [Math_abs num_sub Exact Ex.lift2 option_map];
    try reflexivity.
  f_equal. destruct x as [xn xd], y as [yn yd].
  unfold Qabs, Qminus, Qplus, Qopp. cbn [Qnum Qden].
  rewrite (Pos.mul_comm yd xd). f_equal. lia.
Qed.

Lemma for_loop_ext {S : Type} (lo hi step : Z) (f g : Z -> S -> S) (s : S) :
  (forall i x, f i x = g i x) ->
  for_loop lo hi step f s = for_loop lo hi step g s.
Proof.
  intros Hfg. unfold for_loop.
  generalize (trip_count lo hi step) as n. intros n. revert lo s.
  induction n as [| n IH]; intros lo s; simpl; [reflexivity |].
  rewrite Hfg. apply IH.
Qed.

Lemma calculateCorrelation_swap {N : Type} `{JsNumber N} `{!AbsDifference N}
    (data : TypedArray N) (idxA idxB window : Z) :
  calculateCorrelation data idxA idxB window
  = calculateCorrelation data idxB idxA window.
Proof.
  unfold calculateCorrelation.
  replace ((idxB <? 0) || (idxA <? 0) || (idxB + window >=? len data)
           || (idxA + window >=? len data))
    with ((idxA <? 0) || (idxB <? 0) || (idxA + window >=? len data)
          || (idxB + window >=? len data))
    by (destruct (idxA <? 0), (idxB <? 0), (idxA + window >=? len data),
          (idxB + window >=? len data); reflexivity).
  destruct ((idxA <? 0) || (idxB <? 0) || (idxA + window >=? len data)
            || (idxB + window >=? len data)); [reflexivity |].
  cbv zeta. f_equal. f_equal. f_equal. f_equal.
  apply for_loop_ext. intros i x. rewrite abs_sub_swap. reflexivity.
Qed.

(** ** Equal windows *)

Lemma float_sub_self (x : float) :
  finiteSample x -> PrimFloat.sub x x = 0%float.
Proof.
  unfold finiteSample. intros Hx. apply Prim2SF_inj. rewrite sub_spec.
  change (Prim2SF 0) with (S754_zero false).
  destruct (Prim2SF x) as [s | s | | s m e]; try contradiction.
  - destruct s; reflexivity.
  - cbn [SF64sub SFsub]. rewrite Z.min_id. unfold shl_align.
    rewrite !Z.sub_diag. reflexivity.
Qed.

Lemma calculateCorrelation_equal_windows (data : TypedArray float)
    (idxA idxB : Z) :
  0 <= idxA -> 0 <= idxB ->
  idxA + 500 < len data -> idxB + 500 < len data ->
  (forall i, 0 <= i < 500 ->
             item data (idxA + i) = item data (idxB + i)
             /\ finiteSample (item data (idxA + i))) ->
  calculateCorrelation data idxA idxB 500 = 100%float.
Proof.
  intros Ha Hb Han Hbn Heq. unfold calculateCorrelation.
  destruct ((idxA <? 0) || (idxB <? 0) || (idxA + 500 >=? len data)
            || (idxB + 500 >=? len data)) eqn:Hg.
  - repeat (apply orb_true_iff in Hg; destruct Hg as [Hg | Hg]); lia.
  - rewrite for_loop_skip; [reflexivity | lia |].
    intros i Hi. destruct (Heq i Hi) as [<- Hfin].
    cbn [num_add num_sub Math_abs Float64].
    rewrite (float_sub_self _ Hfin). reflexivity.
Qed.

(** ** The range of a score in binary64 *)

Lemma is_nan_Prim2SF (v : float) : F64.is_nan v = true -> Prim2SF v = S754_nan.
Proof.
  unfold F64.is_nan. rewrite eqb_spec. unfold SFeqb. intros Hn.
  destruct (Prim2SF v) as [s | s | | s m e] eqn:Hv; try reflexivity;
    rewrite SFcompare_refl in Hn by discriminate; discriminate Hn.
Qed.

(** [Math.max(0, v)] is [v] when [v] is NaN or above 0, and 0 otherwise. *)
Lemma float_max_zero (v : float) :
  (F64.max 0 v = v
   /\ (Prim2SF v = S754_nan \/ PrimFloat.ltb 0 v = true))
  \/ F64.max 0 v = 0%float.
Proof.
  unfold F64.max. change (F64.is_nan 0) with false. cbv iota.
  destruct (F64.is_nan v) eqn:Hn.
  - left. split; [reflexivity |]. left. apply is_nan_Prim2SF. exact Hn.
  - destruct (PrimFloat.ltb 0 v) eqn:Hlt.
    + left. split; [reflexivity |]. right. reflexivity.
    + right. destruct (PrimFloat.ltb v 0); [reflexivity |].
      change (classify 0) with PZero. reflexivity.
Qed.

Lemma calculateCorrelation_float_bounds (data : TypedArray float)
    (idxA idxB : Z) :
  PrimFloat.ltb (calculateCorrelation data idxA idxB 500) 0 = false
  /\ PrimFloat.ltb 100 (calculateCorrelation data idxA idxB 500) = false.
Proof.
  unfold calculateCorrelation.
  destruct ((idxA <? 0) || (idxB <? 0) || (idxA + 500 >=? len data)
            || (idxB + 500 >=? len data)).
  - split; reflexivity.
  - pose proof (float_sum_nonneg data idxA idxB) as Hsum.
    set (sum := for_loop 0 500 1 _ _) in *. clearbody sum.
    cbn [num num_div num_mul num_sub num_lt Math_max Float64].
    change (F64.of_Z 0) with 0%float. change (F64.of_Z 100) with 100%float.
    set (y := (sum / F64.of_Z 500 * F64.of_Z 200)%float).
    assert (Hy : sfNonneg (Prim2SF y)).
    { unfold y. rewrite mul_spec, div_spec.
      change (Prim2SF (F64.of_Z 500))
        with (S754_finite false 8796093022208000 (-44)).
      change (Prim2SF (F64.of_Z 200))
        with (S754_finite false 7036874417766400 (-45)).
      apply sfNonneg_mul. apply sfNonneg_div. exact Hsum. }
    clearbody y.
    destruct (float_max_zero (100 - y)) as [[-> Hv] | ->];
      [| split; reflexivity].
    pose proof (SFsub_hundred (Prim2SF y) Hy) as Hs.
    rewrite !ltb_spec. rewrite ltb_spec in Hv. rewrite sub_spec in *.
    change (Prim2SF 100)
      with (S754_finite false 7036874417766400 (-46)) in *.
    change (Prim2SF 0) with (S754_zero false) in *.
    unfold SF64sub in *.
    destruct (SFsub prec emax (S754_finite false 7036874417766400 (-46))
                (Prim2SF y)) as [s | s | | s m e].
    + split; reflexivity.
    + subst s. destruct Hv as [Hv | Hv]; discriminate Hv.
    + split; reflexivity.
    + destruct Hv as [Hv | Hv]; [discriminate Hv |].
      destruct s; [discriminate Hv |].
      destruct Hs as [Hs | [He Hm]]; [discriminate Hs |].
      split; [reflexivity |].
      unfold SFltb. cbn [SFcompare].
      destruct (Z.compare_spec (-46) e) as [<- | Hlt | Hgt];
        [| lia | reflexivity].
      change (hundredAt (-46)) with (Zpos 7036874417766400) in Hm.
      destruct (Pos.compare_cont Eq 7036874417766400 m) eqn:Hc;
        try reflexivity.
      change (Pos.compare_cont Eq 7036874417766400 m)
        with (Pos.compare 7036874417766400 m) in Hc.
      apply (proj1 (Pos.compare_lt_iff _ _)) in Hc.
      apply Pos2Z.pos_lt_pos in Hc. lia.
Qed.

(** ** A score that is accepted *)

Lemma float_round_above_60 (m : positive) (e : Z) :
  Zpos (digits2_pos m) = 53 ->
  (e = -47 /\ 8444249301319680 < Zpos m) \/ e = -46 ->
  60 <= (2 * Zpos m + 2 ^ (- e)) / 2 ^ (1 - e).
Proof.
  intros Hd He. pose proof (digits53_bounds m Hd) as Hm.
  apply Z.div_le_lower_bound.
  - apply Z.pow_pos_nonneg; lia.
  - destruct He as [[-> Hgt] | ->]; cbn [Z.opp Z.sub Z.add Z.pos_sub];
      change (2 ^ 52) with 4503599627370496 in Hm.
    + change (2 ^ 48) with 281474976710656.
      change (2 ^ 47) with 140737488355328. lia.
    + change (2 ^ 47) with 140737488355328.
      change (2 ^ 46) with 70368744177664. lia.
Qed.

Lemma calculateCorrelation_float_round_60 (data : TypedArray float)
    (idxA idxB : Z) :
  (calculateCorrelation data idxA idxB 500 >? num 60)%js = true ->
  60 <= Math_round (calculateCorrelation data idxA idxB 500).
Proof.
  intros Hacc.
  destruct (calculateCorrelation_float_accepted data idxA idxB Hacc)
    as (m & e & Hsf & He & Hm).
  pose proof (Prim2SF_valid (calculateCorrelation data idxA idxB 500)) as Hv.
  cbn [num_lt num Float64] in Hacc. rewrite ltb_spec in Hacc.
  change (Prim2SF (F64.of_Z 60))
    with (S754_finite false 8444249301319680 (-47)) in Hacc.
  rewrite Hsf in Hacc, Hv.
  cbn [Math_round Float64]. unfold F64.round. rewrite Hsf.
  cbn [F64.signed]. destruct (Z.leb_spec 0 e); [lia |].
  cbn [valid_binary] in Hv. unfold bounded, canonical_mantissa in Hv.
  apply andb_true_iff in Hv. destruct Hv as [Hcan _].
  apply Z.eqb_eq in Hcan.
  assert (Hcmp : (e = -47 /\ 8444249301319680 < Zpos m) \/ e = -46).
  { unfold SFltb in Hacc. cbn [SFcompare] in Hacc.
    destruct (-47 ?= e) eqn:E.
    - apply Z.compare_eq_iff in E. left. split; [lia |].
      destruct (Pos.compare_cont Eq 8444249301319680 m) eqn:Hc;
        try discriminate Hacc.
      change (Pos.compare_cont Eq 8444249301319680 m)
        with (Pos.compare 8444249301319680 m) in Hc.
      apply (proj1 (Pos.compare_lt_iff _ _)) in Hc.
      apply Pos2Z.pos_lt_pos in Hc. exact Hc.
    - apply (proj1 (Z.compare_lt_iff _ _)) in E. right. lia.
    - discriminate Hacc. }
  apply float_round_above_60; [| exact Hcmp].
  unfold fexp, SpecFloat.emin, prec, emax in Hcan. lia.
Qed.

Lemma detectLoopPoints_float_score_60 (buffer : AudioBuffer float)
    (p : LoopPoint) :
  In p (detectLoopPoints buffer) -> 60 <= score p <= 100.
Proof.
  intros Hp. pose proof (detectLoopPoints_float_score buffer p Hp) as Hs.
  split; [| lia].
  apply detectLoopPoints_accepted in Hp. apply accepted_shape in Hp.
  destruct Hp as (t & i & _ & _ & _ & _ & _ & _ & _ & _ & _ & Hacc & ->).
  apply calculateCorrelation_float_round_60. exact Hacc.
Qed.

(** ** The best start of a scan *)

Section BestStart.

Context {N : Type} `{JsNumber N} `{!LtOrder N}.

(** No probe of the scan scores above the score that the scan keeps. *)
Lemma scanStartPoints_best (data : TypedArray N) (validEnd i : Z) :
  scannedProbe data validEnd i ->
  (calculateCorrelation data (findZeroCrossing data i 100) validEnd 500
   >? snd (scanStartPoints data validEnd))%js = false.
Proof.
  intros (Hi & Hmod & Hsnap). unfold scanStartPoints.
  set (step := Z.max 10 (validEnd / 100)) in *.
  set (scoreAt := fun j =>
         calculateCorrelation data (findZeroCrossing data j 100) validEnd 500).
  match goal with
  | |- context [for_loop 0 ?hi step ?b ?s0] =>
      destruct (for_loop_invariant_at
        (fun k (st : Z * N) =>
           k mod step = 0
           /\ forall j, 0 <= j < k -> j mod step = 0 ->
                        findZeroCrossing data j 100 < validEnd - 1000 ->
                        (scoreAt j >? snd st)%js = false)
        0 hi step b) with (s := s0) as (k & Hlo & Hhi & Hk & Hinv)
  end.
  - unfold step. lia.
  - intros k [bestStart bestScore] Hk [Hkm Hall]. cbn [snd] in Hall.
    assert (Hstep : 0 < step) by (unfold step; lia).
    split.
    { replace (k + step) with (k + 1 * step) by lia.
      rewrite Z.mod_add by lia. exact Hkm. }
    assert (Hnew : forall j, 0 <= j < k + step -> j mod step = 0 ->
                             j < k \/ j = k).
    { intros j Hj Hjm.
      destruct (Z.lt_ge_cases j k) as [Hlt | Hge]; [left; exact Hlt | right].
      apply Z.mod_divide in Hjm; [| lia]. apply Z.mod_divide in Hkm; [| lia].
      destruct Hjm as [a ->]. destruct Hkm as [c ->].
      assert (Hca : c <= a) by (apply (Z.mul_le_mono_pos_r _ _ step); lia).
      assert (Hac : a < c + 1) by (apply (Z.mul_lt_mono_pos_r step); lia).
      f_equal. lia. }
    destruct (Z.geb_spec (findZeroCrossing data k 100) (validEnd - 1000))
      as [Hge | Hlt].
    + cbn [snd]. intros j Hj Hjm Hjs.
      destruct (Hnew j Hj Hjm) as [Hjk | ->]; [| lia].
      apply Hall; [lia | exact Hjm | exact Hjs].
    + fold (scoreAt k).
      destruct (scoreAt k >? bestScore)%js eqn:Hbetter; cbn [snd].
      * intros j Hj Hjm Hjs.
        destruct (Hnew j Hj Hjm) as [Hjk | ->]; [| apply lt_irrefl].
        apply not_true_is_false. intros Hc.
        assert (Hjb : (scoreAt j >? bestScore)%js = true)
          by (apply (lt_trans _ (scoreAt k)); assumption).
        rewrite Hall in Hjb by (try assumption; lia). discriminate.
      * intros j Hj Hjm Hjs.
        destruct (Hnew j Hj Hjm) as [Hjk | ->]; [| exact Hbetter].
        apply Hall; [lia | exact Hjm | exact Hjs].
  - split; [apply Z.mod_0_l; unfold step; lia |]. intros j Hj. lia.
  - apply Hinv; [lia | exact Hmod | exact Hsnap].
Qed.

End BestStart.

(** ** Positions in the written file *)

Lemma slice_inside (pre mid post : list byte) (off : Z) (n : nat) :
  0 <= off -> off + Z.of_nat n <= len mid ->
  slice (pre ++ mid ++ post) (len pre + off) n = slice mid off n.
Proof.
  intros Hoff Hn. unfold slice, len in *.
  replace (Z.to_nat (Z.of_nat (List.length pre) + off))
    with (List.length pre + Z.to_nat off)%nat by lia.
  rewrite skipn_app.
  replace (List.length pre + Z.to_nat off - List.length pre)%nat
    with (Z.to_nat off) by lia.
  rewrite skipn_all2 by lia. cbn [app].
  rewrite skipn_app, firstn_app.
  replace (n - List.length (skipn (Z.to_nat off) mid))%nat with O
    by (rewrite length_skipn; lia).
  cbn [firstn]. apply app_nil_r.
Qed.

Lemma slice_int16Bytes (data : list Z) (k : nat) :
  (k < List.length data)%nat ->
  slice (int16Bytes data) (2 * Z.of_nat k) 2 = le_bytes 2 (nth k data 0).
Proof.
  revert k. induction data as [| x data IH]; intros k Hk; [simpl in Hk; lia |].
  destruct k as [| k].
  - reflexivity.
  - simpl in Hk. cbn [nth]. rewrite <- (IH k) by lia. unfold slice, int16Bytes.
    cbn [flat_map le_bytes app].
    replace (Z.to_nat (2 * Z.of_nat (Datatypes.S k)))
      with (Datatypes.S (Datatypes.S (Z.to_nat (2 * Z.of_nat k)))) by lia.
    reflexivity.
Qed.

Lemma nth_flat_map_const {A B : Type} (f : A -> list B) (w : nat)
    (l : list A) (i c : nat) (da : A) (db : B) :
  (forall x, List.length (f x) = w) ->
  (i < List.length l)%nat -> (c < w)%nat ->
  nth (i * w + c) (flat_map f l) db = nth c (f (nth i l da)) db.
Proof.
  intros Hf. revert i. induction l as [| x l IH]; intros i Hi Hc;
    [simpl in Hi; lia |].
  cbn [flat_map]. destruct i as [| i].
  - cbn [Nat.mul Nat.add nth]. apply app_nth1. rewrite Hf. exact Hc.
  - rewrite app_nth2 by (rewrite Hf; simpl; lia).
    rewrite Hf. replace (Datatypes.S i * w + c - w)%nat with (i * w + c)%nat
      by (simpl; lia).
    cbn [nth]. apply IH; [simpl in Hi; lia | exact Hc].
Qed.

Lemma nth_zrange (n : Z) (k : nat) :
  (k < Z.to_nat n)%nat -> nth k (zrange n) 0 = Z.of_nat k.
Proof.
  intros Hk. unfold zrange.
  change 0 with (Z.of_nat 0). rewrite map_nth, seq_nth by exact Hk.
  reflexivity.
Qed.

Section Positions.

Context {N : Type} `{JsNumber N}.

(** Frame [i] of channel [c] is sample number [i * numberOfChannels + c]
    of the file. *)
Lemma nth_pcmSamples (buffer : AudioBuffer N) (i c : Z) :
  0 <= i < frameCount buffer -> 0 <= c < numberOfChannels buffer ->
  nth (Z.to_nat (i * numberOfChannels buffer + c)) (pcmSamples buffer) 0
  = pcm16 (getChannelData buffer c).[i].
Proof.
  intros Hi Hc. unfold pcmSamples.
  set (nch := numberOfChannels buffer) in *.
  replace (Z.to_nat (i * nch + c))
    with (Z.to_nat i * Z.to_nat nch + Z.to_nat c)%nat by nia.
  rewrite (nth_flat_map_const _ (Z.to_nat nch) _ _ _ 0).
  - rewrite nth_zrange by lia. rewrite Z2Nat.id by lia.
    replace (Z.to_nat c) with (Z.to_nat c * 1 + 0)%nat at 1 by lia.
    rewrite (nth_flat_map_const _ 1%nat _ _ _ 0).
    + rewrite nth_zrange by lia. rewrite Z2Nat.id by lia. reflexivity.
    + intros x. reflexivity.
    + unfold zrange. rewrite length_map, length_seq. lia.
    + lia.
  - intros x. pose proof (len_flat_map_const
      (fun channel => [pcm16 (getChannelData buffer channel).[x]]) 1
      (zrange nch) ltac:(intros; reflexivity)) as Hl.
    rewrite len_zrange in Hl by lia. unfold len in Hl. lia.
  - unfold zrange. rewrite length_map, length_seq. lia.
  - lia.
Qed.

End Positions.

Section WrittenFile.

Context {N : Type} `{JsNumber N}.

Lemma fileBytes_sample (buffer : AudioBuffer N)
    (loopPoint : option LoopPoint) (i c : Z) :
  0 <= i < frameCount buffer -> 0 <= c < numberOfChannels buffer ->
  getInt16 (fileBytes buffer loopPoint)
    (44 + 2 * (i * numberOfChannels buffer + c))
  = pcm16 (getChannelData buffer c).[i].
Proof.
  intros Hi Hc. unfold fileBytes, getInt16, getUint16.
  set (header := headerBytes _ _ _ _).
  set (k := i * numberOfChannels buffer + c).
  assert (Hk : 0 <= k < frameCount buffer * numberOfChannels buffer)
    by (unfold k; nia).
  pose proof (len_pcmSamples buffer) as Hlen.
  replace 44 with (len header) by reflexivity.
  rewrite slice_inside;
    [| lia | rewrite len_int16Bytes, Hlen; change (Z.of_nat 2) with 2; lia].
  replace (2 * k) with (2 * Z.of_nat (Z.to_nat k)) by lia.
  rewrite slice_int16Bytes by (unfold len in Hlen; lia).
  rewrite le_value_le_bytes. change (256 ^ Z.of_nat 2) with 65536.
  rewrite wrapInt16_mod. unfold k. rewrite nth_pcmSamples by assumption.
  apply wrapInt16_small. unfold pcm16. apply wrapInt16_range.
Qed.

Lemma fileBytes_sizes (buffer : AudioBuffer N) (loopPoint : option LoopPoint) :
  getUint32 (fileBytes buffer loopPoint) 4
  = (len (fileBytes buffer loopPoint) - 8) mod 2 ^ 32
  /\ getUint32 (fileBytes buffer loopPoint) 40
     = (frameCount buffer * numberOfChannels buffer * 2) mod 2 ^ 32.
Proof.
  rewrite len_fileBytes. unfold fileBytes.
  set (size := outerSize buffer _).
  set (dataSize := frameCount buffer * numberOfChannels buffer * 2).
  set (rest := int16Bytes (pcmSamples buffer) ++ _).
  change (getUint32 (headerBytes size (numberOfChannels buffer)
                       (sampleRate buffer) dataSize ++ rest) 4)
    with (le_value (le_bytes 4 size)).
  change (getUint32 (headerBytes size (numberOfChannels buffer)
                       (sampleRate buffer) dataSize ++ rest) 40)
    with (le_value (le_bytes 4 dataSize)).
  rewrite !le_value_le_bytes. change (256 ^ Z.of_nat 4) with (2 ^ 32).
  split; [f_equal; lia | reflexivity].
Qed.

(** The file with a loop is the file without it, with another declared
    size and the loop-metadata block after the samples. *)
Lemma fileBytes_loop_appended (buffer : AudioBuffer N) (loopPoint : LoopPoint) :
  firstn 4 (fileBytes buffer (Some loopPoint))
  = firstn 4 (fileBytes buffer None)
  /\ skipn 8 (fileBytes buffer (Some loopPoint))
     = skipn 8 (fileBytes buffer None)
       ++ smplBytes (sampleRate buffer) loopPoint.
Proof.
  unfold fileBytes. split; [reflexivity |].
  rewrite app_nil_r.
  set (pcm := int16Bytes (pcmSamples buffer)).
  set (smpl := smplBytes (sampleRate buffer) loopPoint).
  change (skipn 8 (headerBytes (outerSize buffer true)
                     (numberOfChannels buffer) (sampleRate buffer)
                     (frameCount buffer * numberOfChannels buffer * 2)
                   ++ pcm ++ smpl))
    with (skipn 8 (headerBytes (outerSize buffer false)
                     (numberOfChannels buffer) (sampleRate buffer)
                     (frameCount buffer * numberOfChannels buffer * 2))
          ++ pcm ++ smpl).
  change (skipn 8 (headerBytes (outerSize buffer false)
                     (numberOfChannels buffer) (sampleRate buffer)
                     (frameCount buffer * numberOfChannels buffer * 2)
                   ++ pcm))
    with (skipn 8 (headerBytes (outerSize buffer false)
                     (numberOfChannels buffer) (sampleRate buffer)
                     (frameCount buffer * numberOfChannels buffer * 2))
          ++ pcm).
  rewrite <- app_assoc. reflexivity.
Qed.

End WrittenFile.

(** ** Writes outside the buffer *)

Lemma setBytes_len (pos : Z) (bytes buf buf' : list byte) :
  setBytes pos bytes buf = Some (tt, buf') -> len buf' = len buf.
Proof.
  unfold setBytes.
  destruct ((0 <=? pos) && (pos + len bytes <=? len buf)) eqn:Hg;
    [| discriminate].
  apply andb_true_iff in Hg. destruct Hg as [H0 H1].
  apply Z.leb_le in H0, H1. pose proof (len_nonneg bytes).
  intros [= <-]. rewrite !len_app.
  rewrite len_firstn, len_skipn by lia. lia.
Qed.

Lemma writeString_fails (string : string) :
  forall (offset : Z) (buf : list byte),
    writeString offset string buf = None
    <-> string <> EmptyString
        /\ (offset < 0
            \/ len buf < offset + Z.of_nat (String.length string)).
Proof.
  induction string as [| c rest IH]; intros offset buf.
  - cbn [writeString]. unfold ret. split; [discriminate |].
    intros [Hne _]. congruence.
  - cbn [writeString String.length]. unfold bind, setUint8.
    destruct (setBytes offset (le_bytes 1 (charCode c)) buf)
      as [[[] buf'] |] eqn:Hset.
    + pose proof (setBytes_len _ _ _ _ Hset) as Hlen.
      unfold setBytes in Hset.
      destruct ((0 <=? offset)
                && (offset + len (le_bytes 1 (charCode c)) <=? len buf))
        eqn:Hg; [| discriminate].
      apply andb_true_iff in Hg. destruct Hg as [H0 H1].
      apply Z.leb_le in H0, H1. rewrite len_le_bytes in H1.
      rewrite IH, Hlen. split.
      * intros [Hne Hout]. split; [discriminate | lia].
      * intros [_ Hout]. destruct rest as [| c' rest'].
        -- cbn [String.length] in Hout. lia.
        -- split; [discriminate | lia].
    + split; [| reflexivity]. intros _. split; [discriminate |].
      unfold setBytes in Hset.
      destruct ((0 <=? offset)
                && (offset + len (le_bytes 1 (charCode c)) <=? len buf))
        eqn:Hg; [discriminate |].
      apply andb_false_iff in Hg. rewrite len_le_bytes in Hg.
      destruct Hg as [Hg | Hg]; [apply Z.leb_gt in Hg | apply Z.leb_gt in Hg];
        lia.
Qed.

(** ** Parsing a file that carries a loop *)

(** The loop-metadata block after the samples does not change what the
    header, fmt and data blocks give. *)
Lemma parseContainer_fileBytes_loop {N : Type} `{JsNumber N}
    (buffer : AudioBuffer N) (loopPoint : LoopPoint) :
  numberOfChannels buffer < 2 ^ 16 ->
  0 <= sampleRate buffer < 2 ^ 32 ->
  frameCount buffer * numberOfChannels buffer * 2 < 2 ^ 32 ->
  parseContainer (fileBytes buffer (Some loopPoint))
  = Some {| parsedChannels := numberOfChannels buffer;
            parsedSampleRate := sampleRate buffer;
            parsedSamples := pcmSamples buffer |}.
Proof.
  intros Hc Hr Hd.
  pose proof (numberOfChannels_pos buffer) as Hc1.
  pose proof (frameCount_nonneg buffer) as Hf.
  pose proof (len_fileBytes buffer (Some loopPoint)) as Hlen.
  unfold parseContainer. unfold fileBytes in *.
  set (dataSize := frameCount buffer * numberOfChannels buffer * 2) in *.
  set (header := headerBytes (outerSize buffer true)
                   (numberOfChannels buffer) (sampleRate buffer) dataSize) in *.
  set (pcm := int16Bytes (pcmSamples buffer)) in *.
  set (rest := pcm ++ smplBytes (sampleRate buffer) loopPoint) in *.
  change (hasTag (header ++ rest) 0 "RIFF") with true.
  change (hasTag (header ++ rest) 8 "WAVE") with true.
  change (hasTag (header ++ rest) 12 "fmt ") with true.
  change (getUint32 (header ++ rest) 16 =? 16) with true.
  change (getUint16 (header ++ rest) 20 =? 1) with true.
  change (getUint16 (header ++ rest) 34 =? 16) with true.
  change (hasTag (header ++ rest) 36 "data") with true.
  cbn [andb].
  change (getUint32 (header ++ rest) 40) with (le_value (le_bytes 4 dataSize)).
  change (getUint16 (header ++ rest) 22)
    with (le_value (le_bytes 2 (numberOfChannels buffer))).
  change (getUint32 (header ++ rest) 24)
    with (le_value (le_bytes 4 (sampleRate buffer))).
  rewrite !le_value_le_bytes.
  change (256 ^ Z.of_nat 4) with (2 ^ 32). change (256 ^ Z.of_nat 2) with (2 ^ 16).
  rewrite !Z.mod_small by nia.
  unfold outerSize in Hlen. fold dataSize in Hlen.
  destruct (Z.leb_spec (44 + dataSize) (len (header ++ rest))); [| lia].
  f_equal. f_equal.
  change (slice (header ++ rest) 44 (Z.to_nat dataSize))
    with (firstn (Z.to_nat dataSize) rest).
  assert (Hn : Z.to_nat dataSize = List.length pcm).
  { pose proof (len_int16Bytes (pcmSamples buffer)) as Hb.
    rewrite len_pcmSamples in Hb. unfold len in Hb. unfold pcm, dataSize. lia. }
  unfold rest. rewrite Hn, firstn_app, Nat.sub_diag, firstn_all.
  cbn [firstn]. rewrite app_nil_r.
  apply decodeInt16_int16Bytes. apply pcmSamples_int16.
Qed.

(** The four fields of the fmt block after the channel count. *)
Lemma fileBytes_fmt {N : Type} `{JsNumber N} (buffer : AudioBuffer N)
    (loopPoint : option LoopPoint) :
  getUint16 (fileBytes buffer loopPoint) 20 = 1
  /\ getUint32 (fileBytes buffer loopPoint) 28
     = (sampleRate buffer * numberOfChannels buffer * 2) mod 2 ^ 32
  /\ getUint16 (fileBytes buffer loopPoint) 32
     = (numberOfChannels buffer * 2) mod 2 ^ 16
  /\ getUint16 (fileBytes buffer loopPoint) 34 = 16.
Proof.
  unfold fileBytes.
  set (size := outerSize buffer _).
  set (dataSize := frameCount buffer * numberOfChannels buffer * 2).
  set (rest := int16Bytes (pcmSamples buffer) ++ _).
  set (header := headerBytes size (numberOfChannels buffer)
                   (sampleRate buffer) dataSize).
  change (getUint32 (header ++ rest) 28)
    with (le_value (le_bytes 4 (sampleRate buffer * numberOfChannels buffer * 2))).
  change (getUint16 (header ++ rest) 32)
    with (le_value (le_bytes 2 (numberOfChannels buffer * 2))).
  rewrite !le_value_le_bytes.
  repeat split.
Qed.

(** ** Clamping in binary64 *)

Lemma leb_not_nan_r (x y : float) :
  PrimFloat.leb x y = true -> F64.is_nan y = false.
Proof.
  intros H. apply leb_compare in H. unfold F64.is_nan.
  rewrite eqb_spec. unfold SFeqb. rewrite SFcompare_refl; [reflexivity |].
  intros E. rewrite E in H.
  destruct (Prim2SF x); cbn in H; destruct H; discriminate.
Qed.

(** [pcm16] in binary64, with the closed constants evaluated. *)
Lemma pcm16_float_unfold (x : float) :
  pcm16 x
  = let s := F64.max (-1) (F64.min 1 x) in
    wrapInt16 (F64.trunc (if PrimFloat.ltb s 0 then PrimFloat.mul s 32768
                          else PrimFloat.mul s 32767)).
Proof. reflexivity. Qed.

(** Everything at or above 1 is clamped to 1. *)
Lemma float_clamp_high (x : float) :
  PrimFloat.leb 1 x = true -> F64.max (-1) (F64.min 1 x) = 1%float.
Proof.
  intros Hx.
  assert (Hmin : F64.min 1 x = 1%float).
  { unfold F64.min. change (F64.is_nan 1) with false.
    rewrite (leb_not_nan_r 1 x Hx). cbv iota.
    destruct (PrimFloat.ltb 1 x) eqn:H1; [reflexivity |].
    destruct (PrimFloat.ltb x 1) eqn:H2; [| reflexivity].
    apply ltb_compare in H2. apply SFcompare_antisym in H2.
    cbn [CompOpp] in H2.
    destruct (leb_compare 1 x Hx) as [Hc | Hc]; congruence. }
  rewrite Hmin. reflexivity.
Qed.

(** Everything at or below -1 is clamped to -1. *)
Lemma float_clamp_low (x : float) :
  PrimFloat.leb x (-1) = true -> F64.max (-1) (F64.min 1 x) = (-1)%float.
Proof.
  intros Hx.
  assert (E1 : Prim2SF (-1) = S754_finite true 4503599627370496 (-52))
    by (vm_compute; reflexivity).
  destruct (leb_compare x (-1) Hx) as [Hc | Hc].
  - assert (Hx1 : PrimFloat.ltb x 1 = true).
    { apply ltb_compare. apply (SFcompare_Lt_trans _ (Prim2SF (-1))).
      - exact Hc.
      - vm_compute. reflexivity. }
    assert (H1x : PrimFloat.ltb 1 x = false).
    { apply not_true_is_false. intros H1. apply ltb_compare in H1.
      apply ltb_compare in Hx1. apply SFcompare_antisym in H1.
      cbn [CompOpp] in H1. congruence. }
    assert (Hmin : F64.min 1 x = x).
    { unfold F64.min. change (F64.is_nan 1) with false.
      rewrite (leb_not_nan x (-1) Hx). cbv iota.
      rewrite H1x, Hx1. reflexivity. }
    rewrite Hmin. unfold F64.max. change (F64.is_nan (-1)) with false.
    rewrite (leb_not_nan x (-1) Hx). cbv iota.
    pose proof (SFcompare_antisym _ _ _ Hc) as Hc'. cbn [CompOpp] in Hc'.
    destruct (PrimFloat.ltb (-1) x) eqn:H2.
    + apply ltb_compare in H2. congruence.
    + apply ltb_compare in Hc. rewrite Hc. reflexivity.
  - assert (Ex : x = (-1)%float).
    { apply Prim2SF_inj. rewrite E1 in *. apply SFcompare_eq_finite.
      exact Hc. }
    rewrite Ex. vm_compute. reflexivity.
Qed.

(** NaN passes the clamp and every later step. *)
Lemma float_clamp_nan (x : float) :
  F64.is_nan x = true -> F64.max (-1) (F64.min 1 x) = x.
Proof.
  intros Hx. unfold F64.max, F64.min.
  change (F64.is_nan 1) with false. change (F64.is_nan (-1)) with false.
  rewrite Hx. cbv iota. rewrite Hx. reflexivity.
Qed.

Lemma pcm16_saturated_high (x : float) :
  PrimFloat.leb 1 x = true -> pcm16 x = 32767.
Proof.
  intros Hx. rewrite pcm16_float_unfold, (float_clamp_high x Hx).
  vm_compute. reflexivity.
Qed.

Lemma pcm16_saturated_low (x : float) :
  PrimFloat.leb x (-1) = true -> pcm16 x = -32768.
Proof.
  intros Hx. rewrite pcm16_float_unfold, (float_clamp_low x Hx).
  vm_compute. reflexivity.
Qed.

Lemma pcm16_of_nan (x : float) : F64.is_nan x = true -> pcm16 x = 0.
Proof.
  intros Hx. rewrite pcm16_float_unfold, (float_clamp_nan x Hx). cbv zeta.
  pose proof (is_nan_Prim2SF x Hx) as Hsf.
  rewrite ltb_spec, Hsf. cbn [SFltb SFcompare].
  unfold F64.trunc. rewrite mul_spec, Hsf. reflexivity.
Qed.

(** A valid sample keeps its sign, and no code wraps around. *)
Lemma pcm16_float_sign (x : float) :
  validSample64 x ->
  if PrimFloat.ltb x 0 then -32768 <= pcm16 x <= 0
  else 0 <= pcm16 x <= 32767.
Proof.
  intros Hv. pose proof Hv as (Hlo & Hhi & H32).
  rewrite pcm16_float_unfold, (float_clamp x Hlo Hhi). cbv zeta.
  rewrite ltb_spec. change (Prim2SF 0) with (S754_zero false).
  destruct (Prim2SF x) as [z | i | | s m e] eqn:Hx.
  - cbn [SFltb SFcompare]. unfold F64.trunc. rewrite mul_spec, Hx.
    change (Prim2SF 32767)
      with (S754_finite false 9006924376834048 (-38)).
    cbn [SF64mul SFmul]. vm_compute. split; discriminate.
  - unfold fitsBinary32 in H32. rewrite Hx in H32. contradiction.
  - unfold fitsBinary32 in H32. rewrite Hx in H32. contradiction.
  - destruct (validSample64_finite x s m e Hv Hx) as (Hd & Hdiv & He & Hm).
    assert (Hs : SFltb (S754_finite s m e) (S754_zero false) = s)
      by (destruct s; reflexivity).
    rewrite Hs. destruct s.
    + destruct (trunc_scaled x 32768 true m 4503599627370496 e (-37) 32768)
        as [_ Hr]; try assumption; try reflexivity; try lia.
      { exists (2 ^ 28). reflexivity. }
      rewrite wrapInt16_small by lia. lia.
    + destruct (trunc_scaled x 32767 false m 9006924376834048 e (-38) 32767)
        as [_ Hr]; try assumption; try reflexivity; try lia.
      { exists (2 ^ 14 * 32767). reflexivity. }
      rewrite wrapInt16_small by lia. lia.
Qed.

(** ** Lookup and replacement by identifier *)

Lemma updateLoop_ids (newLoop : LoopPoint) (l : list LoopPoint) :
  map id (updateLoop newLoop l) = map id l.
Proof.
  unfold updateLoop. rewrite map_map. apply map_ext.
  intros lp. destruct (Z.eqb_spec (id lp) (id newLoop)); congruence.
Qed.

Lemma findLoop_updateLoop_other (newLoop : LoopPoint) (l : list LoopPoint)
    (loopId : Z) :
  loopId <> id newLoop ->
  findLoop loopId (updateLoop newLoop l) = findLoop loopId l.
Proof.
  intros Hne. unfold findLoop, updateLoop.
  induction l as [| lp l IH]; [reflexivity |]. cbn [map find].
  destruct (Z.eqb_spec (id lp) (id newLoop)) as [Heq | Hneq].
  - destruct (Z.eqb_spec (id newLoop) loopId); [congruence |].
    destruct (Z.eqb_spec (id lp) loopId); [congruence |]. exact IH.
  - destruct (id lp =? loopId); [reflexivity | exact IH].
Qed.

Lemma findLoop_updateLoop_same (newLoop : LoopPoint) (l : list LoopPoint) :
  findLoop (id newLoop) (updateLoop newLoop l)
  = match findLoop (id newLoop) l with
    | Some _ => Some newLoop
    | None => None
    end.
Proof.
  unfold findLoop, updateLoop.
  induction l as [| lp l IH]; [reflexivity |]. cbn [map find].
  destruct (Z.eqb_spec (id lp) (id newLoop)) as [Heq | Hneq].
  - rewrite Z.eqb_refl. reflexivity.
  - destruct (Z.eqb_spec (id lp) (id newLoop)); [congruence | exact IH].
Qed.

Lemma dragLoop_id (h : Handle) (sample : Z) (lp : LoopPoint) :
  id (dragLoop h sample lp) = id lp.
Proof. destruct h; reflexivity. Qed.

(** ** Where an end can lie *)

(** An end must be at least 22050 and leave 500 samples after it. *)
Lemma detectLoopPoints_no_room {N : Type} `{JsNumber N} `{!ScoreOrder N}
    (buffer : AudioBuffer N) :
  frameCount buffer <= 22550 -> detectLoopPoints buffer = [].
Proof.
  intros Hshort.
  destruct (detectLoopPoints buffer) as [| p rest] eqn:Hres; [reflexivity |].
  assert (Hp : In p (detectLoopPoints buffer))
    by (rewrite Hres; left; reflexivity).
  pose proof (detectLoopPoints_accepted buffer p Hp) as Hacc.
  pose proof Hacc as (_ & _ & _ & Hlong & _).
  apply accepted_shape in Hacc.
  destruct Hacc as (t & i & _ & _ & _ & _ & _ & _ & _ & _ & Hend & _).
  change (44100 / 2) with 22050 in Hlong. unfold frameCount in Hshort. lia.
Qed.

(** Every probe lies in the second half of the buffer. *)
Lemma candidateEndRegions_second_half (n t : Z) :
  In t (candidateEndRegions n) -> n / 2 <= t.
Proof.
  intros Hin. pose proof (candidateEndRegions_In n t Hin) as Hgt.
  unfold candidateEndRegions in Hin. apply filter_In in Hin.
  destruct Hin as [Hin _].
  assert (H2 : 2 * (n / 2) <= n) by (apply Z.mul_div_le; lia).
  assert (H4 : 3 * n / 4 * 4 <= 3 * n)
    by (rewrite Z.mul_comm; apply Z.mul_div_le; lia).
  assert (H4' : 3 * n < 4 * (3 * n / 4) + 4).
  { pose proof (Z.mod_pos_bound (3 * n) 4 ltac:(lia)).
    pose proof (Z.div_mod (3 * n) 4 ltac:(lia)). lia. }
  destruct Hin as [<- | [<- | [<- | []]]]; lia.
Qed.

(** ** Silence, as the witnesses use it *)

Lemma frameCount_silence {N : Type} `{JsNumber N} (n : Z) :
  0 <= n -> frameCount (silence n : AudioBuffer N) = n.
Proof.
  intros Hn. unfold frameCount, silence, len, zeros. cbn [firstChannel].
  rewrite repeat_length. lia.
Qed.

Lemma silence_probe_661 :
  scannedProbe (firstChannel (silence 88200 : AudioBuffer float))
    (end_ silenceLoop75) 661.
Proof.
  unfold scannedProbe.
  change (firstChannel (silence 88200 : AudioBuffer float))
    with (zeros 88200 : TypedArray float).
  rewrite findZeroCrossing_zeros. change (end_ silenceLoop75) with 66150.
  split; [lia |]. split; [reflexivity | lia].
Qed.

Lemma silence_region_75 :
  In 66150 (candidateEndRegions (frameCount (silence 88200 : AudioBuffer float)))
  /\ 44100 / 2 <= findZeroCrossing
                    (firstChannel (silence 88200 : AudioBuffer float)) 66150 2000
  /\ (snd (scanStartPoints (firstChannel (silence 88200 : AudioBuffer float))
             (findZeroCrossing
                (firstChannel (silence 88200 : AudioBuffer float)) 66150 2000))
      >? num 60)%js = true.
Proof.
  rewrite frameCount_silence by lia.
  change (firstChannel (silence 88200 : AudioBuffer float))
    with (zeros 88200 : TypedArray float).
  rewrite findZeroCrossing_zeros, scanStartPoints_zeros by lia.
  split; [right; left; reflexivity |].
  split; [vm_compute; discriminate | reflexivity].
Qed.

Lemma silence_windows_equal (i : Z) :
  0 <= i < 500 ->
  (zeros 600 : TypedArray float).[0 + i] = (zeros 600 : TypedArray float).[50 + i]
  /\ finiteSample (zeros 600 : TypedArray float).[0 + i].
Proof.
  intros Hi. rewrite !item_zeros_inside by lia. split; [reflexivity | exact I].
Qed.

(** A sample of binary32 that is not a fraction of a power of 2: the
    binary32 value next to 0.3. *)
Lemma validSample64_third : validSample64 0x1.333334p-2%float.
Proof.
  split; [vm_compute; reflexivity |]. split; [vm_compute; reflexivity |].
  split; [exists 10066330; reflexivity | vm_compute; reflexivity].
Qed.

(* ================================================================== *)
(** * Further properties of the detector *)

(** X1.  When the search window of [findZeroCrossing] holds a sign change
    of magnitude below 1, the answer is a sign change of the window whose
    magnitude is below 1 and which no sign change of the window
    undercuts. *)
Theorem findZeroCrossing_smallest_crossing {N : Type} `{JsNumber N}
    `{!LtOrder N} (data : TypedArray N) (target windowSize j : Z) :
  inSearchWindow data target windowSize j ->
  crossing data j = true ->
  (Math_abs data.[j] <? num 1)%js = true ->
  inSearchWindow data target windowSize
    (findZeroCrossing data target windowSize)
  /\ crossing data (findZeroCrossing data target windowSize) = true
  /\ (Math_abs data.[findZeroCrossing data target windowSize] <? num 1)%js
     = true
  /\ forall k, inSearchWindow data target windowSize k ->
               crossing data k = true ->
               (Math_abs data.[k]
                <? Math_abs data.[findZeroCrossing data target windowSize])%js
               = false.
Proof.
  intros Hj Hc Hone.
  exact (findZeroCrossing_smallest_magnitude data target windowSize j
           Hj Hc Hone).
Qed.

Lemma findZeroCrossing_smallest_crossing_witness :
  findZeroCrossing zigzag 1 100 = 2
  /\ inSearchWindow zigzag 1 100 (findZeroCrossing zigzag 1 100)
  /\ crossing zigzag (findZeroCrossing zigzag 1 100) = true
  /\ (Math_abs zigzag.[findZeroCrossing zigzag 1 100] <? num 1)%js = true
  /\ forall k, inSearchWindow zigzag 1 100 k ->
               crossing zigzag k = true ->
               (Math_abs zigzag.[k]
                <? Math_abs zigzag.[findZeroCrossing zigzag 1 100])%js
               = false.
Proof.
  split; [vm_compute; reflexivity |].
  apply (findZeroCrossing_smallest_crossing zigzag 1 100 0).
  - unfold inSearchWindow. vm_compute. split; [discriminate | reflexivity].
  - vm_compute. reflexivity.
  - vm_compute. reflexivity.
Defined.

(** X2.  With nothing to search, [findZeroCrossing] answers the target
    itself, whatever it is: for an array of at most one element, for a
    window size that is not positive, and for a target beyond the end of
    the array by at least the window size. *)
Theorem findZeroCrossing_empty_window {N : Type} `{JsNumber N}
    (data : TypedArray N) (target windowSize : Z) :
  len data <= 1 \/ windowSize <= 0 \/ len data - 1 + windowSize <= target ->
  findZeroCrossing data target windowSize = target.
Proof.
  intros Hempty. unfold findZeroCrossing, for_loop.
  rewrite trip_count_done; [reflexivity | lia | lia].
Qed.

Lemma findZeroCrossing_empty_window_witness :
  findZeroCrossing ([] : TypedArray float) 7 2000 = 7
  /\ findZeroCrossing zigzag 2 0 = 2
  /\ findZeroCrossing zigzag 104 100 = 104.
Proof.
  split; [| split].
  - apply (findZeroCrossing_empty_window ([] : TypedArray float) 7 2000).
    left. vm_compute. discriminate.
  - apply (findZeroCrossing_empty_window zigzag 2 0). right. left. lia.
  - apply (findZeroCrossing_empty_window zigzag 104 100).
    right. right. vm_compute. discriminate.
Defined.

(** X3.  The score of two windows does not depend on their order. *)
Theorem calculateCorrelation_symmetric {N : Type} `{JsNumber N}
    `{!AbsDifference N} (data : TypedArray N) (idxA idxB window : Z) :
  calculateCorrelation data idxA idxB window
  = calculateCorrelation data idxB idxA window.
Proof. apply calculateCorrelation_swap. Qed.

Lemma calculateCorrelation_symmetric_witness :
  calculateCorrelation zigzag 0 2 2 = calculateCorrelation zigzag 2 0 2.
Proof. exact (calculateCorrelation_symmetric zigzag 0 2 2). Defined.

(** X4.  Two windows that lie inside the buffer and hold the same finite
    samples, one by one, score exactly 100 in binary64. *)
Theorem calculateCorrelation_equal_windows_score_100
    (data : TypedArray float) (idxA idxB : Z) :
  0 <= idxA -> 0 <= idxB ->
  idxA + 500 < len data -> idxB + 500 < len data ->
  (forall i, 0 <= i < 500 ->
             data.[idxA + i] = data.[idxB + i]
             /\ finiteSample data.[idxA + i]) ->
  calculateCorrelation data idxA idxB 500 = 100%float
  /\ Math_round (calculateCorrelation data idxA idxB 500) = 100.
Proof.
  intros Ha Hb Han Hbn Heq.
  rewrite (calculateCorrelation_equal_windows data idxA idxB Ha Hb Han Hbn Heq).
  split; reflexivity.
Qed.

Lemma calculateCorrelation_equal_windows_score_100_witness :
  calculateCorrelation (zeros 600 : TypedArray float) 0 50 500 = 100%float
  /\ Math_round (calculateCorrelation (zeros 600 : TypedArray float) 0 50 500)
     = 100.
Proof.
  apply (calculateCorrelation_equal_windows_score_100 (zeros 600) 0 50).
  - lia.
  - lia.
  - rewrite len_zeros; lia.
  - rewrite len_zeros; lia.
  - exact silence_windows_equal.
Defined.

(** X5.  In binary64 a score is never below 0 and never above 100, for
    any samples (NaN and infinities included) and any two positions. *)
Theorem calculateCorrelation_score_range (data : TypedArray float)
    (idxA idxB : Z) :
  (calculateCorrelation data idxA idxB 500 <? num 0)%js = false
  /\ (calculateCorrelation data idxA idxB 500 >? num 100)%js = false.
Proof. exact (calculateCorrelation_float_bounds data idxA idxB). Qed.

(** X6.  The start of a returned candidate is the best probe of the scan
    for its end: no start probe that the scan scores has a score above
    that of the returned pair. *)
Theorem detectLoopPoints_best_start {N : Type} `{JsNumber N}
    `{!ScoreOrder N} `{!LtOrder N}
    (buffer : AudioBuffer N) (p : LoopPoint) (i : Z) :
  In p (detectLoopPoints buffer) ->
  scannedProbe (firstChannel buffer) (end_ p) i ->
  (calculateCorrelation (firstChannel buffer)
     (findZeroCrossing (firstChannel buffer) i 100) (end_ p) 500
   >? calculateCorrelation (firstChannel buffer) (start p) (end_ p) 500)%js
  = false.
Proof.
  intros Hp Hi. apply detectLoopPoints_accepted in Hp.
  pose proof Hp as (t & _ & _ & _ & Hstart & Hacc & _).
  pose proof (scanStartPoints_best _ _ _ Hi) as Hbest.
  destruct (scanStartPoints_spec (firstChannel buffer) (end_ p))
    as [Hinit | (k & _ & _ & _ & _ & Hsc)].
  - rewrite Hinit in Hacc. cbn [snd] in Hacc.
    rewrite initial_not_accepted in Hacc. discriminate.
  - rewrite Hsc, <- Hstart in Hbest. exact Hbest.
Qed.

Lemma detectLoopPoints_best_start_witness :
  (calculateCorrelation (firstChannel (silence 88200 : AudioBuffer float))
     (findZeroCrossing (firstChannel (silence 88200 : AudioBuffer float))
        661 100)
     (end_ silenceLoop75) 500
   >? calculateCorrelation (firstChannel (silence 88200 : AudioBuffer float))
        (start silenceLoop75) (end_ silenceLoop75) 500)%js
  = false.
Proof.
  exact (detectLoopPoints_best_start (silence 88200 : AudioBuffer float)
           silenceLoop75 661 silenceLoop75_returned_float silence_probe_661).
Defined.

(** X7.  The identifiers of the returned candidates are pairwise distinct,
    and they are the numbers from 1 to the number of candidates. *)
Theorem detectLoopPoints_distinct_ids {N : Type} `{JsNumber N}
    (buffer : AudioBuffer N) :
  NoDup (map id (detectLoopPoints buffer))
  /\ forall p, In p (detectLoopPoints buffer) ->
               1 <= id p <= len (detectLoopPoints buffer).
Proof.
  split; [apply detectLoopPoints_NoDup |].
  intros p Hp. apply (detectLoopPoints_numbered buffer p Hp).
Qed.

(** X8.  The name of a returned candidate carries the counter after its
    increment: the candidate with identifier [n] is called
    ["Auto Loop n+1"]. *)
Theorem detectLoopPoints_names {N : Type} `{JsNumber N}
    (buffer : AudioBuffer N) (p : LoopPoint) :
  In p (detectLoopPoints buffer) -> name p = autoLoopName (id p + 1).
Proof. intros Hp. apply (detectLoopPoints_numbered buffer p Hp). Qed.

Lemma detectLoopPoints_names_witness :
  name silenceLoop75 = autoLoopName (id silenceLoop75 + 1).
Proof.
  exact (detectLoopPoints_names (silence 88200 : AudioBuffer float)
           silenceLoop75 silenceLoop75_returned_float).
Defined.

(** X9.  The sort is stable: the result is ordered by descending score,
    and candidates of equal score by ascending identifier, that is in the
    order in which their regions were probed. *)
Theorem detectLoopPoints_ties_in_probe_order {N : Type} `{JsNumber N}
    (buffer : AudioBuffer N) :
  StronglySorted byScoreThenId (detectLoopPoints buffer).
Proof. apply detectLoopPoints_stable. Qed.

(** X10.  Nothing is dropped: every probed region whose snapped end is at
    least 22050 and whose scan ends with a score above 60 has its
    candidate in the result. *)
Theorem detectLoopPoints_returns_every_accepted_region {N : Type}
    `{JsNumber N} (buffer : AudioBuffer N) (regionEndTarget : Z) :
  In regionEndTarget (candidateEndRegions (frameCount buffer)) ->
  44100 / 2 <= findZeroCrossing (firstChannel buffer) regionEndTarget 2000 ->
  (snd (scanStartPoints (firstChannel buffer)
          (findZeroCrossing (firstChannel buffer) regionEndTarget 2000))
   >? num 60)%js = true ->
  exists p, In p (detectLoopPoints buffer)
            /\ recordOf (firstChannel buffer) regionEndTarget p.
Proof. apply detectLoopPoints_records. Qed.

Lemma detectLoopPoints_returns_every_accepted_region_witness :
  exists p, In p (detectLoopPoints (silence 88200 : AudioBuffer float))
            /\ recordOf (firstChannel (silence 88200 : AudioBuffer float))
                 66150 p.
Proof.
  exact (detectLoopPoints_returns_every_accepted_region
           (silence 88200 : AudioBuffer float) 66150
           (proj1 silence_region_75)
           (proj1 (proj2 silence_region_75))
           (proj2 (proj2 silence_region_75))).
Defined.

(** X11.  A buffer of at most 22550 frames yields no candidate: an end
    must be at least 22050 and leave 500 samples after it. *)
Theorem detectLoopPoints_needs_22551_frames {N : Type} `{JsNumber N}
    `{!ScoreOrder N} (buffer : AudioBuffer N) :
  frameCount buffer <= 22550 -> detectLoopPoints buffer = [].
Proof. apply detectLoopPoints_no_room. Qed.

Lemma detectLoopPoints_needs_22551_frames_witness :
  frameCount (silence 22550 : AudioBuffer float) <= 22550
  /\ detectLoopPoints (silence 22550 : AudioBuffer float) = [].
Proof.
  assert (Hshort : frameCount (silence 22550 : AudioBuffer float) <= 22550)
    by (rewrite frameCount_silence; lia).
  split; [exact Hshort |].
  exact (detectLoopPoints_needs_22551_frames
           (silence 22550 : AudioBuffer float) Hshort).
Defined.

(** X12.  In binary64 the score of a returned candidate is at least 60:
    the rounding of a number above 60. *)
Theorem detectLoopPoints_score_at_least_60 (buffer : AudioBuffer float)
    (p : LoopPoint) :
  In p (detectLoopPoints buffer) -> 60 <= score p.
Proof.
  intros Hp. apply (detectLoopPoints_float_score_60 buffer p Hp).
Qed.

Lemma detectLoopPoints_score_at_least_60_witness :
  60 <= score silenceLoop75.
Proof.
  exact (detectLoopPoints_score_at_least_60
           (silence 88200 : AudioBuffer float) silenceLoop75
           silenceLoop75_returned_float).
Defined.

(** X13.  Every returned candidate ends in the second half of the buffer,
    give or take the 2000 samples of the snap: its end is at least
    [frameCount / 2 - 2000]. *)
Theorem detectLoopPoints_end_in_second_half {N : Type} `{JsNumber N}
    (buffer : AudioBuffer N) (p : LoopPoint) :
  In p (detectLoopPoints buffer) ->
  frameCount buffer / 2 - 2000 <= end_ p.
Proof.
  intros Hp. apply detectLoopPoints_accepted in Hp.
  destruct Hp as (t & Ht & Hend & _).
  apply candidateEndRegions_second_half in Ht.
  unfold frameCount.
  destruct (findZeroCrossing_spec (firstChannel buffer) t 2000)
    as [Heq | [Hw _]]; rewrite <- Hend in *.
  - lia.
  - unfold inSearchWindow in Hw. lia.
Qed.

Lemma detectLoopPoints_end_in_second_half_witness :
  frameCount (silence 88200 : AudioBuffer float) / 2 - 2000
  <= end_ silenceLoop75.
Proof.
  exact (detectLoopPoints_end_in_second_half
           (silence 88200 : AudioBuffer float) silenceLoop75
           silenceLoop75_returned_float).
Defined.

(* ================================================================== *)
(** * Further properties of the writer *)

(** X14.  With or without a loop the writer completes, and the two
    declared sizes fit the file: the outer size field holds the length of
    the file minus 8, the data size field holds the number of sample
    bytes, and the file is the 44-byte header, the samples and, with a
    loop, the 68 bytes of loop metadata. *)
Theorem exportWavWithSmpl_declared_sizes {N : Type} `{JsNumber N}
    (buffer : AudioBuffer N) (loopPoint : option LoopPoint) :
  frameCount buffer * numberOfChannels buffer * 2 + 104 < 2 ^ 32 ->
  exists bytes,
    exportWavWithSmpl buffer loopPoint = Some bytes
    /\ getUint32 bytes 4 = len bytes - 8
    /\ getUint32 bytes 40 = frameCount buffer * numberOfChannels buffer * 2
    /\ len bytes = 44 + getUint32 bytes 40
                   + match loopPoint with Some _ => 68 | None => 0 end.
Proof.
  intros Hsize. exists (fileBytes buffer loopPoint).
  split; [apply exportWavWithSmpl_fileBytes |].
  destruct (fileBytes_sizes buffer loopPoint) as [H4 H40].
  pose proof (len_fileBytes buffer loopPoint) as Hlen.
  pose proof (numberOfChannels_pos buffer) as Hc.
  pose proof (frameCount_nonneg buffer) as Hf.
  unfold outerSize in Hlen.
  rewrite H4, H40, Hlen.
  rewrite !Z.mod_small by (destruct loopPoint; nia).
  destruct loopPoint; repeat split; lia.
Qed.

Lemma exportWavWithSmpl_declared_sizes_witness :
  exists bytes,
    exportWavWithSmpl stereoThree (Some unitLoop) = Some bytes
    /\ getUint32 bytes 4 = len bytes - 8
    /\ getUint32 bytes 40
       = frameCount stereoThree * numberOfChannels stereoThree * 2
    /\ len bytes = 44 + getUint32 bytes 40 + 68.
Proof.
  apply (exportWavWithSmpl_declared_sizes stereoThree (Some unitLoop)).
  vm_compute. reflexivity.
Defined.

(** X15.  The fmt block describes 16-bit PCM consistently: format 1, 16 bits
    per sample, a block alignment of two bytes per channel and a byte
    rate of sample rate times block alignment. *)
Theorem exportWavWithSmpl_fmt_consistent {N : Type} `{JsNumber N}
    (buffer : AudioBuffer N) (loopPoint : option LoopPoint) :
  numberOfChannels buffer * 2 < 2 ^ 16 ->
  0 <= sampleRate buffer ->
  sampleRate buffer * numberOfChannels buffer * 2 < 2 ^ 32 ->
  exists bytes,
    exportWavWithSmpl buffer loopPoint = Some bytes
    /\ getUint16 bytes 20 = 1
    /\ getUint16 bytes 34 = 16
    /\ getUint16 bytes 32 = 2 * numberOfChannels buffer
    /\ getUint32 bytes 28 = sampleRate buffer * getUint16 bytes 32.
Proof.
  intros Hc Hr Hb. exists (fileBytes buffer loopPoint).
  split; [apply exportWavWithSmpl_fileBytes |].
  pose proof (numberOfChannels_pos buffer) as Hc1.
  destruct (fileBytes_fmt buffer loopPoint) as (H20 & H28 & H32 & H34).
  rewrite H20, H28, H32, H34.
  rewrite !Z.mod_small by nia.
  repeat split; lia.
Qed.

Lemma exportWavWithSmpl_fmt_consistent_witness :
  exists bytes,
    exportWavWithSmpl stereoThree None = Some bytes
    /\ getUint16 bytes 20 = 1
    /\ getUint16 bytes 34 = 16
    /\ getUint16 bytes 32 = 2 * numberOfChannels stereoThree
    /\ getUint32 bytes 28 = sampleRate stereoThree * getUint16 bytes 32.
Proof.
  apply (exportWavWithSmpl_fmt_consistent stereoThree None).
  - vm_compute. reflexivity.
  - vm_compute. discriminate.
  - vm_compute. reflexivity.
Defined.

(** X16.  The samples are interleaved: the 16-bit little-endian word at
    byte [44 + 2 * (i * numberOfChannels + c)] of the file is the code of
    frame [i] of channel [c]. *)
Theorem exportWavWithSmpl_sample_position {N : Type} `{JsNumber N}
    (buffer : AudioBuffer N) (loopPoint : option LoopPoint) (i c : Z) :
  0 <= i < frameCount buffer -> 0 <= c < numberOfChannels buffer ->
  exists bytes,
    exportWavWithSmpl buffer loopPoint = Some bytes
    /\ getInt16 bytes (44 + 2 * (i * numberOfChannels buffer + c))
       = pcm16 (getChannelData buffer c).[i].
Proof.
  intros Hi Hc. exists (fileBytes buffer loopPoint).
  split; [apply exportWavWithSmpl_fileBytes |].
  apply fileBytes_sample; assumption.
Qed.

Lemma exportWavWithSmpl_sample_position_witness :
  exists bytes,
    exportWavWithSmpl stereoThree None = Some bytes
    /\ getInt16 bytes (44 + 2 * (1 * numberOfChannels stereoThree + 1))
       = pcm16 (getChannelData stereoThree 1).[1].
Proof.
  apply (exportWavWithSmpl_sample_position stereoThree None 1 1).
  - vm_compute. split; [discriminate | reflexivity].
  - vm_compute. split; [discriminate | reflexivity].
Defined.

(** X17.  A loop only adds to the file: apart from the declared outer
    size (bytes 4 to 7) the file written with a loop is the file written
    without it, followed by the loop-metadata block. *)
Theorem exportWavWithSmpl_loop_appended {N : Type} `{JsNumber N}
    (buffer : AudioBuffer N) (loopPoint : LoopPoint) :
  exists plain looped,
    exportWavWithSmpl buffer None = Some plain
    /\ exportWavWithSmpl buffer (Some loopPoint) = Some looped
    /\ firstn 4 looped = firstn 4 plain
    /\ skipn 8 looped
       = skipn 8 plain ++ smplBytes (sampleRate buffer) loopPoint.
Proof.
  exists (fileBytes buffer None), (fileBytes buffer (Some loopPoint)).
  split; [apply exportWavWithSmpl_fileBytes |].
  split; [apply exportWavWithSmpl_fileBytes |].
  apply fileBytes_loop_appended.
Qed.

(** X18.  The loop does not disturb the audio: for a buffer whose channel
    count, sample rate and data size fit their fields, reading the
    header, fmt and data blocks of the file written with a loop gives
    what it gives for the file written without one. *)
Theorem exportWavWithSmpl_loop_keeps_audio {N : Type} `{JsNumber N}
    (buffer : AudioBuffer N) (loopPoint : LoopPoint) :
  numberOfChannels buffer < 2 ^ 16 ->
  0 <= sampleRate buffer < 2 ^ 32 ->
  frameCount buffer * numberOfChannels buffer * 2 < 2 ^ 32 ->
  exists plain looped parsed,
    exportWavWithSmpl buffer None = Some plain
    /\ exportWavWithSmpl buffer (Some loopPoint) = Some looped
    /\ parseContainer plain = Some parsed
    /\ parseContainer looped = Some parsed
    /\ parsedChannels parsed = numberOfChannels buffer
    /\ parsedSampleRate parsed = sampleRate buffer.
Proof.
  intros Hc Hr Hd.
  exists (fileBytes buffer None), (fileBytes buffer (Some loopPoint)).
  eexists.
  split; [apply exportWavWithSmpl_fileBytes |].
  split; [apply exportWavWithSmpl_fileBytes |].
  split; [apply parseContainer_fileBytes; assumption |].
  split; [apply parseContainer_fileBytes_loop; assumption |].
  split; reflexivity.
Qed.

Lemma exportWavWithSmpl_loop_keeps_audio_witness :
  exists plain looped parsed,
    exportWavWithSmpl stereoThree None = Some plain
    /\ exportWavWithSmpl stereoThree (Some unitLoop) = Some looped
    /\ parseContainer plain = Some parsed
    /\ parseContainer looped = Some parsed
    /\ parsedChannels parsed = numberOfChannels stereoThree
    /\ parsedSampleRate parsed = sampleRate stereoThree.
Proof.
  apply (exportWavWithSmpl_loop_keeps_audio stereoThree unitLoop).
  - vm_compute. reflexivity.
  - vm_compute. split; [discriminate | reflexivity].
  - vm_compute. reflexivity.
Defined.

(** X19.  In binary64 every sample at or above 1, +Infinity included, is
    stored as 32767. *)
Theorem pcm16_saturates_high (x : float) :
  (num 1 <=? x)%js = true -> pcm16 x = 32767.
Proof. apply pcm16_saturated_high. Qed.

Lemma pcm16_saturates_high_witness :
  pcm16 2.5%float = 32767 /\ pcm16 infinity = 32767.
Proof.
  split.
  - apply (pcm16_saturates_high 2.5%float). vm_compute. reflexivity.
  - apply (pcm16_saturates_high infinity). vm_compute. reflexivity.
Defined.

(** X20.  In binary64 every sample at or below -1, -Infinity included, is
    stored as -32768. *)
Theorem pcm16_saturates_low (x : float) :
  (x <=? num (-1))%js = true -> pcm16 x = -32768.
Proof. apply pcm16_saturated_low. Qed.

Lemma pcm16_saturates_low_witness :
  pcm16 (-3)%float = -32768 /\ pcm16 neg_infinity = -32768.
Proof.
  split.
  - apply (pcm16_saturates_low (-3)%float). vm_compute. reflexivity.
  - apply (pcm16_saturates_low neg_infinity). vm_compute. reflexivity.
Defined.

(** X21.  A sample that is NaN is stored as 0. *)
Theorem pcm16_nan_is_zero (x : float) :
  F64.is_nan x = true -> pcm16 x = 0.
Proof. apply pcm16_of_nan. Qed.

Lemma pcm16_nan_is_zero_witness : pcm16 nan = 0.
Proof. apply (pcm16_nan_is_zero nan). vm_compute. reflexivity. Defined.

(** X22.  In binary64 the code of a valid sample has the sign of the
    sample and never wraps around: a negative sample gives a code from
    -32768 to 0, any other a code from 0 to 32767. *)
Theorem pcm16_keeps_sign (x : float) :
  validSample64 x ->
  if (x <? num 0)%js then -32768 <= pcm16 x <= 0
  else 0 <= pcm16 x <= 32767.
Proof. apply pcm16_float_sign. Qed.

Lemma pcm16_keeps_sign_witness : 0 <= pcm16 0x1.333334p-2%float <= 32767.
Proof. exact (pcm16_keeps_sign 0x1.333334p-2%float validSample64_third). Defined.

(** X23.  [writeString] raises a [RangeError] exactly when the string is
    not empty and does not fit into the buffer at the offset. *)
Theorem writeString_range_error (offset : Z) (string : string)
    (buf : list byte) :
  writeString offset string buf = None
  <-> string <> EmptyString
      /\ (offset < 0 \/ len buf < offset + Z.of_nat (String.length string)).
Proof. apply writeString_fails. Qed.

(* ================================================================== *)
(** * Properties of the host's use of loop points *)

(** X24.  Looking up the identifier of a returned candidate in the result
    finds that candidate: the selection by identifier is unambiguous. *)
Theorem findLoop_detected {N : Type} `{JsNumber N}
    (buffer : AudioBuffer N) (p : LoopPoint) :
  In p (detectLoopPoints buffer) ->
  findLoop (id p) (detectLoopPoints buffer) = Some p.
Proof.
  intros Hp. apply findLoop_NoDup; [apply detectLoopPoints_NoDup | exact Hp].
Qed.

Lemma findLoop_detected_witness :
  findLoop (id silenceLoop75)
    (detectLoopPoints (silence 88200 : AudioBuffer float))
  = Some silenceLoop75.
Proof.
  exact (findLoop_detected (silence 88200 : AudioBuffer float)
           silenceLoop75 silenceLoop75_returned_float).
Defined.

(** X25.  [updateActiveLoop] replaces by identifier: the identifiers of the
    list stay as they are, a lookup of the new loop's identifier gives
    the new loop if the list had a loop of that identifier (and nothing
    otherwise), and lookups of other identifiers are unchanged. *)
Theorem updateLoop_lookup (newLoop : LoopPoint) (loopPoints : list LoopPoint) :
  map id (updateLoop newLoop loopPoints) = map id loopPoints
  /\ findLoop (id newLoop) (updateLoop newLoop loopPoints)
     = match findLoop (id newLoop) loopPoints with
       | Some _ => Some newLoop
       | None => None
       end
  /\ forall loopId, loopId <> id newLoop ->
       findLoop loopId (updateLoop newLoop loopPoints)
       = findLoop loopId loopPoints.
Proof.
  split; [apply updateLoop_ids |].
  split; [apply findLoop_updateLoop_same |].
  intros loopId Hne. apply findLoop_updateLoop_other. exact Hne.
Qed.

(** X26.  Dragging a handle never brings the two ends of the loop closer
    than 100 samples, moves only the dragged end, and keeps the
    identifier, the score and the name. *)
Theorem dragLoop_keeps_distance (isDragging : Handle) (sample : Z)
    (loopPoint : LoopPoint) :
  let newLoop := dragLoop isDragging sample loopPoint in
  end_ newLoop - start newLoop >= 100
  /\ match isDragging with
     | StartHandle => end_ newLoop = end_ loopPoint /\ start newLoop <= sample
     | EndHandle => start newLoop = start loopPoint /\ sample <= end_ newLoop
     end
  /\ id newLoop = id loopPoint
  /\ score newLoop = score loopPoint
  /\ name newLoop = name loopPoint.
Proof.
  destruct isDragging; cbn [dragLoop id start end_ score name];
    repeat split; lia.
Qed.

(** X27.  The loop that a drag passes to [updateActiveLoop] becomes the
    active loop: if the selected identifier finds [loopPoint], then after
    the update it finds the dragged loop. *)
Theorem dragged_loop_is_active (isDragging : Handle) (sample selected : Z)
    (loopPoint : LoopPoint) (loopPoints : list LoopPoint) :
  findLoop selected loopPoints = Some loopPoint ->
  findLoop selected
    (updateLoop (dragLoop isDragging sample loopPoint) loopPoints)
  = Some (dragLoop isDragging sample loopPoint).
Proof.
  intros Hfind.
  assert (Hid : id loopPoint = selected).
  { unfold findLoop in Hfind. apply find_some in Hfind.
    destruct Hfind as [_ Hid]. apply Z.eqb_eq. exact Hid. }
  pose proof (findLoop_updateLoop_same
                (dragLoop isDragging sample loopPoint) loopPoints) as Hsame.
  rewrite dragLoop_id, Hid, Hfind in Hsame. exact Hsame.
Qed.

Lemma dragged_loop_is_active_witness :
  findLoop 1 (updateLoop (dragLoop EndHandle 30000 silenceLoop75)
                [silenceLoop75; silenceLoop50])
  = Some (dragLoop EndHandle 30000 silenceLoop75).
Proof.
  apply (dragged_loop_is_active EndHandle 30000 1 silenceLoop75
           [silenceLoop75; silenceLoop50]).
  reflexivity.
Defined.

(** X28.  Every loop that loading a buffer of at least one frame records
    lies inside the buffer, and exporting the buffer with it stores its
    two offsets unchanged (binary64; fewer than 2^32 frames). *)
Theorem initialLoopPoints_exported_unchanged (buffer : AudioBuffer float)
    (p : LoopPoint) :
  1 <= frameCount buffer < 2 ^ 32 ->
  In p (initialLoopPoints buffer) ->
  0 <= start p <= end_ p /\ end_ p <= frameCount buffer - 1
  /\ exists bytes,
       exportWavWithSmpl buffer (Some p) = Some bytes
       /\ smplLoopStart buffer bytes = start p
       /\ smplLoopEnd buffer bytes = end_ p.
Proof.
  intros Hn Hp.
  assert (Hin : 0 <= start p <= end_ p /\ end_ p <= frameCount buffer - 1).
  { unfold initialLoopPoints in Hp.
    destruct (duration buffer >? num 1 / num 2)%js.
    - pose proof (detectLoopPoints_offsets buffer p Hp). lia.
    - destruct Hp as [<- | []]. cbn [start end_]. lia. }
  split; [apply Hin |]. split; [apply Hin |].
  exists (fileBytes buffer (Some p)).
  split; [apply exportWavWithSmpl_fileBytes |].
  destruct (smpl_loop_fields buffer p) as [-> ->].
  rewrite !Z.mod_small by lia. split; reflexivity.
Qed.

Lemma initialLoopPoints_exported_unchanged_witness :
  0 <= start unitLoop <= end_ unitLoop
  /\ end_ unitLoop <= frameCount (oneSample 1%float) - 1
  /\ exists bytes,
       exportWavWithSmpl (oneSample 1%float) (Some unitLoop) = Some bytes
       /\ smplLoopStart (oneSample 1%float) bytes = start unitLoop
       /\ smplLoopEnd (oneSample 1%float) bytes = end_ unitLoop.
Proof.
  apply (initialLoopPoints_exported_unchanged (oneSample 1%float) unitLoop).
  - vm_compute. split; [discriminate | reflexivity].
  - vm_compute. left. reflexivity.
Defined.


